(** * ChatMessagesView: text clean-up, export chains and session annotations

    A shallow embedding of the text-processing and annotation handlers of
    [frontend/src/components/ChatMessagesView.tsx]:

    - JavaScript strings are lists of UTF-16 code units ([N]);
    - every regular-expression literal of the source is written as a value
      of [regex], and run by a backtracking matcher that lists the possible
      matches in the priority order of ECMAScript (first one wins);
    - [String.prototype.replace], [split] and [trim] are the loops of the
      language specification, written by recursion on the subject string;
    - React state is a record, updated by the functions the handlers pass
      to their setters; the services of the browser (local storage, JSON)
      are the fields of a record the handlers are parameterised by, and a
      call that may throw returns an [outcome].

    The repository has a second copy of the component, styled with
    Tailwind classes; its handlers are the same except for
    [markdownToHtml], which has six more replacements
    ([markdownToHtml_lifted]).

    Beside them stand the submit handlers of
    [frontend/src/components/InputForm.tsx] and of the welcome screen, the
    selection of files, the names of the downloads, the summary panel and
    the loading indicators, and the pass of [handleDownloadPdf] over the
    content, as the list of the calls it makes on the jsPDF document
    (numbers are rationals there; the page size, the line breaking of the
    library, Unicode normalisation and the date are parameters).

    Patterns are quoted in the comments as the source has them, except
    that a blank separates a star from a closing parenthesis after it. *)

From Stdlib Require Import NArith String Ascii QArith Lqa DecimalString.
From stdpp Require Import base list gmap sorting.

Local Open Scope N_scope.

(** ** JavaScript strings *)

Module JS.

(** A string is a sequence of UTF-16 code units. *)
Definition jsstring := list N.

(** The code units of an ASCII literal. *)
Definition str (s : string) : jsstring :=
  List.map N_of_ascii (list_ascii_of_string s).

(** The matcher only looks at the code unit of a symbol; a replacement
    template builds symbols from code units. Keeping the symbol type
    abstract lets the same functions run on strings whose symbols carry
    the position they had in the input. *)
Class Sym (A : Type) := { code : A → N; lit : N → A }.

#[export] Instance N_sym : Sym N := {| code := λ c, c; lit := λ c, c |}.

(** Symbols that remember where they came from: [Some i] for the code unit
    at index [i] of the input, [None] for one written by a template. *)
Definition traced := (N * option nat)%type.

#[export] Instance traced_sym : Sym traced :=
  {| code := fst; lit := λ c, (c, None) |}.

Fixpoint trace_from (i : nat) (s : jsstring) : list traced :=
  match s with
  | [] => []
  | c :: s' => (c, Some i) :: trace_from (S i) s'
  end.

Definition trace (s : jsstring) : list traced := trace_from 0 s.

Definition untrace (s : list traced) : jsstring := List.map fst s.

Definition origins (s : list traced) : list nat :=
  omap snd s.

(** LineTerminator: LF, CR, LS, PS. *)
Definition is_line_terminator (c : N) : bool :=
  (c =? 10) || (c =? 13) || (c =? 0x2028) || (c =? 0x2029).

(** WhiteSpace or LineTerminator: what [\s] matches and [trim] strips. *)
Definition is_space (c : N) : bool :=
  (c =? 9) || (c =? 10) || (c =? 11) || (c =? 12) || (c =? 13) || (c =? 32)
  || (c =? 0xA0) || (c =? 0x1680) || ((0x2000 <=? c) && (c <=? 0x200A))
  || (c =? 0x2028) || (c =? 0x2029) || (c =? 0x202F) || (c =? 0x205F)
  || (c =? 0x3000) || (c =? 0xFEFF).

Definition is_high_surrogate (c : N) : bool := (0xD800 <=? c) && (c <=? 0xDBFF).
Definition is_low_surrogate (c : N) : bool := (0xDC00 <=? c) && (c <=? 0xDFFF).

Section Strings.
Context {A : Type} `{Sym A}.

Fixpoint trimStart (s : list A) : list A :=
  match s with
  | c :: s' => if is_space (code c) then trimStart s' else s
  | [] => []
  end.

Definition trimEnd (s : list A) : list A := rev (trimStart (rev s)).

(** [String.prototype.trim] *)
Definition trim (s : list A) : list A := trimEnd (trimStart s).

(** [Array.prototype.join] on strings. *)
Fixpoint join (sep : list A) (l : list (list A)) : list A :=
  match l with
  | [] => []
  | [x] => x
  | x :: l' => x ++ sep ++ join sep l'
  end.

(** The code point at the head of a string and the number of code units
    it takes (a surrogate pair counts for two). *)
Definition code_point (s : list A) : option (N * nat) :=
  match s with
  | [] => None
  | hi :: lo :: _ =>
      if is_high_surrogate (code hi) && is_low_surrogate (code lo)
      then Some ((code hi - 0xD800) * 0x400 + (code lo - 0xDC00) + 0x10000, 2%nat)
      else Some (code hi, 1%nat)
  | c :: _ => Some (code c, 1%nat)
  end.
End Strings.

(** What calling a function that may throw gives. *)
Inductive outcome (T : Type) :=
  | Return (v : T)
  | Throw.
Arguments Return {T} v.
Arguments Throw {T}.

Definition obind {T U : Type} (x : outcome T) (k : T → outcome U) : outcome U :=
  match x with
  | Return v => k v
  | Throw => Throw
  end.

(** [try { body } catch { handler }] *)
Definition try_catch {T : Type} (body handler : outcome T) : outcome T :=
  match body with
  | Return v => Return v
  | Throw => handler
  end.

(** [Array.prototype.sort] with a comparator; the sort is stable, so of
    two elements the comparator does not order the earlier stays first. *)
Fixpoint sort_insert {T : Type} (cmp : T → T → Z) (x : T) (l : list T) : list T :=
  match l with
  | [] => [x]
  | y :: l' => if (cmp x y <=? 0)%Z then x :: l else y :: sort_insert cmp x l'
  end.

Definition sort {T : Type} (cmp : T → T → Z) (l : list T) : list T :=
  foldr (sort_insert cmp) [] l.

(** [Array.prototype.filter] with a callback that looks at the index. *)
Fixpoint filter_from {T : Type} (keep : T → nat → bool) (i : nat) (l : list T)
  : list T :=
  match l with
  | [] => []
  | x :: l' =>
      if keep x i then x :: filter_from keep (S i) l' else filter_from keep (S i) l'
  end.

Definition filter_indexed {T : Type} (keep : T → nat → bool) (l : list T) : list T :=
  filter_from keep 0 l.

End JS.

(** ** Regular expressions *)

Module Regex.
Import JS.

(** The fragment of the pattern language the source uses. Quantifiers only
    ever apply to a single character class there, so [Rep] (at least [lo]
    times) and [Opt] (at most once, greedy) take a class.
    [Bol] and [Eol] are [^] and [$] under the [m] flag, which every
    anchored pattern of the source has. *)
Inductive regex :=
  | Emp
  | Chr (p : N → bool)
  | ChrU (p : N → bool)
  | Rep (p : N → bool) (lo : nat) (greedy : bool)
  | Opt (p : N → bool)
  | Bol
  | Eol
  | Behind (p : N → bool)
  | Grp (n : nat) (r : regex)
  | Cat (r1 r2 : regex).

Infix "⋅" := Cat (at level 41, right associativity).

(** Character classes. *)
Definition oneof (a : string) : N → bool :=
  λ c, existsb (N.eqb c) (str a).
Definition noneof (a : string) : N → bool := λ c, negb (oneof a c).
Definition any : N → bool := λ _, true.
Definition dot : N → bool := λ c, negb (is_line_terminator c).
Definition range (a b : N) : N → bool := λ c, (a <=? c) && (c <=? b).
(** [[a-z]] under the [i] flag. *)
Definition letter : N → bool := λ c, range 97 122 c || range 65 90 c.

(** A literal: its characters in sequence. Under the [i] flag ([LitI]) a
    small letter of the pattern also matches its capital; the patterns of
    the source have no capital letter. *)
Definition Lit (s : string) : regex :=
  foldr (λ c r, Chr (N.eqb c) ⋅ r) Emp (str s).
Definition LitI (s : string) : regex :=
  foldr (λ c r, Chr (λ x, (x =? c) || (range 97 122 c && (x + 32 =? c))) ⋅ r) Emp (str s).

(** The classes of the code units every match of a pattern begins with,
    and whether they describe the pattern to its end (so that the classes
    of what follows it may be appended). *)
Fixpoint lead (r : regex) : list (N → bool) * bool :=
  match r with
  | Emp | Bol | Eol | Behind _ => ([], true)
  | Chr p => ([p], true)
  | Rep p lo _ => (replicate lo p, false)
  | Opt _ | ChrU _ => ([], false)
  | Grp _ r => lead r
  | Cat r1 r2 =>
      let (ps, full) := lead r1 in
      if full then let (qs, full2) := lead r2 in (ps ++ qs, full2)
      else (ps, false)
  end.

Section Matcher.
Context {A : Type} `{Sym A}.

(** The string starts with code units of the given classes. *)
Fixpoint fits (ps : list (N → bool)) (rs : list A) : bool :=
  match ps, rs with
  | [], _ => true
  | p :: ps', c :: rs' => p (code c) && fits ps' rs'
  | _ :: _, [] => false
  end.

(** A position in the subject: what was read (last first), what is left,
    and the captures so far (newest first). *)
Record mstate := MState {
  seen : list A;
  rest : list A;
  caps : list (nat * list A)
}.

Definition capture (n : nat) (cs : list (nat * list A)) : list A :=
  match List.find (λ e, Nat.eqb (fst e) n) cs with
  | Some e => snd e
  | None => []
  end.

(** [lo] mandatory repetitions of a class. *)
Fixpoint rep_min (p : N → bool) (lo : nat) (sn rs : list A)
  : option (list A * list A) :=
  match lo with
  | O => Some (sn, rs)
  | S k =>
      match rs with
      | c :: rs' => if p (code c) then rep_min p k (c :: sn) rs' else None
      | [] => None
      end
  end.

(** The optional repetitions after them: every stopping point, the
    longest first when greedy, the shortest first when lazy. *)
Fixpoint rep_more (p : N → bool) (greedy : bool) (sn rs : list A)
  : list (list A * list A) :=
  match rs with
  | c :: rs' =>
      if p (code c) then
        if greedy then rep_more p greedy (c :: sn) rs' ++ [(sn, rs)]
        else (sn, rs) :: rep_more p greedy (c :: sn) rs'
      else [(sn, rs)]
  | [] => [(sn, rs)]
  end.

(** All the ways [r] matches from a position, in backtracking order. *)
Fixpoint matches (r : regex) (st : mstate) : list mstate :=
  match r with
  | Emp => [st]
  | Chr p =>
      match rest st with
      | c :: tl => if p (code c) then [MState (c :: seen st) tl (caps st)] else []
      | [] => []
      end
  | ChrU p =>
      match code_point (rest st) with
      | Some (cp, k) =>
          if p cp
          then [MState (rev (take k (rest st)) ++ seen st) (drop k (rest st)) (caps st)]
          else []
      | None => []
      end
  | Rep p lo greedy =>
      match rep_min p lo (seen st) (rest st) with
      | Some (sn, rs) =>
          List.map (λ '(sn', rs'), MState sn' rs' (caps st)) (rep_more p greedy sn rs)
      | None => []
      end
  | Opt p =>
      match rest st with
      | c :: tl => if p (code c) then [MState (c :: seen st) tl (caps st); st] else [st]
      | [] => [st]
      end
  | Bol =>
      match seen st with
      | [] => [st]
      | c :: _ => if is_line_terminator (code c) then [st] else []
      end
  | Eol =>
      match rest st with
      | [] => [st]
      | c :: _ => if is_line_terminator (code c) then [st] else []
      end
  | Behind p =>
      match seen st with
      | c :: _ => if p (code c) then [st] else []
      | [] => []
      end
  | Grp n r =>
      List.map
        (λ st', MState (seen st') (rest st')
                  ((n, take (length (rest st) - length (rest st')) (rest st)) :: caps st'))
        (matches r st)
  | Cat r1 r2 => flat_map (matches r2) (matches r1 st)
  end.

(** The first place from a position on where the string continues with
    code units of the given classes, and the position after them. *)
Fixpoint find_fit (ps : list (N → bool)) (sn rs : list A)
  : option (list A * list A) :=
  if fits ps rs
  then Some (rev (take (length ps) rs) ++ sn, drop (length ps) rs)
  else match rs with
       | [] => None
       | c :: rs' => find_fit ps (c :: sn) rs'
       end.

(** The position after the longest run of a class. *)
Fixpoint span (p : N → bool) (sn rs : list A) : list A * list A :=
  match rs with
  | c :: rs' => if p (code c) then span p (c :: sn) rs' else (sn, rs)
  | [] => (sn, rs)
  end.

(** The match at a position: the first in backtracking order. *)
Definition exec (r : regex) (sn rs : list A) : option mstate :=
  head (matches r (MState sn rs [])).

(** Number of code units a match started at [rs] has read. *)
Definition matched (rs : list A) (st : mstate) : nat :=
  (length rs - length (rest st))%nat.

(** Replacement templates: literal text and [$n]. *)
Inductive titem := TLit (s : jsstring) | TCap (n : nat).

(** The code units a template writes by itself. *)
Definition template_text (t : list titem) : jsstring :=
  flat_map (λ i, match i with TLit s => s | TCap _ => [] end) t.

Definition expand (t : list titem) (st : mstate) : list A :=
  flat_map (λ i, match i with
                 | TLit s => List.map lit s
                 | TCap n => capture n (caps st)
                 end) t.

(** AdvanceStringIndex: one code unit, or a whole code point under [u]. *)
Definition advance (unicode : bool) (rs : list A) : nat :=
  if unicode then
    match code_point rs with Some (_, k) => k | None => 1%nat end
  else 1%nat.

(** [subject.replace(/r/g, t)]. The loop walks the subject once; [skip]
    code units are still owed to the last match, or (when [keep]) to a
    code point that is copied whole. *)
Fixpoint replace_loop (unicode : bool) (r : regex) (t : list titem)
    (skip : nat) (keep : bool) (sn rs : list A) : list A :=
  match rs with
  | [] =>
      match skip with
      | O => match exec r sn [] with Some st => expand t st | None => [] end
      | S _ => []
      end
  | c :: rs' =>
      match skip with
      | S k => (if keep then [c] else []) ++ replace_loop unicode r t k keep (c :: sn) rs'
      | O =>
          match exec r sn rs with
          | Some st =>
              expand t st ++
              match matched rs st with
              | O => c :: replace_loop unicode r t (advance unicode rs - 1) true (c :: sn) rs'
              | S k => replace_loop unicode r t k false (c :: sn) rs'
              end
          | None => c :: replace_loop unicode r t (advance unicode rs - 1) true (c :: sn) rs'
          end
      end
  end.

Definition replace_all (r : regex) (t : list titem) (s : list A) : list A :=
  replace_loop false r t 0 false [] s.

Definition replace_all_u (r : regex) (t : list titem) (s : list A) : list A :=
  replace_loop true r t 0 false [] s.

(** [subject.replace(/r/, t)] without the [g] flag: the first match only. *)
Fixpoint replace_first_loop (r : regex) (t : list titem) (sn rs : list A) : list A :=
  match exec r sn rs with
  | Some st => expand t st ++ rest st
  | None =>
      match rs with
      | [] => []
      | c :: rs' => c :: replace_first_loop r t (c :: sn) rs'
      end
  end.

Definition replace_first (r : regex) (t : list titem) (s : list A) : list A :=
  replace_first_loop r t [] s.

(** [subject.split(/r/)] for a separator without groups. [cur] is the
    piece being read (last first); a match that ends where the piece
    starts is not a separator. *)
Fixpoint split_loop (r : regex) (skip : nat) (cur sn rs : list A) : list (list A) :=
  match rs with
  | [] => [rev cur]
  | c :: rs' =>
      match skip with
      | S k => split_loop r k [] (c :: sn) rs'
      | O =>
          match exec r sn rs with
          | Some st =>
              match matched rs st, cur with
              | O, [] => split_loop r 0 [c] (c :: sn) rs'
              | O, _ => rev cur :: split_loop r 0 [c] (c :: sn) rs'
              | S k, _ => rev cur :: split_loop r k [] (c :: sn) rs'
              end
          | None => split_loop r 0 (c :: cur) (c :: sn) rs'
          end
      end
  end.

Definition split (r : regex) (s : list A) : list (list A) :=
  match s with
  | [] => match exec r [] [] with Some _ => [] | None => [[]] end
  | _ => split_loop r 0 [] [] s
  end.
End Matcher.

Arguments mstate A : clear implicits.

(** A replacement text that cannot be longer than a match: nothing, one
    group of the match, or a literal that is not longer than the least
    the pattern reads. *)
Definition no_longer (r : regex) (t : list titem) : Prop :=
  t = [] ∨ (∃ n, t = [TCap n])
  ∨ ∃ x, t = [TLit x] ∧ (length x ≤ length (lead r).1)%nat.

(** A matcher state read through a map of the symbols. *)
Definition map_caps {A B : Type} (h : A → B) (cs : list (nat * list A))
  : list (nat * list B) :=
  List.map (λ e, (e.1, List.map h e.2)) cs.

Definition map_state {A B : Type} (h : A → B) (st : mstate A) : mstate B :=
  MState (List.map h (seen st)) (List.map h (rest st)) (map_caps h (caps st)).

End Regex.

(** ** The input form *)

(** [frontend/src/components/InputForm.tsx]. The parent's [onSubmit] acts on
    a state of the parent; an event handler gives the new text of the box,
    the new state of the parent, and whether it called
    [e.preventDefault()]. *)
Module InputForm.
Import JS.

Section Form.
Context {W : Type}.
Variable onSubmit : jsstring → W → W.
Variable isLoading : bool.

Record handled := Handled {
  inputValue : jsstring;
  parent : W;
  defaultPrevented : bool
}.

Definition handleSubmit (value : jsstring) (w : W) : handled :=
  match trim value with
  | _ :: _ =>
      if negb isLoading
      then Handled [] (onSubmit (trim value) w) true
      else Handled value w true
  | [] => Handled value w true
  end.

Definition handleKeyDown (key : jsstring) (shiftKey : bool)
    (value : jsstring) (w : W) : handled :=
  if bool_decide (key = str "Enter") && negb shiftKey
  then handleSubmit value w
  else Handled value w false.
End Form.

Arguments handled W : clear implicits.

End InputForm.

(** ** The welcome screen *)

(** [frontend/src/components/WelcomeScreen_Black_Theme.tsx] (and its
    second copy): the chat box of the welcome screen. [handleSubmit] is
    the property of the component; the results are the new text of the
    box and the new state of the parent. *)
Module WelcomeScreen.
Import JS.

Section Screen.
Context {W : Type}.
Variable handleSubmit : jsstring → W → W.

Definition handleChatSubmit (message : jsstring) (w : W) : jsstring * W :=
  match trim message with
  | [] => (message, w)
  | _ :: _ => ([], handleSubmit message w)
  end.

(** [onKeyPress] of the box. *)
Definition onKeyPress (key : jsstring) (shiftKey : bool) (message : jsstring) (w : W)
  : jsstring * W :=
  if bool_decide (key = str "Enter") && negb shiftKey
  then handleChatSubmit message w
  else (message, w).

(** The button has [disabled={isLoading || !message.trim()}], and a
    disabled button gets no click. *)
Definition disabled (isLoading : bool) (message : jsstring) : bool :=
  isLoading || match trim message with [] => true | _ :: _ => false end.

Definition onClick (isLoading : bool) (message : jsstring) (w : W) : jsstring * W :=
  if disabled isLoading message then (message, w) else handleChatSubmit message w.
End Screen.

(** What the user does at the box, with the [isLoading] of the moment;
    the parent is the list of the queries it got. *)
Inductive event :=
  | Typed (value : jsstring)
  | KeyPress (key : jsstring) (shiftKey : bool)
  | Click.

Definition step (s : jsstring * list jsstring) (e : bool * event)
  : jsstring * list jsstring :=
  let '(message, w) := s in
  let '(isLoading, ev) := e in
  match ev with
  | Typed value => (value, w)
  | KeyPress key shiftKey => onKeyPress (λ query w, w ++ [query]) key shiftKey message w
  | Click => onClick (λ query w, w ++ [query]) isLoading message w
  end.

Definition session (events : list (bool * event)) (s : jsstring * list jsstring)
  : jsstring * list jsstring :=
  foldl step s events.

End WelcomeScreen.

(** ** The PDF library *)

(** The calls the component makes on a jsPDF document, with the arguments
    it gives them (the font family is always helvetica, a rectangle and a
    circle are always filled, a text is left-aligned or centered). Numbers
    are rationals; a call is taken to return. *)
Module jsPDF.
Import JS.

Inductive font_style := normal | bold.

Inductive call :=
  | setFillColor (r g b : Z)
  | setTextColor (r g b : Z)
  | setDrawColor (r g b : Z)
  | setFont (style : font_style)
  | setFontSize (size : Z)
  | setLineWidth (width : Q)
  | rect (x y w h : Q)
  | circle (x y r : Q)
  | line (x1 y1 x2 y2 : Q)
  | text (s : jsstring) (x y : Q) (centered : bool)
  | addPage
  | setPage (i : nat)
  | save (name : jsstring).

(** The number of pages of a document that got these calls: the one it
    starts with and one for every [addPage]. *)
Definition pages (calls : list call) : nat :=
  S (length (List.filter (λ c, match c with addPage => true | _ => false end) calls)).


(** The texts a list of calls draws, in their order. *)
Definition texts (calls : list call) : list jsstring :=
  omap (λ c, match c with text s _ _ _ => Some s | _ => None end) calls.

End jsPDF.

(** ** The component *)

Module ChatMessagesView.
Import JS Regex.

(** Code units that a Rocq string literal cannot hold. *)
Definition LF : jsstring := [10].
Definition DQ : jsstring := [34].

Section Text.
Context {A : Type} `{Sym A}.

(** *** [handleCopyPlainText]: the value of [text] *)

(** [/```[\s\S]*?```/g] *)
Definition re_fence : regex := Lit "```" ⋅ Rep any 0 false ⋅ Lit "```".
(** [/`([^`]+)`/g] *)
Definition re_inline_code : regex :=
  Lit "`" ⋅ Grp 1 (Rep (noneof "`") 1 true) ⋅ Lit "`".
(** [/^[#>\-\*\+]+\s+/gm] *)
Definition re_marker : regex :=
  Bol ⋅ Rep (oneof "#>-*+") 1 true ⋅ Rep is_space 1 true.
(** [/\[([^\]]+)\]\(([^)]+)\)/g] *)
Definition re_link : regex :=
  Lit "[" ⋅ Grp 1 (Rep (noneof "]") 1 true) ⋅ Lit "](" ⋅
  Grp 2 (Rep (noneof ")") 1 true) ⋅ Lit ")".
(** [/!\[([^\]]* )\]\(([^)]+)\)/g] *)
Definition re_image : regex :=
  Lit "![" ⋅ Grp 1 (Rep (noneof "]") 0 true) ⋅ Lit "](" ⋅
  Grp 2 (Rep (noneof ")") 1 true) ⋅ Lit ")".
(** [/\n{3,}/g] *)
Definition re_blank_lines : regex := Rep (N.eqb 10) 3 true.
(** [/[\u{1F300}-\u{1FAFF}\u{2600}-\u{26FF}\u{2700}-\u{27BF}]/gu] *)
Definition re_emoji : regex :=
  ChrU (λ c, range 0x1F300 0x1FAFF c || range 0x2600 0x26FF c || range 0x2700 0x27BF c).

Definition handleCopyPlainText_text (content : list A) : list A :=
  let s := replace_all re_fence [] content in
  let s := replace_all re_inline_code [TCap 1] s in
  let s := replace_all re_marker [] s in
  let s := replace_all re_link [TCap 1] s in
  let s := replace_all re_image [TCap 1] s in
  let s := replace_all re_blank_lines [TLit (LF ++ LF)] s in
  let s := replace_all_u re_emoji [] s in
  trim s.

(** *** [handleDownloadPdf]: [cleanText] *)

(** [/\[([^\]]+)\]\(https?:\/\/[^\)]+\)/g] *)
Definition re_citation : regex :=
  Lit "[" ⋅ Grp 1 (Rep (noneof "]") 1 true) ⋅ Lit "](http" ⋅ Opt (oneof "s") ⋅
  Lit "://" ⋅ Rep (noneof ")") 1 true ⋅ Lit ")".
(** [/https?:\/\/\S+/g] *)
Definition re_url : regex :=
  Lit "http" ⋅ Opt (oneof "s") ⋅ Lit "://" ⋅ Rep (λ c, negb (is_space c)) 1 true.
(** [/\*\*(.*?)\*\*/g], [/__(.*?)__/g], [/\*(.*?)\*/g], [/_(.*?)_/g] *)
Definition re_emph (mark : string) : regex :=
  Lit mark ⋅ Grp 1 (Rep dot 0 false) ⋅ Lit mark.
(** [/\s+/g] *)
Definition re_spaces : regex := Rep is_space 1 true.

Definition cleanText (text : list A) : list A :=
  let cleaned := text in
  let cleaned := replace_all re_citation [] cleaned in
  let cleaned := replace_all re_url [] cleaned in
  let cleaned := replace_all (re_emph "**") [TCap 1] cleaned in
  let cleaned := replace_all (re_emph "__") [TCap 1] cleaned in
  let cleaned := replace_all (re_emph "*") [TCap 1] cleaned in
  let cleaned := replace_all (re_emph "_") [TCap 1] cleaned in
  let cleaned := replace_all re_inline_code [TCap 1] cleaned in
  let cleaned := replace_all (Lit "[]") [] cleaned in
  let cleaned := replace_all (Lit "()") [] cleaned in
  let cleaned := replace_all re_spaces [TLit (str " ")] cleaned in
  trim cleaned.

(** *** [handleDownloadHtml]: [markdownToHtml] *)

(** [/^### (.*$)/gim] and the like: a line that starts with [mark]. *)
Definition re_line (mark : string) : regex :=
  Bol ⋅ Lit mark ⋅ Grp 1 (Rep dot 0 true ⋅ Eol).
Definition wrap (tag : string) : list titem :=
  [TLit (str "<" ++ str tag ++ str ">"); TCap 1; TLit (str "</" ++ str tag ++ str ">")].
(** [/```([a-z]* )\n([\s\S]*?)```/gim] *)
Definition re_code_block : regex :=
  Lit "```" ⋅ Grp 1 (Rep letter 0 true) ⋅ Chr (N.eqb 10) ⋅
  Grp 2 (Rep any 0 false) ⋅ Lit "```".
(** [/(<li>.*<\/li>)/s] *)
Definition re_list_items : regex :=
  Grp 1 (Lit "<li>" ⋅ Rep any 0 true ⋅ Lit "</li>").
(** [/^---$/gim] *)
Definition re_rule : regex := Bol ⋅ Lit "---" ⋅ Eol.
(** [/\n\n/gim] *)
Definition re_par_break : regex := Chr (N.eqb 10) ⋅ Chr (N.eqb 10).
(** [/<p><\/p>/gim] *)
Definition re_empty_par : regex := LitI "<p></p>".

Definition link_template : list titem :=
  [TLit (str "<a href=" ++ DQ); TCap 2;
   TLit (DQ ++ str " target=" ++ DQ ++ str "_blank" ++ DQ ++ str " rel=" ++ DQ
         ++ str "noopener noreferrer" ++ DQ ++ str ">");
   TCap 1; TLit (str "</a>")].
Definition code_block_template : list titem :=
  [TLit (str "<pre><code class=" ++ DQ ++ str "language-"); TCap 1;
   TLit (DQ ++ str ">"); TCap 2; TLit (str "</code></pre>")].

(** The chain up to and including the paragraph wrapping. *)
Definition markdownToHtml_body (markdown : list A) : list A :=
  let html := markdown in
  let html := replace_all (re_line "### ") (wrap "h3") html in
  let html := replace_all (re_line "## ") (wrap "h2") html in
  let html := replace_all (re_line "# ") (wrap "h1") html in
  let html := replace_all (re_emph "**") (wrap "strong") html in
  let html := replace_all (re_emph "__") (wrap "strong") html in
  let html := replace_all (re_emph "*") (wrap "em") html in
  let html := replace_all (re_emph "_") (wrap "em") html in
  let html := replace_all re_link link_template html in
  let html := replace_all re_code_block code_block_template html in
  let html := replace_all re_inline_code (wrap "code") html in
  let html := replace_all (re_line "* ") (wrap "li") html in
  let html := replace_all (re_line "- ") (wrap "li") html in
  let html := replace_first re_list_items (wrap "ul") html in
  let html := replace_all (re_line "> ") (wrap "blockquote") html in
  let html := replace_all re_rule [TLit (str "<hr>")] html in
  let html := replace_all re_par_break [TLit (str "</p><p>")] html in
  List.map lit (str "<p>") ++ html ++ List.map lit (str "</p>").

(** [markdownToHtml] of [ChatMessagesView.tsx]. *)
Definition markdownToHtml (markdown : list A) : list A :=
  replace_all re_empty_par [] (markdownToHtml_body markdown).

(** The second copy of the component (the one with Tailwind classes)
    goes on to lift headings, lists and code blocks out of paragraphs:
    [/<p>(<h[1-6]>)/gim], [/(<\/h[1-6]>)<\/p>/gim], [/<p>(<ul>)/gim],
    [/(<\/ul>)<\/p>/gim], [/<p>(<pre>)/gim], [/(<\/pre>)<\/p>/gim]. *)
Definition re_open_h : regex :=
  LitI "<p>" ⋅ Grp 1 (LitI "<h" ⋅ Chr (range 49 54) ⋅ LitI ">").
Definition re_close_h : regex :=
  Grp 1 (LitI "</h" ⋅ Chr (range 49 54) ⋅ LitI ">") ⋅ LitI "</p>".
Definition re_open (tag : string) : regex :=
  LitI "<p>" ⋅ Grp 1 (LitI "<" ⋅ LitI tag ⋅ LitI ">").
Definition re_close (tag : string) : regex :=
  Grp 1 (LitI "</" ⋅ LitI tag ⋅ LitI ">") ⋅ LitI "</p>".

Definition markdownToHtml_lifted (markdown : list A) : list A :=
  let html := markdownToHtml markdown in
  let html := replace_all re_open_h [TCap 1] html in
  let html := replace_all re_close_h [TCap 1] html in
  let html := replace_all (re_open "ul") [TCap 1] html in
  let html := replace_all (re_close "ul") [TCap 1] html in
  let html := replace_all (re_open "pre") [TCap 1] html in
  replace_all (re_close "pre") [TCap 1] html.

(** *** Highlights and summary: the shared clean-up and sentence split *)

Definition cleaned_of (raw : list A) : list A :=
  let s := replace_all re_fence [TLit (str " ")] raw in
  let s := replace_all re_inline_code [TCap 1] s in
  let s := replace_all re_marker [] s in
  let s := replace_all re_link [TCap 1] s in
  let s := replace_all re_image [TCap 1] s in
  let s := replace_all re_spaces [TLit (str " ")] s in
  trim s.

(** [/(?<=[\.!\?])\s+/] *)
Definition re_sentence_end : regex := Behind (oneof ".!?") ⋅ Rep is_space 1 true.

Definition sentences_of (cleaned : list A) : list (list A) :=
  List.filter (λ s, negb (Nat.eqb (length s) 0))
    (List.map trim (split re_sentence_end cleaned)).
End Text.

(** A code unit of plain text on one line: no emphasis mark, bracket,
    backtick or tag opener, and no line break. *)
Definition plain_char (c : N) : bool :=
  negb (oneof "*_[`<" c) && negb (is_line_terminator c).

(** Text without markdown that may hold tags: no emphasis mark, bracket,
    backtick or line break anywhere, no heading, list or quote marker in
    front, and no [<l], [<p] or [<P] anywhere nor [</] in front, which
    the patterns for list items and for empty paragraphs look for. *)
Definition markup_char (c : N) : bool :=
  negb (oneof "*_[`" c) && negb (is_line_terminator c).

Fixpoint tags_pass (s : jsstring) : bool :=
  match s with
  | [] => true
  | c :: s' => negb ((c =? 60) && fits [oneof "lpP"] s') && tags_pass s'
  end.

Definition markup_free (s : jsstring) : bool :=
  forallb markup_char s && negb (fits [oneof "#->"] s)
  && tags_pass s && negb (fits [N.eqb 60; N.eqb 47] s).

(** The three levels of heading [markdownToHtml] knows, their marks and
    their tags. *)
Inductive heading := Heading1 | Heading2 | Heading3.

Definition heading_mark (h : heading) : string :=
  match h with
  | Heading1 => "# "
  | Heading2 => "## "
  | Heading3 => "### "
  end.

Definition heading_tag (h : heading) : string :=
  match h with
  | Heading1 => "h1"
  | Heading2 => "h2"
  | Heading3 => "h3"
  end.

(** Text the plain-text copy has nothing to take out of: no backtick and
    no opening bracket, no code unit of the emoji ranges or of a surrogate
    pair, no heading, quote or list mark at the start of a line, and no
    three line feeds in a row. *)
Definition copy_char (c : N) : bool :=
  negb (oneof "`[" c)
  && ((c <? 0x2600) || range 0x27C0 0xD7FF c || range 0xE000 0xFFFF c).

Fixpoint line_starts_free (at_start : bool) (s : jsstring) : bool :=
  match s with
  | [] => true
  | c :: s' =>
      negb (at_start && oneof "#>-*+" c) && line_starts_free (is_line_terminator c) s'
  end.

Fixpoint has_blank_lines (s : jsstring) : bool :=
  fits [N.eqb 10; N.eqb 10; N.eqb 10] s
  || match s with
     | [] => false
     | _ :: s' => has_blank_lines s'
     end.

Definition copy_free (s : jsstring) : bool :=
  forallb copy_char s && line_starts_free true s && negb (has_blank_lines s).

(** Markdown with fenced code: stretches of text, each followed by a block
    (three backticks, a body, three backticks), and the text after the last
    block. Neither the text before a block nor the body of a block has
    three backticks in a row or ends with a backtick, so that the six
    delimiters of every block are where [render] puts them. *)
Definition backtick : N → bool := N.eqb 96.
Definition fence : jsstring := str "```".

Fixpoint has_fence (s : jsstring) : bool :=
  fits [backtick; backtick; backtick] s
  || match s with
     | [] => false
     | _ :: s' => has_fence s'
     end.

Definition quiet (s : jsstring) : bool :=
  negb (has_fence s) && negb (fits [backtick] (rev s)).

Definition fenced := list (jsstring * jsstring).

Fixpoint render (d : fenced) (last : jsstring) : jsstring :=
  match d with
  | [] => last
  | (t, b) :: d' => t ++ fence ++ b ++ fence ++ render d' last
  end.

Definition well_fenced (d : fenced) : bool :=
  forallb (λ tb, quiet tb.1 && quiet tb.2) d.

(** Is index [i] of [render d last] inside a block (delimiters and body),
    and is it one of the six delimiter code units of a block? *)
Fixpoint in_block (d : fenced) (i : nat) : bool :=
  match d with
  | [] => false
  | (t, b) :: d' =>
      let n := (length t + 3 + length b + 3)%nat in
      if (i <? length t)%nat then false
      else if (i <? n)%nat then true
      else in_block d' (i - n)
  end.

Fixpoint in_delimiter (d : fenced) (i : nat) : bool :=
  match d with
  | [] => false
  | (t, b) :: d' =>
      let n := (length t + 3 + length b + 3)%nat in
      if (i <? length t)%nat then false
      else if (i <? length t + 3)%nat then true
      else if (i <? length t + 3 + length b)%nat then false
      else if (i <? n)%nat then true
      else in_delimiter d' (i - n)
  end.

(** Text as the clean-up leaves it: every white space is one blank between
    two other code units. *)
Fixpoint single_spaced (s : jsstring) : bool :=
  match s with
  | [] => true
  | c :: s' =>
      (if is_space c then (c =? 32) && negb (fits [is_space] s') else true)
      && single_spaced s'
  end.

Definition tidy (s : jsstring) : bool :=
  single_spaced s && negb (fits [is_space] s) && negb (fits [is_space] (rev s)).

(** Somewhere in the string, code units of the given classes follow one
    another. *)
Fixpoint occurs (ps : list (N → bool)) (s : jsstring) : bool :=
  fits ps s
  || match s with
     | [] => false
     | _ :: s' => occurs ps s'
     end.

(** Text [cleanText] has nothing to do on: tidy, with no bracket,
    emphasis mark or backtick, no [http] and no [()]. *)
Definition clean (s : jsstring) : bool :=
  forallb (λ c, negb (oneof "[*_`" c)) s
  && negb (occurs (N.eqb <$> str "http") s)
  && negb (occurs (N.eqb <$> str "()") s)
  && tidy s.

(** Text without markdown, as [markdownToHtml] reads markdown: no line
    starts with a heading, list or quote mark and its blank, and no line
    is a rule [---]; no line holds two asterisks or two underscores; the
    text holds no inline code (two backticks with something else between
    them), no link and no blank line (two line feeds in a row). *)
Definition rule_line (s : jsstring) : bool :=
  fits (N.eqb <$> str "---") s
  && match drop 3 s with
     | [] => true
     | c :: _ => is_line_terminator c
     end.

Definition line_marks : list string := ["### "; "## "; "# "; "* "; "- "; "> "]%string.

Definition marked (s : jsstring) : bool :=
  existsb (λ mark, fits (N.eqb <$> str mark) s) line_marks || rule_line s.

Fixpoint lines_unmarked (at_start : bool) (s : jsstring) : bool :=
  negb (at_start && marked s)
  && match s with
     | [] => true
     | c :: s' => lines_unmarked (is_line_terminator c) s'
     end.

Fixpoint later_on_line (p : N → bool) (s : jsstring) : bool :=
  match s with
  | [] => false
  | c :: s' => p c || (negb (is_line_terminator c) && later_on_line p s')
  end.

Fixpoint once_a_line (p : N → bool) (s : jsstring) : bool :=
  match s with
  | [] => true
  | c :: s' => negb (p c && later_on_line p s') && once_a_line p s'
  end.

(** A backtick, one code unit or more that are no backticks, and a
    backtick. *)
Fixpoint code_span (s : jsstring) : bool :=
  match s with
  | [] => false
  | c :: s' =>
      (backtick c && fits [λ x, negb (backtick x)] s' && existsb backtick s')
      || code_span s'
  end.

(** What comes after the longest run of a class. *)
Definition after (p : N → bool) (s : jsstring) : jsstring := (span p [] s).2.

(** A link: an opening bracket, a text without closing bracket, [](], a
    target without closing parenthesis, and a closing parenthesis;
    neither the text nor the target is empty. *)
Definition link_here (s : jsstring) : bool :=
  fits [N.eqb 91; noneof "]"] s
  && let r := after (noneof "]") (drop 1 s) in
     fits [N.eqb 93; N.eqb 40; noneof ")"] r
     && fits [N.eqb 41] (after (noneof ")") (drop 2 r)).

Fixpoint has_link (s : jsstring) : bool :=
  link_here s
  || match s with
     | [] => false
     | _ :: s' => has_link s'
     end.

Definition markdown_free (s : jsstring) : bool :=
  lines_unmarked true s
  && once_a_line (N.eqb 42) s && once_a_line (N.eqb 95) s
  && negb (code_span s)
  && negb (has_link s)
  && negb (occurs [N.eqb 10; N.eqb 10] s).

(** Tags in the text that the chain takes for its own. A list item:
    [<li>] with [</li>] somewhere after it, which the chain puts inside
    [<ul>]. *)
Fixpoint list_item (s : jsstring) : bool :=
  (fits (N.eqb <$> str "<li>") s && occurs (N.eqb <$> str "</li>") (drop 4 s))
  || match s with
     | [] => false
     | _ :: s' => list_item s'
     end.

(** The text inside one paragraph tag, and the code units of a literal as
    a pattern with the [i] flag reads them. *)
Definition paragraph (s : jsstring) : jsstring := str "<p>" ++ s ++ str "</p>".

Definition insensitive (a : string) : list (N → bool) :=
  (λ c x, (x =? c) || (range 97 122 c && (x + 32 =? c))) <$> str a.

(** An empty paragraph in the paragraph of [s]: [s] is empty, starts with
    [</p>], ends with [<p>] or holds [<p></p>]. *)
Definition empty_paragraph (s : jsstring) : bool :=
  occurs (insensitive "<p></p>") (paragraph s).

(** A heading, a list or a code block at either end of a paragraph, which
    the second copy of the component lifts out of it: [s] starts with
    [<h1>] to [<h6>], [<ul>] or [<pre>], ends with the closing tag of one,
    or holds one next to a paragraph tag. *)
Definition lifted_tags : list (list (N → bool)) :=
  [insensitive "<p><h" ++ [range 49 54] ++ insensitive ">";
   insensitive "</h" ++ [range 49 54] ++ insensitive "></p>";
   insensitive "<p><ul>"; insensitive "</ul></p>";
   insensitive "<p><pre>"; insensitive "</pre></p>"].

Definition lifted_tag (s : jsstring) : bool :=
  existsb (λ ps, occurs ps (paragraph s)) lifted_tags.

(** All strings of [n] code units of an alphabet. *)
Fixpoint words (alphabet : jsstring) (n : nat) : list jsstring :=
  match n with
  | O => [[]]
  | S k => flat_map (λ w, List.map (λ c, c :: w) alphabet) (words alphabet k)
  end.

(** The score of a sentence in the highlights: its length, at most 300. *)
Definition capped_length (s : jsstring) : Z := Z.min (Z.of_nat (length s)) 300.

(** The text outside the blocks. *)
Definition outside (d : fenced) (last : jsstring) : jsstring :=
  flat_map fst d ++ last.

(** *** Component state *)

Record state := State {
  highlightsByMessage : gmap jsstring (list jsstring);
  summaryByMessage : gmap jsstring jsstring;
  expandedInsights : gmap jsstring bool;
  expandedSummary : gmap jsstring bool;
  pinnedMessages : list jsstring;
  messageTagsMap : gmap jsstring jsstring
}.

Record scored_sentence := Scored { text : jsstring; score : Z }.

Definition handleGenerateHighlights (content messageId : jsstring) (st : state) : state :=
  let raw := content in
  let cleaned := cleaned_of raw in
  match cleaned with
  | [] => st
  | _ :: _ =>
      let sentences := sentences_of cleaned in
      let scored :=
        sort (λ a b, score b - score a)%Z
          (List.map (λ s, Scored s (Z.min (Z.of_nat (length s)) 300)) sentences) in
      let top := List.map text (take 5 scored) in
      State (<[messageId := top]> (highlightsByMessage st))
            (summaryByMessage st)
            (<[messageId := true]> (expandedInsights st))
            (expandedSummary st)
            (pinnedMessages st)
            (messageTagsMap st)
  end.

Definition handleGenerateSummary (content messageId : jsstring) (st : state) : state :=
  let raw := content in
  let cleaned := cleaned_of raw in
  match cleaned with
  | [] => st
  | _ :: _ =>
      let sentences := sentences_of cleaned in
      let summary := join (str " ") (take 3 sentences) in
      State (highlightsByMessage st)
            (<[messageId := summary]> (summaryByMessage st))
            (expandedInsights st)
            (<[messageId := true]> (expandedSummary st))
            (pinnedMessages st)
            (messageTagsMap st)
  end.

(** *** Attached files, download names, the last answer *)

Section Files.
Context {F : Type}.

(** [prev.filter((_, i) => i !== index)]; the index is an integer. *)
Definition handleRemoveFile (index : Z) (prev : list F) : list F :=
  filter_indexed (λ _ i, negb (Z.of_nat i =? index)%Z) prev.

Definition handleClearFiles (prev : list F) : list F := [].

(** [event.target.files] is [null] or a list of files. *)
Definition handleFileSelect (files : option (list F)) (prev : list F) : list F :=
  match files with
  | Some fs => fs
  | None => prev
  end.

(** The [onSubmit] the component gives its input form: the parent is
    called with the query and with the files, or with [undefined] (here
    [None]) when there are none, and the selection is emptied. The state
    is the selection and, standing for the parent, the calls it got. *)
Definition chat_state : Type := list F * list (jsstring * option (list F)).

Definition form_onSubmit (query : jsstring) (st : chat_state) : chat_state :=
  let selectedFiles := st.1 in
  ([], st.2 ++ [(query, match selectedFiles with [] => None | _ => Some selectedFiles end)]).

(** What the user does at the chat input: types (the [onChange] of the
    text box), presses a key in it, submits the form, picks files, removes
    one, clears them. *)
Inductive chat_event :=
  | Typed (value : jsstring)
  | KeyDown (key : jsstring) (shiftKey : bool)
  | Submitted
  | FilesSelected (files : option (list F))
  | FileRemoved (index : Z)
  | FilesCleared.

(** One event, with the [isLoading] the form has when it comes, on the
    text of the box and the state of the component. *)
Definition chat_step (s : jsstring * chat_state) (e : bool * chat_event)
  : jsstring * chat_state :=
  let '(box, st) := s in
  let '(isLoading, ev) := e in
  match ev with
  | Typed value => (value, st)
  | KeyDown key shiftKey =>
      let h := InputForm.handleKeyDown form_onSubmit isLoading key shiftKey box st in
      (InputForm.inputValue h, InputForm.parent h)
  | Submitted =>
      let h := InputForm.handleSubmit form_onSubmit isLoading box st in
      (InputForm.inputValue h, InputForm.parent h)
  | FilesSelected files => (box, (handleFileSelect files st.1, st.2))
  | FileRemoved index => (box, (handleRemoveFile index st.1, st.2))
  | FilesCleared => (box, (handleClearFiles st.1, st.2))
  end.

Definition chat_session (events : list (bool * chat_event))
    (s : jsstring * chat_state) : jsstring * chat_state :=
  foldl chat_step s events.

(** A call the parent may get: a query that is not empty and has no white
    space at either end, with files or with [undefined], never with an
    empty list of files. *)
Definition proper_call (call : jsstring * option (list F)) : Prop :=
  call.1 ≠ [] ∧ fits [is_space] call.1 = false
  ∧ fits [is_space] (rev call.1) = false ∧ call.2 ≠ Some [].
End Files.

Arguments chat_state F : clear implicits.
Arguments chat_event F : clear implicits.

(** [(messageId || "response").slice(0, 8)] and the name of the file. *)
Definition shortId (messageId : jsstring) : jsstring :=
  take 8 (match messageId with [] => str "response" | _ :: _ => messageId end).

Definition download_name (extension : string) (messageId : jsstring) : jsstring :=
  str "epc-response-" ++ shortId messageId ++ str "." ++ str extension.

Inductive message_type := human | ai.

Record message := Message {
  msg_id : jsstring;
  msg_type : message_type;
  msg_content : jsstring;
  msg_agent : option jsstring
}.

Definition is_ai (m : message) : bool :=
  match msg_type m with ai => true | human => false end.

(** [messages.slice().reverse().find(m => m.type === "ai")] *)
Definition lastAiMessage (messages : list message) : option message :=
  List.find is_ai (rev messages).

Definition lastAiMessageId (messages : list message) : option jsstring :=
  msg_id <$> lastAiMessage messages.

(** [message.type === "ai" && message.id === lastAiMessageId] *)
Definition isCurrentMessageTheLastAiMessage (messages : list message) (m : message)
  : bool :=
  is_ai m && bool_decide (lastAiMessageId messages = Some (msg_id m)).

(** *** [handleDownloadPdf]: the pages *)

(** [a > b] on numbers. *)
Definition Qgt_bool (a b : Q) : bool := negb (Qle_bool a b).

(** [s.startsWith(p)] and [s.split('\n')]. *)
Definition startsWith (p : string) (s : jsstring) : bool :=
  bool_decide (take (length (str p)) s = str p).

Fixpoint split_lines (s : jsstring) : list jsstring :=
  match s with
  | [] => [[]]
  | c :: s' =>
      if c =? 10 then [] :: split_lines s'
      else match split_lines s' with
           | l :: ls => (c :: l) :: ls
           | [] => [[c]]
           end
  end.

(** The number in a template string. *)
Definition decimal (n : nat) : jsstring :=
  str (NilEmpty.string_of_uint (Nat.to_uint n)).

(** [/[\u{1F300}-\u{1FAFF}]/gu] *)
Definition re_pictograph : regex := ChrU (range 0x1F300 0x1FAFF).

(** The patterns that sort the lines have no [m] flag: [^] is the start
    of the line only, so a search for a match is the attempt at index 0,
    and [$] is its end only, so a match is one that has read all of the
    line. [/^[\*\-\•] /], [/^\d+\. /] and [/^(\d+)\. (.* )$/] without
    its [$]. *)
Definition re_bullet : regex :=
  Bol ⋅ Chr (λ c, oneof "*-" c || (c =? 0x2022)) ⋅ Lit " ".
Definition re_numbered : regex :=
  Bol ⋅ Rep (range 48 57) 1 true ⋅ Lit ". ".
Definition re_numbered_item : regex :=
  Bol ⋅ Grp 1 (Rep (range 48 57) 1 true) ⋅ Lit ". " ⋅ Grp 2 (Rep dot 0 true).

Definition test_at_start (r : regex) (line : jsstring) : bool :=
  match exec r [] line with
  | Some _ => true
  | None => false
  end.

Definition match_to_end (r : regex) (line : jsstring) : option (mstate N) :=
  List.find (λ st, match rest st with [] => true | _ :: _ => false end)
    (matches r (MState [] line [])).

Section Pdf.
Import jsPDF.
Local Open Scope Q_scope.

(** The size of the page, [String.prototype.normalize] with ['NFC'],
    [doc.splitTextToSize] under the font style and size that are set when
    it is called, and the date the footer of a page shows. *)
Variables pageWidth pageHeight : Q.
Variable normalize : jsstring → jsstring.
Variable splitTextToSize : font_style → Z → jsstring → Q → list jsstring.
Variable toLocaleDateString : nat → jsstring.

Definition margin : Q := 50.
Definition lineHeight : Q := 16.
Definition maxWidth : Q := pageWidth - margin * 2.

Definition safeContent (content : jsstring) : jsstring :=
  trim (replace_all_u re_pictograph [] (normalize content)).

(** [lines.forEach(l => { if (cursorY > limit) { doc.addPage(); cursorY =
    margin; } doc.text(l, x, cursorY); cursorY += step; })]: the new
    [cursorY] and the calls. *)
Fixpoint forEach_line (limit x step : Q) (lines : list jsstring) (cursorY : Q)
  : Q * list call :=
  match lines with
  | [] => (cursorY, [])
  | l :: lines' =>
      let '(cursorY, break) :=
        if Qgt_bool cursorY limit then (margin, [addPage]) else (cursorY, []) in
      let '(cursorY', calls) := forEach_line limit x step lines' (cursorY + step) in
      (cursorY', break ++ text l x cursorY false :: calls)
  end.

(** The body of the loop over the lines of the content. *)
Definition draw_line (raw : jsstring) (cursorY : Q) : Q * list call :=
  let line := trim raw in
  match line with
  | [] => (cursorY + 12, [])
  | _ :: _ =>
      if startsWith "# " line then
        let cursorY := if Qgt_bool cursorY 130 then cursorY + 30 else cursorY in
        let line := cleanText (drop 2 line) in
        let headerLines := splitTextToSize bold 18 line maxWidth in
        let '(cursorY, calls) :=
          forEach_line (pageHeight - margin - 40) margin 22 headerLines cursorY in
        (cursorY + 25,
         [setFont bold; setFontSize 18; setTextColor 10 15 26] ++ calls
         ++ [setLineWidth 2; setDrawColor 0 212 255;
             jsPDF.line margin (cursorY + 2) (pageWidth - margin) (cursorY + 2)])
      else if startsWith "## " line then
        let cursorY := if Qgt_bool cursorY 130 then cursorY + 24 else cursorY in
        let line := cleanText (drop 3 line) in
        let headerLines := splitTextToSize bold 14 line maxWidth in
        let '(cursorY, calls) :=
          forEach_line (pageHeight - margin - 40) margin 18 headerLines cursorY in
        (cursorY + 20,
         [setFont bold; setFontSize 14; setTextColor 51 65 85] ++ calls
         ++ [setLineWidth 0.5; setDrawColor 148 163 184;
             jsPDF.line margin (cursorY + 2) (pageWidth - margin) (cursorY + 2)])
      else if startsWith "### " line then
        let cursorY := if Qgt_bool cursorY 130 then cursorY + 18 else cursorY in
        let line := cleanText (drop 4 line) in
        let headerLines := splitTextToSize bold 12 line maxWidth in
        let '(cursorY, calls) :=
          forEach_line (pageHeight - margin - 40) margin 16 headerLines cursorY in
        (cursorY + 16,
         [setFont bold; setFontSize 12; setTextColor 0 212 255] ++ calls)
      else if test_at_start re_bullet line then
        let line := cleanText (drop 2 line) in
        let listLines := splitTextToSize normal 10 line (maxWidth - 25) in
        let '(cursorY', calls) :=
          forEach_line (pageHeight - margin - 30) (margin + 20) lineHeight listLines
            cursorY in
        (cursorY' + 8,
         [setFont normal; setFontSize 10; setTextColor 55 65 81;
          setFillColor 0 212 255; circle (margin + 5) (cursorY - 3) 2.5] ++ calls)
      else if test_at_start re_numbered line then
        match match_to_end re_numbered_item line with
        | Some st =>
            let number := capture 1 (caps st) in
            let line := cleanText (capture 2 (caps st)) in
            let listLines := splitTextToSize normal 10 line (maxWidth - 28) in
            let '(cursorY', calls) :=
              forEach_line (pageHeight - margin - 30) (margin + 25) lineHeight listLines
                cursorY in
            (cursorY' + 8,
             [setFont normal; setFontSize 10; setTextColor 55 65 81;
              setTextColor 0 212 255; setFont bold;
              text (number ++ str ".") (margin + 2) cursorY false;
              setTextColor 55 65 81; setFont normal] ++ calls)
        | None => (cursorY, [setFont normal; setFontSize 10; setTextColor 55 65 81])
        end
      else
        let line := cleanText line in
        if (length line <? 3)%nat
        then (cursorY, [setFont normal; setFontSize 10; setTextColor 55 65 81])
        else
          let textLines := splitTextToSize normal 10 line maxWidth in
          let '(cursorY, calls) :=
            forEach_line (pageHeight - margin - 30) margin lineHeight textLines cursorY in
          (cursorY + 10,
           [setFont normal; setFontSize 10; setTextColor 55 65 81] ++ calls)
  end.

Fixpoint draw_lines (lines : list jsstring) (cursorY : Q) : Q * list call :=
  match lines with
  | [] => (cursorY, [])
  | l :: lines' =>
      let '(cursorY, calls) := draw_line l cursorY in
      let '(cursorY', calls') := draw_lines lines' cursorY in
      (cursorY', calls ++ calls')
  end.

Definition header : list call :=
  [setFillColor 0 212 255; rect 0 0 pageWidth 80;
   setTextColor 10 15 26; setFont bold; setFontSize 24;
   text (str "ACE Intelligence") (pageWidth / 2) 35 true;
   setFontSize 12; setFont normal;
   text (str "Agentic Cognitive Enterprice - AI Agent Response") (pageWidth / 2) 55 true].

Definition footerText (i totalPages : nat) : jsstring :=
  str "Generated by ACE Intelligence on " ++ toLocaleDateString i
  ++ str " " ++ [0x2022%N] ++ str " Page " ++ decimal i ++ str " of " ++ decimal totalPages.

Definition footer (totalPages : nat) : list call :=
  flat_map (λ i, [setPage i; setFontSize 9; setTextColor 100 116 139; setFont normal;
                  text (footerText i totalPages) (pageWidth / 2) (pageHeight - 20) true])
    (seq 1 totalPages).

(** A text that is not centered is the number of a list item (at
    [margin + 2]) or lies between the top margin and the line 30 points
    above the bottom margin. *)
Definition within_page (c : call) : Prop :=
  match c with
  | text _ x y false => x == margin + 2 ∨ (margin <= y ∧ y <= pageHeight - margin - 30)
  | _ => True
  end.

(** The calls of [handleDownloadPdf] on the document, in their order. *)
Definition handleDownloadPdf (content messageId : jsstring) : list call :=
  let lines := split_lines (safeContent content) in
  let calls := header ++ (draw_lines lines 110).2 in
  let totalPages := pages calls in
  calls ++ footer totalPages ++ [save (download_name "pdf" messageId)].
End Pdf.

(** The two indicators under the messages: [isLoading && !lastAiMessage
    && messages.some(m => m.type === 'human')] and [isLoading &&
    messages.length > 0 && messages[messages.length - 1].type ===
    'human']. *)
Definition thinking_first (isLoading : bool) (messages : list message) : bool :=
  isLoading
  && match lastAiMessage messages with Some _ => false | None => true end
  && existsb (λ m, negb (is_ai m)) messages.

Definition thinking_second (isLoading : bool) (messages : list message) : bool :=
  isLoading
  && (0 <? length messages)%nat
  && match messages !! (length messages - 1)%nat with
     | Some m => negb (is_ai m)
     | None => false
     end.





(** The cards of the summary panel, as the callback of
    [pinnedMessages.map] returns them: for every pinned id the first
    message with that id, when there is one and it is an AI message, with
    the badge of its tag and [msg.content.substring(0, 150) +
    (msg.content.length > 150 ? '...' : '')]. Every card has its id as
    [key], so the list is what the panel shows as long as no id is pinned
    twice. The button that opens the panel shows [pinnedMessages.length]. *)
Definition snippet (content : jsstring) : jsstring :=
  take 150 content ++ (if (150 <? length content)%nat then str "..." else []).





(** *** Pins and tags, mirrored in local storage *)

Inductive tag := decision | action | idea.

Definition tag_name (t : tag) : jsstring :=
  match t with
  | decision => str "decision"
  | action => str "action"
  | idea => str "idea"
  end.

(** The services of the browser the component calls: JSON values with the
    two shapes it writes, [JSON.parse] (throws on malformed text),
    [JSON.stringify], and a storage whose reads and writes may throw. *)
Record browser := Browser {
  value : Type;
  of_ids : list jsstring → value;
  of_tags : gmap jsstring jsstring → value;
  JSON_parse : jsstring → outcome value;
  JSON_stringify : value → jsstring;
  storage : Type;
  getItem : storage → jsstring → outcome (option jsstring);
  setItem : storage → jsstring → jsstring → outcome storage
}.

Definition set_pinned (st : state) (l : list jsstring) : state :=
  State (highlightsByMessage st) (summaryByMessage st) (expandedInsights st)
        (expandedSummary st) l (messageTagsMap st).

Definition set_tags (st : state) (m : gmap jsstring jsstring) : state :=
  State (highlightsByMessage st) (summaryByMessage st) (expandedInsights st)
        (expandedSummary st) (pinnedMessages st) m.

(** The tags a message carries: the values of the entries of the map
    (the pairs [JSON.stringify] writes) under its id. *)
Definition tags_of (messageId : jsstring) (st : state) : list jsstring :=
  (filter (λ e, e.1 = messageId) (map_to_list (messageTagsMap st))).*2.

Section Persisted.
Variable B : browser.

(** [try { localStorage.setItem(key, JSON.stringify(v)) } catch { log }] *)
Definition persist (key : jsstring) (v : value B) (ls : storage B) : storage B :=
  match setItem B ls key (JSON_stringify B v) with
  | Return ls' => ls'
  | Throw => ls
  end.

(** [saved ? JSON.parse(saved) : fallback] inside [try], [fallback] in
    [catch]: [null] and the empty string are falsy. *)
Definition rehydrate (key : jsstring) (fallback : value B) (ls : storage B)
  : outcome (value B) :=
  try_catch
    (obind (getItem B ls key) (λ saved,
       match saved with
       | Some ((_ :: _) as text) => JSON_parse B text
       | Some [] | None => Return fallback
       end))
    (Return fallback).

Definition init_pinnedMessages : storage B → outcome (value B) :=
  rehydrate (str "epc-pinned-messages") (of_ids B []).

Definition init_messageTagsMap : storage B → outcome (value B) :=
  rehydrate (str "epc-message-tags") (of_tags B ∅).

Definition handleTogglePin (messageId : jsstring) (w : state * storage B)
  : state * storage B :=
  let prev := pinnedMessages w.1 in
  let updated :=
    if bool_decide (messageId ∈ prev)
    then filter (λ id, id ≠ messageId) prev
    else prev ++ [messageId] in
  (set_pinned w.1 updated, persist (str "epc-pinned-messages") (of_ids B updated) w.2).

Definition handleSetTag (messageId : jsstring) (t : tag) (w : state * storage B)
  : state * storage B :=
  let prev := messageTagsMap w.1 in
  let updated := <[messageId := tag_name t]> prev in
  (set_tags w.1 updated, persist (str "epc-message-tags") (of_tags B updated) w.2).

Definition handleRemoveTag (messageId : jsstring) (w : state * storage B)
  : state * storage B :=
  let prev := messageTagsMap w.1 in
  let updated := delete messageId prev in
  (set_tags w.1 updated, persist (str "epc-message-tags") (of_tags B updated) w.2).

(** A user session on the tag menu. *)
Inductive tag_action :=
  | SetTag (messageId : jsstring) (t : tag)
  | RemoveTag (messageId : jsstring).

Definition tag_step (w : state * storage B) (a : tag_action) : state * storage B :=
  match a with
  | SetTag messageId t => handleSetTag messageId t w
  | RemoveTag messageId => handleRemoveTag messageId w
  end.

Definition tag_session (l : list tag_action) (w : state * storage B)
  : state * storage B :=
  foldl tag_step w l.
End Persisted.

Arguments handleTogglePin {B} messageId w.
Arguments handleSetTag {B} messageId t w.
Arguments handleRemoveTag {B} messageId w.
Arguments tag_session {B} l w.
Arguments init_pinnedMessages {B} ls : rename.
Arguments init_messageTagsMap {B} ls : rename.

(** A browser for running the handlers: storage is a map that never
    throws, and a JSON value is kept as its text. *)
Definition quoted (s : jsstring) : jsstring := DQ ++ s ++ DQ.

Definition memory_browser : browser := {|
  value := jsstring;
  of_ids := λ l, str "[" ++ join (str ",") (quoted <$> l) ++ str "]";
  of_tags := λ m,
    str "{" ++ join (str ",") ((λ e, quoted e.1 ++ str ":" ++ quoted e.2) <$> map_to_list m)
    ++ str "}";
  JSON_parse := Return;
  JSON_stringify := λ v, v;
  storage := gmap jsstring jsstring;
  getItem := λ ls key, Return (ls !! key);
  setItem := λ ls key v, Return (<[key := v]> ls)
|}.

(** The same browser with a parser that throws on everything but the
    texts of the empty list and of the empty map. *)
Definition strict_browser : browser := {|
  value := jsstring;
  of_ids := of_ids memory_browser;
  of_tags := of_tags memory_browser;
  JSON_parse := λ text,
    if bool_decide (text = str "[]" ∨ text = str "{}") then Return text else Throw;
  JSON_stringify := λ v, v;
  storage := gmap jsstring jsstring;
  getItem := λ ls key, Return (ls !! key);
  setItem := λ ls key v, Return (<[key := v]> ls)
|}.

Definition empty_state : state := State ∅ ∅ ∅ ∅ [] ∅.

(** The pinned list and the tag map of a component with its storage. *)
Definition pins {B : browser} (w : state * storage B) : list jsstring :=
  pinnedMessages w.1.
Definition tag_map {B : browser} (w : state * storage B) : gmap jsstring jsstring :=
  messageTagsMap w.1.

End ChatMessagesView.

(** * Properties *)

(** ** The matcher and the loops *)

Module RegexFacts.
Import JS Regex.

Section Facts.
Context {A : Type} `{Sym A}.
Implicit Types (r : regex) (st : mstate A) (sn rs : list A) (t : list titem).

Lemma fits_app ps qs rs :
  fits (ps ++ qs) rs = fits ps rs && fits qs (drop (length ps) rs).
Proof.
  revert rs. induction ps as [|p ps IH]; intros rs; simpl.
  - by rewrite drop_0.
  - destruct rs as [|c rs]; [done|]. simpl.
    rewrite IH. by rewrite andb_assoc.
Qed.

Lemma rep_min_Some p lo sn rs sn' rs' :
  rep_min p lo sn rs = Some (sn', rs') →
  fits (replicate lo p) rs = true
  ∧ ∃ l, length l = lo ∧ rs = l ++ rs' ∧ sn' = rev l ++ sn
         ∧ Forall (λ c, p (code c) = true) l.
Proof.
  revert sn rs. induction lo as [|lo IH]; intros sn rs; simpl.
  - intros [= <- <-]. split; [done|]. by exists [].
  - destruct rs as [|c rs]; [done|].
    destruct (p (code c)) eqn:Hp; [|done].
    intros [Hfit (l & Hlen & -> & -> & Hall)]%IH.
    split; [done|]. exists (c :: l). simpl.
    rewrite <- app_assoc. split_and!; auto.
Qed.

Lemma rep_more_In p g sn rs sn' rs' :
  In (sn', rs') (rep_more p g sn rs) →
  ∃ l, rs = l ++ rs' ∧ sn' = rev l ++ sn ∧ Forall (λ c, p (code c) = true) l.
Proof.
  revert sn. induction rs as [|c rs IH]; intros sn; simpl.
  - intros [[= <- <-]|[]]. by exists [].
  - assert (Hstop : (sn, c :: rs) = (sn', rs') →
      ∃ l, c :: rs = l ++ rs' ∧ sn' = rev l ++ sn
           ∧ Forall (λ c, p (code c) = true) l).
    { intros [= <- <-]. by exists []. }
    assert (Hgo : In (sn', rs') (rep_more p g (c :: sn) rs) →
      p (code c) = true →
      ∃ l, c :: rs = l ++ rs' ∧ sn' = rev l ++ sn
           ∧ Forall (λ c, p (code c) = true) l).
    { intros (l & -> & -> & Hall)%IH Hp. exists (c :: l). simpl.
      rewrite <- app_assoc. auto. }
    destruct (p (code c)) eqn:Hp.
    + destruct g; simpl.
      * intros [Hin|[Heq|[]]]%in_app_or; auto.
      * intros [Heq|Hin]; auto.
    + intros [Heq|[]]; auto.
Qed.

(** A match reads a prefix of what is left, and that prefix starts
    with the leading classes of the pattern. *)
Lemma matches_lead r st st' :
  In st' (matches r st) →
  (∃ l, rest st = l ++ rest st' ∧ seen st' = rev l ++ seen st)
  ∧ fits (lead r).1 (rest st) = true
  ∧ ((lead r).2 = true → rest st' = drop (length (lead r).1) (rest st)).
Proof.
  revert st st'. induction r as [|p|p|p lo g|p| | |p|n r IH|r1 IH1 r2 IH2];
    intros st st'; simpl.
  - intros [<-|[]]. split_and!; [by exists []|done|done].
  - destruct (rest st) as [|c tl] eqn:Hrs; [done|].
    destruct (p (code c)) eqn:Hp; [|done].
    intros [<-|[]]. simpl.
    split_and!; [by exists [c]|done|done].
  - destruct (code_point (rest st)) as [[cp k]|]; [|done].
    destruct (p cp); [|done]. intros [<-|[]]. simpl.
    split_and!; [|done..].
    exists (take k (rest st)). by rewrite take_drop.
  - destruct (rep_min p lo (seen st) (rest st)) as [[sn rs]|] eqn:Hmin; [|done].
    apply rep_min_Some in Hmin as [Hfit (l & Hlen & Hrs & -> & _)].
    intros [[sn' rs'] [<- Hin]]%in_map_iff. simpl.
    apply rep_more_In in Hin as (l' & -> & -> & _).
    split_and!; [|done..].
    exists (l ++ l'). rewrite Hrs, rev_app_distr, <- !app_assoc. done.
  - destruct (rest st) as [|c tl] eqn:Hrs.
    { intros [<-|[]]. split_and!; [by exists []|done..]. }
    destruct (p (code c)).
    + intros [<-|[<-|[]]]; simpl.
      * split_and!; [by exists [c]|done..].
      * split_and!; [by exists []|done..].
    + intros [<-|[]]. split_and!; [by exists []|done..].
  - assert (Hst : In st' [st] →
      (∃ l, rest st = l ++ rest st' ∧ seen st' = rev l ++ seen st)
      ∧ true = true ∧ (true = true → rest st' = drop 0 (rest st))).
    { intros [<-|[]]. split_and!; [by exists []|done..]. }
    destruct (seen st) as [|c ?]; [done|].
    destruct (is_line_terminator (code c)); [done|]. intros [].
  - assert (Hst : In st' [st] →
      (∃ l, rest st = l ++ rest st' ∧ seen st' = rev l ++ seen st)
      ∧ true = true ∧ (true = true → rest st' = drop 0 (rest st))).
    { intros [<-|[]]. split_and!; [by exists []|done..]. }
    destruct (rest st) as [|c ?]; [done|].
    destruct (is_line_terminator (code c)); [done|]. intros [].
  - assert (Hst : In st' [st] →
      (∃ l, rest st = l ++ rest st' ∧ seen st' = rev l ++ seen st)
      ∧ true = true ∧ (true = true → rest st' = drop 0 (rest st))).
    { intros [<-|[]]. split_and!; [by exists []|done..]. }
    destruct (seen st) as [|c ?]; [intros []|].
    destruct (p (code c)); [done|]. intros [].
  - intros [st1 [<- Hin]]%in_map_iff. simpl. by apply IH.
  - intros [st1 [Hin1 Hin2]]%in_flat_map.
    apply IH1 in Hin1 as ((l1 & Hl1 & Hs1) & Hfit1 & Hfull1).
    apply IH2 in Hin2 as ((l2 & Hl2 & Hs2) & Hfit2 & Hfull2).
    split.
    { exists (l1 ++ l2). rewrite Hl1, Hl2, Hs2, Hs1, rev_app_distr, <- !app_assoc. done. }
    destruct (lead r1) as [ps [|]]; simpl in *; [|by split].
    destruct (lead r2) as [qs full2]; simpl in *.
    rewrite fits_app, Hfit1, <- Hfull1 by done. split; [done|].
    intros Hf. rewrite Hfull2 by done. rewrite Hfull1 by done.
    rewrite drop_drop, length_app. f_equal.
Qed.

Lemma matches_no_fit r st :
  fits (lead r).1 (rest st) = false → matches r st = [].
Proof.
  intros Hfit. destruct (matches r st) as [|st' l] eqn:Hm; [done|].
  assert (Hin : In st' (matches r st)) by (rewrite Hm; by left).
  apply matches_lead in Hin as (_ & Hfit' & _). congruence.
Qed.

Lemma exec_no_fit r sn rs :
  fits (lead r).1 rs = false → exec r sn rs = None.
Proof. intros Hfit. unfold exec. by rewrite matches_no_fit. Qed.

Lemma exec_rest r sn rs st :
  exec r sn rs = Some st →
  ∃ l, rs = l ++ rest st ∧ seen st = rev l ++ sn ∧ matched rs st = length l.
Proof.
  unfold exec. intros Hhd.
  assert (Hin : In st (matches r (MState sn rs []))).
  { destruct (matches r (MState sn rs [])) as [|x l]; [done|].
    injection Hhd as ->. by left. }
  apply matches_lead in Hin as ((l & Hl & Hs) & _). simpl in *.
  exists l. split_and!; [done..|].
  unfold matched. rewrite Hl at 1. rewrite length_app. lia.
Qed.

(** *** Literals, lazy and greedy runs *)

Lemma matches_lits (a : jsstring) st :
  matches (foldr (λ c r, Chr (N.eqb c) ⋅ r) Emp a) st
  = if fits (N.eqb <$> a) (rest st)
    then [MState (rev (take (length a) (rest st)) ++ seen st)
            (drop (length a) (rest st)) (caps st)]
    else [].
Proof.
  revert st. induction a as [|x a IH]; intros [sn rs cs]; simpl.
  - by rewrite drop_0.
  - destruct rs as [|c rs]; simpl; [done|].
    destruct (x =? code c); simpl; [|done].
    rewrite IH, app_nil_r. simpl.
    rewrite <- app_assoc. reflexivity.
Qed.

Lemma matches_Lit a st :
  matches (Lit a) st
  = if fits (N.eqb <$> str a) (rest st)
    then [MState (rev (take (length (str a)) (rest st)) ++ seen st)
            (drop (length (str a)) (rest st)) (caps st)]
    else [].
Proof. apply matches_lits. Qed.

Lemma rep_more_nonempty p g sn rs : rep_more p g sn rs ≠ [].
Proof.
  revert sn. induction rs as [|c rs IH]; intros sn; simpl; [done|].
  destruct (p (code c)); [|done]. destruct g; [|done].
  intros Heq. apply app_eq_nil in Heq as [_ ?]. done.
Qed.

(** A greedy run stops first after the longest run. *)
Lemma rep_more_greedy p sn rs :
  head (rep_more p true sn rs) = Some (span p sn rs).
Proof.
  revert sn. induction rs as [|c rs IH]; intros sn; simpl; [done|].
  destruct (p (code c)); [|done].
  specialize (IH (c :: sn)).
  destruct (rep_more p true (c :: sn) rs); [done|]. done.
Qed.

(** A lazy run of anything, then a literal: the first place where the
    literal is. *)
Lemma lazy_then_lits (a : jsstring) sn rs cs :
  head (flat_map (matches (foldr (λ c r, Chr (N.eqb c) ⋅ r) Emp a))
          (List.map (λ '(sn', rs'), MState sn' rs' cs) (rep_more any false sn rs)))
  = (λ '(sn', rs'), MState sn' rs' cs) <$> find_fit (N.eqb <$> a) sn rs.
Proof.
  revert sn. induction rs as [|c rs IH]; intros sn.
  - simpl. rewrite matches_lits, app_nil_r. simpl.
    destruct (fits (N.eqb <$> a) []); [|done]. simpl.
    by rewrite length_fmap.
  - simpl. rewrite matches_lits. simpl.
    destruct (fits (N.eqb <$> a) (c :: rs)); simpl.
    + by rewrite length_fmap.
    + apply IH.
Qed.

(** The subject is searched from a position on: nothing is found inside
    a stretch where the classes never fit. *)
Lemma find_fit_skip ps (x : list A) sn rs :
  (∀ l1 l2, x = l1 ++ l2 → l2 ≠ [] → fits ps (l2 ++ rs) = false) →
  find_fit ps sn (x ++ rs) = find_fit ps (rev x ++ sn) rs.
Proof.
  revert sn. induction x as [|c x IH]; intros sn Hx; [done|].
  pose proof (Hx [] (c :: x) eq_refl) as Hc. cbn [app] in Hc.
  cbn [app find_fit]. rewrite Hc by done.
  rewrite IH; [cbn [rev]; by rewrite <- app_assoc|].
  intros l1 l2 -> Hne. by apply (Hx (c :: l1) l2).
Qed.

Lemma find_fit_here ps sn rs :
  fits ps rs = true →
  find_fit ps sn rs = Some (rev (take (length ps) rs) ++ sn, drop (length ps) rs).
Proof. intros Hfit. destruct rs; simpl; by rewrite Hfit. Qed.

(** *** The replacement loop *)

Lemma replace_loop_keep u r t k k' sn rs :
  replace_loop u r t 0 k sn rs = replace_loop u r t 0 k' sn rs.
Proof. by destruct rs. Qed.

(** Code units owed to a match are passed over in silence. *)
Lemma replace_loop_skip u r t l sn rs :
  replace_loop u r t (length l) false sn (l ++ rs)
  = replace_loop u r t 0 false (rev l ++ sn) rs.
Proof.
  revert sn. induction l as [|c l IH]; intros sn; simpl.
  - by destruct rs.
  - rewrite IH, <- app_assoc. done.
Qed.

Lemma replace_loop_miss r t k sn c rs :
  exec r sn (c :: rs) = None →
  replace_loop false r t 0 k sn (c :: rs)
  = c :: replace_loop false r t 0 false (c :: sn) rs.
Proof.
  intros Hex. simpl. rewrite Hex. simpl.
  f_equal. apply replace_loop_keep.
Qed.

Lemma replace_loop_hit r t k sn rs st :
  exec r sn rs = Some st → matched rs st ≠ 0%nat →
  replace_loop false r t 0 k sn rs
  = expand t st ++ replace_loop false r t 0 false (seen st) (rest st).
Proof.
  intros Hex Hlen.
  destruct (exec_rest _ _ _ _ Hex) as (l & Hrs & Hsn & Hm).
  destruct l as [|c l]; [by rewrite Hm in Hlen|].
  subst rs. simpl in *. rewrite Hex, Hm. f_equal.
  rewrite replace_loop_skip, Hsn, <- app_assoc. done.
Qed.

(** Nothing matches anywhere: the subject comes back unchanged. *)
Lemma replace_loop_id r t k sn rs :
  (∀ l1 l2, rs = l1 ++ l2 → exec r (rev l1 ++ sn) l2 = None) →
  replace_loop false r t 0 k sn rs = rs.
Proof.
  revert k sn. induction rs as [|c rs IH]; intros k sn Hnone.
  - pose proof (Hnone [] [] eq_refl) as Hex. simpl in *. by rewrite Hex.
  - rewrite replace_loop_miss by apply (Hnone [] (c :: rs) eq_refl).
    f_equal. apply IH. intros l1 l2 ->.
    specialize (Hnone (c :: l1) l2 eq_refl). simpl in Hnone.
    by rewrite <- app_assoc in Hnone.
Qed.

Lemma replace_first_loop_id r t sn rs :
  (∀ l1 l2, rs = l1 ++ l2 → exec r (rev l1 ++ sn) l2 = None) →
  replace_first_loop r t sn rs = rs.
Proof.
  revert sn. induction rs as [|c rs IH]; intros sn Hnone.
  - pose proof (Hnone [] [] eq_refl) as Hex. simpl in *. by rewrite Hex.
  - pose proof (Hnone [] (c :: rs) eq_refl) as Hex. simpl in *. rewrite Hex.
    f_equal. apply IH. intros l1 l2 ->.
    specialize (Hnone (c :: l1) l2 eq_refl). simpl in Hnone.
    by rewrite <- app_assoc in Hnone.
Qed.

(** A stretch where nothing matches is copied, and the loop goes on
    after it. *)
Lemma replace_loop_pass r t (x : list A) sn rs :
  (∀ l1 l2, x = l1 ++ l2 → l2 ≠ [] → exec r (rev l1 ++ sn) (l2 ++ rs) = None) →
  replace_loop false r t 0 false sn (x ++ rs)
  = x ++ replace_loop false r t 0 false (rev x ++ sn) rs.
Proof.
  revert sn. induction x as [|c x IH]; intros sn Hx; [done|].
  cbn [app]. rewrite replace_loop_miss by by apply (Hx [] (c :: x)).
  f_equal. rewrite IH; [cbn [rev]; by rewrite <- app_assoc|].
  intros l1 l2 -> Hne. specialize (Hx (c :: l1) l2 eq_refl Hne).
  simpl in Hx. by rewrite <- app_assoc in Hx.
Qed.

(** No stretch of the subject starts the way the pattern must. *)
Lemma replace_all_no_fit r t s :
  (∀ l1 l2, s = l1 ++ l2 → fits (lead r).1 l2 = false) →
  replace_all r t s = s.
Proof.
  intros Hfit. apply replace_loop_id. intros l1 l2 Hs.
  apply exec_no_fit. eauto.
Qed.

Lemma replace_first_no_fit r t s :
  (∀ l1 l2, s = l1 ++ l2 → fits (lead r).1 l2 = false) →
  replace_first r t s = s.
Proof.
  intros Hfit. apply replace_first_loop_id. intros l1 l2 Hs.
  apply exec_no_fit. eauto.
Qed.

(** A pattern whose first code unit is of a class the subject lacks. *)
Lemma no_fit_class p ps (s : list A) :
  Forall (λ c, p (code c) = false) s →
  ∀ l1 l2, s = l1 ++ l2 → fits (p :: ps) l2 = false.
Proof.
  intros Hall l1 l2 ->. apply Forall_app in Hall as [_ Hall].
  destruct Hall as [|c l2 Hc _]; simpl; [done|]. by rewrite Hc.
Qed.

(** It is enough that one of the leading classes fails. *)
Lemma fits_nth_false ps rs i p c :
  ps !! i = Some p → rs !! i = Some c → p (code c) = false →
  fits ps rs = false.
Proof.
  revert ps rs. induction i as [|i IH]; intros [|q ps] [|x rs]; simpl; try done.
  - intros [= ->] [= ->] ->. done.
  - intros Hp Hc Hf. rewrite (IH _ _ Hp Hc Hf). apply andb_false_r.
Qed.

Lemma fits_short ps rs : (length rs < length ps)%nat → fits ps rs = false.
Proof.
  revert rs. induction ps as [|p ps IH]; intros [|c rs] Hlen; simpl in *;
    try lia; try done.
  rewrite IH by lia. apply andb_false_r.
Qed.

(** The tails of a concatenation. *)
Lemma tails_cons (Q : list A → Prop) c (l : list A) :
  Q (c :: l) → (∀ l1 l2, l = l1 ++ l2 → Q l2) →
  ∀ l1 l2, c :: l = l1 ++ l2 → Q l2.
Proof.
  intros Hc Hl [|x l1] l2; simpl.
  - by intros <-.
  - intros [= <- ->]. by eapply Hl.
Qed.

Lemma tails_nil (Q : list A → Prop) :
  Q [] → ∀ l1 l2, [] = l1 ++ l2 → Q l2.
Proof. intros HQ [|x l1] l2; simpl; [by intros <-|done]. Qed.

Lemma tails_app (Q : list A → Prop) (x y : list A) :
  (∀ c l, c ∈ x → Q (c :: l)) → (∀ l1 l2, y = l1 ++ l2 → Q l2) →
  ∀ l1 l2, x ++ y = l1 ++ l2 → Q l2.
Proof.
  intros Hx Hy. induction x as [|c x IH]; simpl; [done|].
  apply tails_cons.
  - apply Hx. left.
  - apply IH. intros c' l Hin. apply Hx. by right.
Qed.

(** An anchored pattern on a subject of one line that does not start the
    way the pattern must. *)
Lemma exec_bol_inside r c sn rs :
  is_line_terminator (code c) = false → exec (Bol ⋅ r) (c :: sn) rs = None.
Proof. intros Hc. unfold exec. simpl. by rewrite Hc. Qed.

Lemma replace_all_bol r t s :
  fits (lead r).1 s = false →
  Forall (λ c, is_line_terminator (code c) = false) s →
  replace_all (Bol ⋅ r) t s = s.
Proof.
  intros Hfit Hline. unfold replace_all.
  assert (Hlead : (lead (Bol ⋅ r)).1 = (lead r).1).
  { simpl. by destruct (lead r). }
  destruct s as [|c s].
  - simpl. rewrite exec_no_fit; [done|]. by rewrite Hlead.
  - rewrite replace_loop_miss by (apply exec_no_fit; by rewrite Hlead).
    f_equal. apply replace_loop_id. intros l1 l2 ->.
    apply Forall_cons in Hline as [Hc Hline].
    apply Forall_app in Hline as [Hl1 _].
    destruct (rev l1) as [|x l] eqn:Hrev; simpl.
    + by apply exec_bol_inside.
    + apply exec_bol_inside.
      assert (Hin : x ∈ l1).
      { apply list_elem_of_In, in_rev. rewrite Hrev. by left. }
      by apply (proj1 (Forall_forall _ _) Hl1).
Qed.

(** *** Where the output comes from *)

Lemma matches_caps r st st' :
  In st' (matches r st) →
  ∀ n v, In (n, v) (caps st') →
  In (n, v) (caps st) ∨ ∀ x, x ∈ v → x ∈ rest st.
Proof.
  revert st st'. induction r as [|p|p|p lo g|p| | |p|n r IH|r1 IH1 r2 IH2];
    intros st st'; simpl.
  - intros [<-|[]]. auto.
  - destruct (rest st) as [|c tl]; [done|].
    destruct (p (code c)); [|done]. intros [<-|[]]. auto.
  - destruct (code_point (rest st)) as [[cp k]|]; [|done].
    destruct (p cp); [|done]. intros [<-|[]]. auto.
  - destruct (rep_min p lo (seen st) (rest st)) as [[sn rs]|]; [|done].
    intros [[sn' rs'] [<- _]]%in_map_iff. auto.
  - destruct (rest st) as [|c tl]; [intros [<-|[]]; auto|].
    destruct (p (code c)); [intros [<-|[<-|[]]]|intros [<-|[]]]; auto.
  - destruct (seen st) as [|c ?]; [intros [<-|[]]; auto|].
    destruct (is_line_terminator (code c)); [intros [<-|[]]; auto|done].
  - destruct (rest st) as [|c ?]; [intros [<-|[]]; auto|].
    destruct (is_line_terminator (code c)); [intros [<-|[]]; auto|done].
  - destruct (seen st) as [|c ?]; [done|].
    destruct (p (code c)); [intros [<-|[]]; auto|done].
  - intros [st1 [<- Hin]]%in_map_iff m v. simpl.
    intros [[= <- <-]|Hcap].
    + right. intros x Hx. eapply subseteq_take, Hx.
    + eapply IH; done.
  - intros [st1 [Hin1 Hin2]]%in_flat_map m v Hcap.
    destruct (IH2 _ _ Hin2 _ _ Hcap) as [Hold|Hnew].
    + eapply IH1; done.
    + right. intros x Hx.
      apply matches_lead in Hin1 as ((l & -> & _) & _).
      apply elem_of_app. right. auto.
Qed.

Lemma capture_from n (cs : list (nat * list A)) (x : A) :
  x ∈ capture n cs → ∃ m v, In (m, v) cs ∧ x ∈ v.
Proof.
  unfold capture. destruct (find _ cs) as [[m v]|] eqn:Hfind.
  - apply find_some in Hfind as [Hin _]. eauto.
  - intros []%elem_of_nil.
Qed.

Lemma expand_from t st (x : A) :
  x ∈ expand t st →
  (∃ c, c ∈ template_text t ∧ x = lit c) ∨ ∃ m v, In (m, v) (caps st) ∧ x ∈ v.
Proof.
  unfold expand, template_text. intros Hx%list_elem_of_In.
  apply in_flat_map in Hx as [[a|n] [Hi Hx]]; apply list_elem_of_In in Hx.
  - left. apply list_elem_of_In, in_map_iff in Hx as [c [<- Hc]].
    exists c. split; [|done]. apply list_elem_of_In, in_flat_map.
    by exists (TLit a).
  - right. by eapply capture_from.
Qed.

(** What a replacement writes is text of its template or part of what the
    match read. *)
Lemma exec_expand_from r t sn rs st (x : A) :
  exec r sn rs = Some st → x ∈ expand t st →
  x ∈ rs ∨ ∃ c, c ∈ template_text t ∧ x = lit c.
Proof.
  unfold exec. intros Hhd Hx.
  assert (Hin : In st (matches r (MState sn rs []))).
  { destruct (matches r (MState sn rs [])) as [|y l]; [done|].
    injection Hhd as ->. by left. }
  apply expand_from in Hx as [Hlit|(m & v & Hcap & Hx)]; [by right|].
  destruct (matches_caps _ _ _ Hin _ _ Hcap) as [[]|Hsub]. left. by apply Hsub.
Qed.

Lemma replace_loop_from u r t skip keep sn rs (x : A) :
  x ∈ replace_loop u r t skip keep sn rs →
  x ∈ rs ∨ ∃ c, c ∈ template_text t ∧ x = lit c.
Proof.
  revert skip keep sn. induction rs as [|c rs IH]; intros skip keep sn; simpl.
  - destruct skip; [|by intros ?%elem_of_nil].
    destruct (exec r sn []) as [st|] eqn:Hex; [|by intros ?%elem_of_nil].
    intros Hx. by eapply exec_expand_from.
  - assert (Hrec : ∀ skip keep, x ∈ replace_loop u r t skip keep (c :: sn) rs →
                   x ∈ c :: rs ∨ ∃ c, c ∈ template_text t ∧ x = lit c).
    { intros ?? [?|?]%IH; [left; by right|by right]. }
    assert (Hcons : ∀ skip keep, x ∈ c :: replace_loop u r t skip keep (c :: sn) rs →
                    x ∈ c :: rs ∨ ∃ c, c ∈ template_text t ∧ x = lit c).
    { intros ?? [->|?]%elem_of_cons; [left; left|eauto]. }
    destruct skip as [|k].
    + destruct (exec r sn (c :: rs)) as [st|] eqn:Hex; [|by eauto].
      intros [Hx|Hx]%elem_of_app; [by eapply exec_expand_from|].
      destruct (matched (c :: rs) st); eauto.
    + destruct keep; simpl; eauto.
Qed.

Lemma replace_all_from r t (s : list A) (x : A) :
  x ∈ replace_all r t s → x ∈ s ∨ ∃ c, c ∈ template_text t ∧ x = lit c.
Proof. apply replace_loop_from. Qed.

Lemma replace_all_u_from r t (s : list A) (x : A) :
  x ∈ replace_all_u r t s → x ∈ s ∨ ∃ c, c ∈ template_text t ∧ x = lit c.
Proof. apply replace_loop_from. Qed.

Lemma trimStart_suffix (s : list A) : ∃ l, s = l ++ trimStart s.
Proof.
  induction s as [|c s [l IH]]; simpl; [by exists []|].
  destruct (is_space (code c)); [|by exists []].
  exists (c :: l). simpl. by rewrite <- IH.
Qed.

Lemma trim_from (s : list A) (x : A) : x ∈ trim s → x ∈ s.
Proof.
  unfold trim, trimEnd. intros Hx.
  apply list_elem_of_In in Hx. rewrite <- in_rev in Hx.
  destruct (trimStart_suffix s) as [l1 H1].
  destruct (trimStart_suffix (rev (trimStart s))) as [l2 H2].
  rewrite H1. apply elem_of_app. right.
  apply list_elem_of_In, in_rev. rewrite H2.
  apply in_or_app. by right.
Qed.
End Facts.

(** *** Forgetting what the symbols carry *)

Section Erasure.
Context {A B : Type} `{Sym A} `{Sym B}.
Variable h : A → B.
Hypothesis h_code : ∀ a, code (h a) = code a.
Hypothesis h_lit : ∀ c, h (lit c) = lit c.
Implicit Types (st : mstate A) (sn rs : list A).

Local Abbreviation hh := (prod_map (List.map h) (List.map h)).

Lemma fits_map ps rs : fits ps (List.map h rs) = fits ps rs.
Proof.
  revert rs. induction ps as [|p ps IH]; intros [|c rs]; simpl; try done.
  by rewrite h_code, IH.
Qed.

Lemma code_point_map rs : code_point (List.map h rs) = code_point rs.
Proof. destruct rs as [|a [|b rs]]; simpl; by rewrite ?h_code. Qed.

Lemma rep_min_map p lo sn rs :
  rep_min p lo (List.map h sn) (List.map h rs) = hh <$> rep_min p lo sn rs.
Proof.
  revert sn rs. induction lo as [|lo IH]; intros sn [|c rs]; simpl; try done.
  rewrite h_code. destruct (p (code c)); [|done]. apply (IH (c :: sn)).
Qed.

Lemma rep_more_map p g sn rs :
  rep_more p g (List.map h sn) (List.map h rs) = List.map hh (rep_more p g sn rs).
Proof.
  revert sn. induction rs as [|c rs IH]; intros sn; simpl; [done|].
  rewrite h_code. destruct (p (code c)); [|done].
  specialize (IH (c :: sn)). simpl in IH. rewrite IH.
  destruct g; simpl; [|done]. by rewrite List.map_app.
Qed.

Lemma matches_map r st :
  matches r (map_state h st) = List.map (map_state h) (matches r st).
Proof.
  revert st. induction r as [|p|p|p lo g|p| | |p|n r IH|r1 IH1 r2 IH2];
    intros [sn rs cs]; simpl.
  - done.
  - destruct rs as [|c rs]; simpl; [done|]. rewrite h_code.
    by destruct (p (code c)).
  - rewrite code_point_map. destruct (code_point rs) as [[cp k]|]; [|done].
    destruct (p cp); [|done]. simpl. unfold map_state. simpl.
    rewrite List.map_app, map_rev.
    change (List.map h) with (fmap (M:=list) h). by rewrite fmap_take, fmap_drop.
  - rewrite rep_min_map. destruct (rep_min p lo sn rs) as [[sn' rs']|]; [|done].
    simpl. rewrite rep_more_map, !List.map_map.
    apply map_ext. by intros [??].
  - destruct rs as [|c rs]; simpl; [done|]. rewrite h_code.
    by destruct (p (code c)).
  - destruct sn as [|c sn]; simpl; [done|]. rewrite h_code.
    by destruct (is_line_terminator (code c)).
  - destruct rs as [|c rs]; simpl; [done|]. rewrite h_code.
    by destruct (is_line_terminator (code c)).
  - destruct sn as [|c sn]; simpl; [done|]. rewrite h_code.
    by destruct (p (code c)).
  - rewrite IH, !List.map_map. apply map_ext. intros [sn' rs' cs'].
    unfold map_state. simpl. rewrite !length_map.
    change (List.map h) with (fmap (M:=list) h). by rewrite fmap_take.
  - rewrite IH1. clear IH1.
    induction (matches r1 (MState sn rs cs)) as [|x l IHl]; simpl; [done|].
    by rewrite IH2, IHl, List.map_app.
Qed.

Lemma exec_map r sn rs :
  exec r (List.map h sn) (List.map h rs) = map_state h <$> exec r sn rs.
Proof.
  unfold exec. change (MState (List.map h sn) (List.map h rs) [])
    with (map_state h (MState sn rs [])).
  rewrite matches_map. by destruct (matches r (MState sn rs [])).
Qed.

Lemma capture_map n cs : capture n (map_caps h cs) = List.map h (capture n cs).
Proof.
  unfold capture. induction cs as [|[m v] cs IH]; simpl; [done|].
  destruct (Nat.eqb m n); [done|]. apply IH.
Qed.

Lemma expand_map t st : expand t (map_state h st) = List.map h (expand t st).
Proof.
  unfold expand. induction t as [|[a|n] t IH]; cbn [flat_map]; [done|..];
    rewrite IH, List.map_app; f_equal.
  - rewrite List.map_map. apply map_ext. intros c. by rewrite h_lit.
  - apply capture_map.
Qed.

Lemma matched_map rs st : matched (List.map h rs) (map_state h st) = matched rs st.
Proof. unfold matched. simpl. by rewrite !length_map. Qed.

Lemma advance_map u rs : advance u (List.map h rs) = advance u rs.
Proof. unfold advance. by rewrite code_point_map. Qed.

Lemma replace_loop_map u r t skip keep sn rs :
  replace_loop u r t skip keep (List.map h sn) (List.map h rs)
  = List.map h (replace_loop u r t skip keep sn rs).
Proof.
  revert skip keep sn. induction rs as [|c rs IH]; intros skip keep sn; simpl.
  - destruct skip; [|done].
    pose proof (exec_map r sn []) as Hex. simpl in Hex. rewrite Hex.
    destruct (exec r sn []); simpl; [apply expand_map|done].
  - destruct skip as [|k].
    + pose proof (exec_map r sn (c :: rs)) as Hex. simpl in Hex. rewrite Hex.
      pose proof (advance_map u (c :: rs)) as Hadv. simpl in Hadv. rewrite Hadv.
      destruct (exec r sn (c :: rs)) as [st|]; simpl.
      * rewrite expand_map, List.map_app. f_equal.
        pose proof (matched_map (c :: rs) st) as Hm. simpl in Hm. rewrite Hm.
        destruct (matched (c :: rs) st); simpl; [f_equal|]; apply (IH _ _ (c :: sn)).
      * f_equal. apply (IH _ _ (c :: sn)).
    + rewrite List.map_app. f_equal; [by destruct keep|]. apply (IH _ _ (c :: sn)).
Qed.

Lemma replace_all_map r t (s : list A) :
  replace_all r t (List.map h s) = List.map h (replace_all r t s).
Proof. apply (replace_loop_map false r t 0 false []). Qed.

Lemma replace_all_u_map r t (s : list A) :
  replace_all_u r t (List.map h s) = List.map h (replace_all_u r t s).
Proof. apply (replace_loop_map true r t 0 false []). Qed.

Lemma trimStart_map (s : list A) : trimStart (List.map h s) = List.map h (trimStart s).
Proof.
  induction s as [|c s IH]; simpl; [done|]. rewrite h_code.
  by destruct (is_space (code c)).
Qed.

Lemma trim_map (s : list A) : trim (List.map h s) = List.map h (trim s).
Proof.
  unfold trim, trimEnd.
  by rewrite trimStart_map, <- map_rev, trimStart_map, map_rev.
Qed.
End Erasure.

End RegexFacts.

(** ** Pins, tags and rehydration *)

Module Annotations.
Import JS ChatMessagesView.

Section Pins.
Context {B : browser}.
Implicit Types (w : state * storage B) (id : jsstring).

Lemma pins_toggle_present id w :
  id ∈ pins w →
  pins (handleTogglePin id w) = filter (λ x, x ≠ id) (pins w).
Proof.
  intros Hin. unfold pins, handleTogglePin. simpl.
  rewrite bool_decide_eq_true_2; done.
Qed.

Lemma pins_toggle_absent id w :
  id ∉ pins w → pins (handleTogglePin id w) = pins w ++ [id].
Proof.
  intros Hin. unfold pins, handleTogglePin. simpl.
  rewrite bool_decide_eq_false_2; done.
Qed.

Lemma filter_absent id (l : list jsstring) :
  id ∉ l → filter (λ x, x ≠ id) l = l.
Proof.
  induction l as [|x l IH]; [done|].
  intros Hnin. apply not_elem_of_cons in Hnin as [Hne Hnin].
  rewrite filter_cons_True by done. by rewrite IH.
Qed.

(** Unpinning what was just pinned gives the list back as it was. *)
Lemma pin_then_unpin id w :
  id ∉ pins w → pins (handleTogglePin id (handleTogglePin id w)) = pins w.
Proof.
  intros Hnin.
  rewrite pins_toggle_present.
  - rewrite pins_toggle_absent by done.
    rewrite filter_app, filter_absent by done.
    rewrite filter_cons_False by (intros Hne; by apply Hne).
    by rewrite filter_nil, app_nil_r.
  - rewrite pins_toggle_absent by done. set_solver.
Qed.

(** Pinning again what was just unpinned moves the id to the end. *)
Lemma unpin_then_pin id w :
  id ∈ pins w →
  pins (handleTogglePin id (handleTogglePin id w))
  = filter (λ x, x ≠ id) (pins w) ++ [id].
Proof.
  intros Hin.
  rewrite pins_toggle_absent.
  - by rewrite pins_toggle_present.
  - rewrite pins_toggle_present by done.
    intros [Hne _]%list_elem_of_filter. by apply Hne.
Qed.

(** C6: toggling the pin of one message twice gives a pinned list with
    exactly the ids it had before, whatever the list and the id; when the
    ids of the list were pairwise distinct the result is a rearrangement
    of it (the toggled id may have moved to the end). *)
Theorem pin_toggle_twice id w :
  let l := pins w in
  let l2 := pins (handleTogglePin id (handleTogglePin id w)) in
  (∀ x, x ∈ l2 ↔ x ∈ l) ∧ (NoDup l → l2 ≡ₚ l).
Proof.
  intros l l2. subst l l2.
  destruct (decide (id ∈ pins w)) as [Hin|Hnin].
  - rewrite unpin_then_pin by done.
    assert (Hset : ∀ x, x ∈ filter (λ y, y ≠ id) (pins w) ++ [id] ↔ x ∈ pins w).
    { intros x. rewrite elem_of_app, list_elem_of_filter, list_elem_of_singleton.
      destruct (decide (x = id)) as [->|Hne]; [tauto|].
      split; [intros [[_ Hx]|Hx]|intros Hx]; tauto. }
    split; [done|].
    intros Hnd. apply NoDup_Permutation; [|done..].
    apply NoDup_app. split_and!.
    + by apply NoDup_filter.
    + intros x [Hne _]%list_elem_of_filter ->%list_elem_of_singleton. by apply Hne.
    + apply NoDup_singleton.
  - rewrite pin_then_unpin by done. done.
Qed.

(** C10: toggling a pin keeps the ids of the pinned list pairwise
    distinct: unpinning leaves no occurrence of the id, and pinning
    appends the id only when the list did not have it. *)
Theorem pin_toggle_NoDup id w :
  NoDup (pins w) →
  NoDup (pins (handleTogglePin id w))
  ∧ (id ∈ pins w → id ∉ pins (handleTogglePin id w))
  ∧ (id ∉ pins w → pins (handleTogglePin id w) = pins w ++ [id]).
Proof.
  intros Hnd. split_and!.
  - destruct (decide (id ∈ pins w)) as [Hin|Hnin].
    + rewrite pins_toggle_present by done. by apply NoDup_filter.
    + rewrite pins_toggle_absent by done.
      apply NoDup_app. split_and!; [done| |apply NoDup_singleton].
      by intros x Hx ->%list_elem_of_singleton.
  - intros Hin. rewrite pins_toggle_present by done.
    intros [Hne _]%list_elem_of_filter. by apply Hne.
  - apply pins_toggle_absent.
Qed.
End Pins.

(** Pin "m1", pin "m2", unpin "m1". *)
Example pin_scenario :
  let w0 : state * storage memory_browser := (empty_state, ∅) in
  let w2 := handleTogglePin (str "m2") (handleTogglePin (str "m1") w0) in
  pins w2 = [str "m1"; str "m2"]
  ∧ pins (handleTogglePin (str "m1") w2) = [str "m2"].
Proof. split; vm_compute; reflexivity. Qed.

(** A list that came back from the storage with an id twice loses the
    second copy: here the two lists agree as sets only. *)
Example pin_toggle_twice_duplicates :
  let w : state * storage memory_browser :=
    (set_pinned empty_state [str "m1"; str "m1"], ∅) in
  pins (handleTogglePin (str "m1") (handleTogglePin (str "m1") w)) = [str "m1"].
Proof. vm_compute. reflexivity. Qed.

Lemma pin_toggle_NoDup_witness :
  let w : state * storage memory_browser :=
    (set_pinned empty_state [str "m1"; str "m2"], ∅) in
  NoDup (pins w) ∧ NoDup (pins (handleTogglePin (str "m1") w)).
Proof.
  intros w.
  assert (Hnd : NoDup (pins w)).
  { apply (bool_decide_unpack _). vm_compute. exact I. }
  split; [exact Hnd|].
  exact (proj1 (pin_toggle_NoDup (str "m1") w Hnd)).
Defined.

Lemma pin_toggle_twice_witness :
  let w : state * storage memory_browser :=
    (set_pinned empty_state [str "m1"; str "m2"], ∅) in
  NoDup (pins w)
  ∧ pins (handleTogglePin (str "m1") (handleTogglePin (str "m1") w)) ≡ₚ pins w.
Proof.
  intros w.
  assert (Hnd : NoDup (pins w)).
  { apply (bool_decide_unpack _). vm_compute. exact I. }
  split; [exact Hnd|].
  exact (proj2 (pin_toggle_twice (str "m1") w) Hnd).
Defined.

Section Tags.
Context {B : browser}.
Implicit Types (w : state * storage B) (id : jsstring) (st : state).

Lemma tag_map_set id t w :
  tag_map (handleSetTag id t w) = <[id := tag_name t]> (tag_map w).
Proof. done. Qed.

Lemma tag_map_remove id w :
  tag_map (handleRemoveTag id w) = delete id (tag_map w).
Proof. done. Qed.

(** The entries of a map under one key: the value it holds, if any. *)
Lemma tags_of_lookup id st :
  tags_of id st = option_list (messageTagsMap st !! id).
Proof.
  unfold tags_of. set (m := messageTagsMap st).
  set (l := filter (λ e : jsstring * jsstring, e.1 = id) (map_to_list m)).
  assert (Hel : ∀ k v, (k, v) ∈ l ↔ k = id ∧ m !! k = Some v).
  { intros k v. unfold l. rewrite list_elem_of_filter, elem_of_map_to_list.
    simpl. done. }
  assert (Hnd : NoDup l.*1).
  { unfold l. eapply (sublist_NoDup _ (map_to_list m).*1).
    - apply NoDup_fst_map_to_list.
    - apply fmap_sublist, sublist_filter. }
  destruct (m !! id) as [v|] eqn:Hm; simpl.
  - assert (Hin : (id, v) ∈ l) by by apply Hel.
    destruct l as [|[k1 v1] [|[k2 v2] l']].
    + by apply elem_of_nil in Hin.
    + apply list_elem_of_singleton in Hin as [= <- <-]. done.
    + exfalso.
      assert (k1 = id) as -> by (apply (Hel k1 v1); left).
      assert (k2 = id) as -> by (apply (Hel k2 v2); right; left).
      simpl in Hnd. apply NoDup_cons in Hnd as [Hnin _].
      apply Hnin. left.
  - destruct l as [|[k1 v1] l']; [done|].
    exfalso. assert (Hk : k1 = id ∧ m !! k1 = Some v1) by (apply Hel; left).
    destruct Hk as [-> Hk]. congruence.
Qed.

Lemma tag_session_snoc acts a w :
  tag_session (acts ++ [a]) w = tag_step B (tag_session acts w) a.
Proof. unfold tag_session. by rewrite foldl_app. Qed.

(** C7: [handleSetTag] puts the new tag in the place of whatever tag the
    message had (the map then holds the new tag, and only it, under the
    id), and after any sequence of [handleSetTag] and [handleRemoveTag]
    every message id carries at most one tag. *)
Theorem tag_overwrites id t w :
  tag_map (handleSetTag id t w) !! id = Some (tag_name t)
  ∧ tags_of id (handleSetTag id t w).1 = [tag_name t]
  ∧ (∀ id', id' ≠ id → tag_map (handleSetTag id t w) !! id' = tag_map w !! id')
  ∧ (∀ acts id', (length (tags_of id' (tag_session acts w).1) ≤ 1)%nat).
Proof.
  split_and!.
  - rewrite tag_map_set. apply lookup_insert_eq.
  - rewrite tags_of_lookup. fold (tag_map (handleSetTag id t w)).
    rewrite tag_map_set, lookup_insert_eq. done.
  - intros id' Hne. rewrite tag_map_set. by apply lookup_insert_ne.
  - intros acts id'. rewrite tags_of_lookup.
    destruct (messageTagsMap _ !! id'); simpl; lia.
Qed.
End Tags.

(** Tag "m1" as action, then as decision: one tag is left. *)
Example tag_scenario :
  let w0 : state * storage memory_browser := (empty_state, ∅) in
  let w := handleSetTag (str "m1") decision (handleSetTag (str "m1") action w0) in
  tags_of (str "m1") w.1 = [str "decision"].
Proof.
  intros w0 w. rewrite tags_of_lookup. vm_compute. reflexivity.
Qed.

Section Rehydration.
Context {B : browser}.

Lemma rehydrate_returns key fallback (ls : storage B) :
  rehydrate B key fallback ls =
    Return match getItem B ls key with
           | Return (Some (c :: text)) =>
               match JSON_parse B (c :: text) with
               | Return v => v
               | Throw => fallback
               end
           | Return (Some []) | Return None | Throw => fallback
           end.
Proof.
  unfold rehydrate.
  unfold try_catch, obind.
  destruct (getItem B ls key) as [[[|c text]|]|]; try reflexivity.
  destruct (JSON_parse B (c :: text)); reflexivity.
Qed.

(** C8: the two initializers never throw. Whatever the storage holds
    under the key (nothing, the empty string, any text, or a read that
    fails), each returns a value: what [JSON.parse] made of the stored
    text when there is a non-empty text and it parses, and the empty list
    (for the pins) or the empty map (for the tags) in every other case. *)
Theorem rehydration_total (ls : storage B) :
  init_pinnedMessages ls =
    Return match getItem B ls (str "epc-pinned-messages") with
           | Return (Some (c :: text)) =>
               match JSON_parse B (c :: text) with
               | Return v => v
               | Throw => of_ids B []
               end
           | Return (Some []) | Return None | Throw => of_ids B []
           end
  ∧ init_messageTagsMap ls =
    Return match getItem B ls (str "epc-message-tags") with
           | Return (Some (c :: text)) =>
               match JSON_parse B (c :: text) with
               | Return v => v
               | Throw => of_tags B ∅
               end
           | Return (Some []) | Return None | Throw => of_tags B ∅
           end.
Proof. split; apply rehydrate_returns. Qed.
End Rehydration.

(** Malformed text under both keys, for a parser that throws on it: the
    pins start as the empty list and the tags as the empty map. *)
Example rehydration_malformed :
  let ls : storage strict_browser :=
    {[ str "epc-pinned-messages" := str "[oops"; str "epc-message-tags" := str "{" ]} in
  init_pinnedMessages ls = Return (str "[]")
  ∧ init_messageTagsMap ls = Return (str "{}").
Proof. split; vm_compute; reflexivity. Qed.

(** *** Reloading the page *)

Section Reload.
Context {B : browser}.
Implicit Types (w : state * storage B) (id : jsstring).

(** What was written is what the next start of the component reads. *)
Lemma persist_rehydrate key (v fallback : value B) (ls : storage B) :
  JSON_stringify B v ≠ [] →
  JSON_parse B (JSON_stringify B v) = Return v →
  (∀ ls', setItem B ls key (JSON_stringify B v) = Return ls' →
          getItem B ls' key = Return (Some (JSON_stringify B v))) →
  (∀ ls', setItem B ls key (JSON_stringify B v) = Return ls' →
          rehydrate B key fallback (persist B key v ls) = Return v)
  ∧ (setItem B ls key (JSON_stringify B v) = Throw → persist B key v ls = ls).
Proof.
  intros Hne Hparse Hread. unfold persist. split.
  - intros ls' Hset. rewrite Hset. rewrite rehydrate_returns, (Hread ls' Hset).
    destruct (JSON_stringify B v) as [|c text] eqn:Htext; [done|].
    by rewrite Hparse.
  - by intros ->.
Qed.

(** X1: A pin that was written is there after a reload: when the write of
    [handleTogglePin] succeeds (and the storage gives back what was put in
    it, and the JSON text of the list parses to the list), the initializer
    of the next page load returns the pinned list the toggle left. When the
    write throws, the handler still updates the list in memory and leaves
    the storage as it was, so a reload shows the list from before. *)
Theorem pins_survive_reload id w :
  let w' := handleTogglePin id w in
  let text := JSON_stringify B (of_ids B (pins w')) in
  text ≠ [] →
  JSON_parse B text = Return (of_ids B (pins w')) →
  (∀ ls', setItem B w.2 (str "epc-pinned-messages") text = Return ls' →
          getItem B ls' (str "epc-pinned-messages") = Return (Some text)) →
  (∀ ls', setItem B w.2 (str "epc-pinned-messages") text = Return ls' →
          init_pinnedMessages w'.2 = Return (of_ids B (pins w')))
  ∧ (setItem B w.2 (str "epc-pinned-messages") text = Throw →
     w'.2 = w.2 ∧ init_pinnedMessages w'.2 = init_pinnedMessages w.2).
Proof.
  intros w' text Hne Hparse Hread.
  destruct (persist_rehydrate (str "epc-pinned-messages") (of_ids B (pins w'))
              (of_ids B []) w.2 Hne Hparse Hread) as [Hok Hfail].
  split.
  - intros ls' Hset. exact (Hok ls' Hset).
  - intros Hset. specialize (Hfail Hset).
    assert (Hsame : w'.2 = w.2) by exact Hfail.
    split; [done|]. by rewrite Hsame.
Qed.

(** X2: A change of tag that was written is there after a reload: when the
    write of [handleSetTag] or of [handleRemoveTag] succeeds (and the
    storage gives back what was put in it, and the JSON text of the map
    parses to the map), the initializer of the next page load returns the
    tag map the handler left. When the write throws, the handler still
    updates the map in memory and leaves the storage as it was. *)
Theorem tags_survive_reload (a : tag_action) w :
  let w' := tag_step B w a in
  let text := JSON_stringify B (of_tags B (tag_map w')) in
  text ≠ [] →
  JSON_parse B text = Return (of_tags B (tag_map w')) →
  (∀ ls', setItem B w.2 (str "epc-message-tags") text = Return ls' →
          getItem B ls' (str "epc-message-tags") = Return (Some text)) →
  (∀ ls', setItem B w.2 (str "epc-message-tags") text = Return ls' →
          init_messageTagsMap w'.2 = Return (of_tags B (tag_map w')))
  ∧ (setItem B w.2 (str "epc-message-tags") text = Throw →
     w'.2 = w.2 ∧ init_messageTagsMap w'.2 = init_messageTagsMap w.2).
Proof.
  intros w' text Hne Hparse Hread.
  destruct (persist_rehydrate (str "epc-message-tags") (of_tags B (tag_map w'))
              (of_tags B ∅) w.2 Hne Hparse Hread) as [Hok Hfail].
  split.
  - intros ls' Hset. specialize (Hok ls' Hset). by destruct a.
  - intros Hset. specialize (Hfail Hset).
    assert (Hsame : w'.2 = w.2) by (by destruct a).
    split; [done|]. by rewrite Hsame.
Qed.
End Reload.

Lemma pins_survive_reload_witness :
  let w : state * storage memory_browser := (empty_state, ∅) in
  init_pinnedMessages (handleTogglePin (str "m1") w).2
  = Return (of_ids memory_browser [str "m1"]).
Proof.
  intros w.
  refine (proj1 (pins_survive_reload (str "m1") w _ _ _) _ _).
  - vm_compute. discriminate.
  - reflexivity.
  - intros ls' [= <-]. simpl. by rewrite lookup_insert_eq.
  - reflexivity.
Defined.

Lemma tags_survive_reload_witness :
  let w : state * storage memory_browser := (empty_state, ∅) in
  init_messageTagsMap (handleSetTag (str "m1") idea w).2
  = Return (of_tags memory_browser {[ str "m1" := str "idea" ]}).
Proof.
  intros w.
  refine (proj1 (tags_survive_reload (SetTag (str "m1") idea) w _ _ _) _ _).
  - vm_compute. discriminate.
  - reflexivity.
  - intros ls' [= <-]. simpl. by rewrite lookup_insert_eq.
  - reflexivity.
Defined.

(** *** What a toggle and a tag removal change *)

Section Changes.
Context {B : browser}.
Implicit Types (w : state * storage B) (id : jsstring).

(** X3: [handleTogglePin] flips whether the id is pinned, whatever the list
    (also one that holds the id more than once), and leaves every other
    id where it was: the other ids of the list, in their order and with
    their repetitions, are the same before and after. *)
Theorem pin_toggle_flips id w :
  (id ∈ pins (handleTogglePin id w) ↔ id ∉ pins w)
  ∧ filter (λ x, x ≠ id) (pins (handleTogglePin id w)) = filter (λ x, x ≠ id) (pins w)
  ∧ tag_map (handleTogglePin id w) = tag_map w.
Proof.
  split_and!; [| |done].
  - destruct (decide (id ∈ pins w)) as [Hin|Hnin].
    + rewrite pins_toggle_present by done. rewrite list_elem_of_filter. tauto.
    + rewrite pins_toggle_absent by done. rewrite elem_of_app, list_elem_of_singleton.
      tauto.
  - destruct (decide (id ∈ pins w)) as [Hin|Hnin].
    + rewrite pins_toggle_present by done. by rewrite list_filter_filter_l.
    + rewrite pins_toggle_absent by done. rewrite filter_app.
      rewrite (filter_cons_False _ id) by (intros Hne; by apply Hne).
      by rewrite filter_nil, app_nil_r.
Qed.

(** X4: [handleRemoveTag] leaves the message without a tag and every other
    message with the tag it had; on a message without a tag it changes
    nothing; and it undoes a [handleSetTag] on a message that had no tag
    (on one that had a tag, the old tag does not come back). *)
Theorem tag_removed id t w :
  tags_of id (handleRemoveTag id w).1 = []
  ∧ (∀ id', id' ≠ id → tag_map (handleRemoveTag id w) !! id' = tag_map w !! id')
  ∧ tag_map (handleRemoveTag id (handleSetTag id t w)) = delete id (tag_map w)
  ∧ (tag_map w !! id = None →
     tag_map (handleRemoveTag id w) = tag_map w
     ∧ tag_map (handleRemoveTag id (handleSetTag id t w)) = tag_map w).
Proof.
  split_and!.
  - rewrite tags_of_lookup. fold (tag_map (handleRemoveTag id w)).
    by rewrite tag_map_remove, lookup_delete_eq.
  - intros id' Hne. rewrite tag_map_remove. by apply lookup_delete_ne.
  - rewrite tag_map_remove, tag_map_set. apply delete_insert_eq.
  - intros Hnone. rewrite !tag_map_remove, tag_map_set, delete_insert_eq.
    by rewrite delete_id.
Qed.
End Changes.

End Annotations.

(** ** Highlights and summary *)

Module Insights.
Import JS Regex RegexFacts ChatMessagesView.

Implicit Types (s : jsstring) (c : N).

(** *** White space after the clean-up *)

(** A greedy run of at least one of a class: all of the run. *)
Lemma exec_run {A} `{Sym A} p (sn rs : list A) :
  exec (Rep p 1 true) sn rs =
    match rs with
    | c :: rs' =>
        if p (code c)
        then Some (let '(sn', rs'') := span p (c :: sn) rs' in MState sn' rs'' [])
        else None
    | [] => None
    end.
Proof.
  unfold exec. cbn [matches rep_min seen rest caps].
  destruct rs as [|c rs]; [done|]. destruct (p (code c)); [|done].
  pose proof (rep_more_greedy p (c :: sn) rs) as Hhd.
  destruct (rep_more p true (c :: sn) rs) as [|x l]; [done|].
  injection Hhd as ->. simpl. by destruct (span p (c :: sn) rs).
Qed.

Lemma span_rest {A} `{Sym A} p (sn rs : list A) :
  fits [p] (span p sn rs).2 = false
  ∧ (length (span p sn rs).2 ≤ length rs)%nat.
Proof.
  revert sn. induction rs as [|c rs IH]; intros sn; simpl; [split; [done|lia]|].
  destruct (p (code c)) eqn:Hp.
  - destruct (IH (c :: sn)) as [? ?]. split; [done|lia].
  - simpl. rewrite Hp. split; [done|lia].
Qed.

Lemma span_stop {A} `{Sym A} p (sn rs : list A) :
  fits [p] rs = false → span p sn rs = (sn, rs).
Proof.
  destruct rs as [|c rs]; simpl; [done|].
  rewrite andb_true_r. by intros ->.
Qed.

(** [replace(/\s+/g, " ")] leaves single blanks. *)
Lemma collapse_single_spaced n sn s :
  (length s ≤ n)%nat →
  let out := replace_loop false re_spaces [TLit (str " ")] 0 false sn s in
  single_spaced out = true
  ∧ (fits [is_space] s = false → fits [is_space] out = false).
Proof.
  revert sn s. induction n as [|n IH]; intros sn [|c s] Hlen; simpl in Hlen;
    try lia; try done.
  intros out. subst out. unfold re_spaces in *.
  pose proof (exec_run is_space sn (c :: s)) as Hex. cbn [code N_sym] in Hex.
  destruct (is_space c) eqn:Hc.
  - set (st := let '(sn', rs'') := span is_space (c :: sn) s in MState sn' rs'' []) in Hex.
    assert (Hrest : rest st = (span is_space (c :: sn) s).2).
    { unfold st. by destruct (span is_space (c :: sn) s). }
    destruct (span_rest is_space (c :: sn) s) as [Hstop Hle].
    rewrite (replace_loop_hit _ _ _ _ _ st Hex).
    + destruct (IH (seen st) (rest st)) as [Hss Hhd]; [rewrite Hrest; lia|].
      rewrite Hrest in Hhd. specialize (Hhd Hstop). rewrite <- Hrest in Hhd.
      cbn [expand flat_map List.map str list_ascii_of_string app lit N_sym].
      split; [|intros Hf; simpl in Hf; by rewrite Hc in Hf]. cbn [single_spaced].
      change (is_space (N_of_ascii " ")) with true. cbn match.
      change (N_of_ascii " " =? 32) with true.
      change [N_of_ascii " "] with (str " "). rewrite Hhd, Hss. done.
    + unfold matched. rewrite Hrest. simpl. lia.
  - rewrite replace_loop_miss by done.
    destruct (IH (c :: sn) s) as [Hss Hhd]; [lia|].
    split.
    + cbn [single_spaced]. rewrite Hc. done.
    + intros _. simpl. by rewrite Hc.
Qed.

Lemma single_spaced_app s1 s2 :
  single_spaced (s1 ++ s2) = true →
  single_spaced s1 = true ∧ single_spaced s2 = true.
Proof.
  induction s1 as [|c s1 IH]; simpl; [done|].
  intros [Hc [H1 H2]%IH]%andb_prop. split; [|done].
  rewrite H1, andb_true_r. destruct (is_space c); [|done].
  apply andb_prop in Hc as [-> Hnext]. simpl.
  destruct s1 as [|c1 s1]; [done|]. done.
Qed.

Lemma trimStart_head s : fits [is_space] (trimStart s) = false.
Proof.
  induction s as [|c s IH]; simpl; [done|].
  cbn [code N_sym]. destruct (is_space c) eqn:Hc; [done|]. simpl.
  cbn [code N_sym]. by rewrite Hc.
Qed.

Lemma trimStart_id s : fits [is_space] s = false → trimStart s = s.
Proof.
  destruct s as [|c s]; simpl; [done|]. cbn [code N_sym].
  rewrite andb_true_r. by intros ->.
Qed.

Lemma trim_id s :
  fits [is_space] s = false → fits [is_space] (rev s) = false → trim s = s.
Proof.
  intros Hhd Hlast. unfold trim, trimEnd.
  by rewrite (trimStart_id s), (trimStart_id (rev s)), rev_involutive.
Qed.

Lemma fits_head_app p (s1 s2 : jsstring) :
  s1 ≠ [] → fits [p] (s1 ++ s2) = fits [p] s1.
Proof. by destruct s1. Qed.

(** The cleaned text is tidy. *)
Lemma trim_tidy s : single_spaced s = true → tidy (trim s) = true.
Proof.
  intros Hss. unfold tidy, trim, trimEnd.
  destruct (trimStart_suffix s) as [l1 H1].
  destruct (trimStart_suffix (rev (trimStart s))) as [l2 H2].
  set (x := trimStart s) in *. set (y := trimStart (rev x)) in *.
  assert (Hx : x = rev y ++ rev l2).
  { rewrite <- rev_app_distr, <- H2. by rewrite rev_involutive. }
  assert (Hssx : single_spaced x = true).
  { rewrite H1 in Hss. by apply single_spaced_app in Hss as [_ ?]. }
  rewrite Hx in Hssx. apply single_spaced_app in Hssx as [Hssy _].
  rewrite Hssy, rev_involutive. unfold y at 2. rewrite trimStart_head.
  rewrite andb_true_r. simpl. apply negb_true_iff.
  destruct (rev y) as [|c l] eqn:Hy; [done|].
  pose proof (trimStart_head s) as Hhd. fold x in Hhd.
  rewrite Hx in Hhd. by rewrite fits_head_app in Hhd.
Qed.

Lemma cleaned_of_tidy (raw : jsstring) : tidy (cleaned_of raw) = true.
Proof.
  unfold cleaned_of. cbv zeta. apply trim_tidy.
  by apply (collapse_single_spaced _ [] _ (le_n _)).
Qed.


(** *** Sentences *)

Lemma exec_sentence_end sn s :
  exec re_sentence_end sn s =
    match sn with
    | c0 :: _ => if oneof ".!?" c0 then exec (Rep is_space 1 true) sn s else None
    | [] => None
    end.
Proof.
  unfold exec, re_sentence_end. cbn [matches seen rest caps code N_sym].
  destruct sn as [|c0 sn]; [done|].
  destruct (oneof ".!?" c0); [|done].
  cbn [flat_map]. by rewrite app_nil_r.
Qed.

Lemma split_loop_nonempty r skip (cur sn rs : jsstring) :
  split_loop r skip cur sn rs ≠ [].
Proof.
  revert skip cur sn. induction rs as [|c rs IH]; intros skip cur sn; simpl; [done|].
  destruct skip; [|apply IH].
  destruct (exec r sn (c :: rs)); [|apply IH].
  destruct (matched (c :: rs) m), cur; try done; apply IH.
Qed.

Lemma join_cons (sep x : jsstring) l :
  l ≠ [] → join sep (x :: l) = x ++ sep ++ join sep l.
Proof. by destruct l. Qed.

Lemma fits_rev_cons p c (s : jsstring) :
  s ≠ [] → fits [p] (rev (c :: s)) = fits [p] (rev s).
Proof.
  intros Hne. simpl. apply fits_head_app.
  intros Hrev. apply (f_equal (@rev N)) in Hrev.
  rewrite rev_involutive in Hrev. done.
Qed.

(** On tidy text the separators are the single blanks after a full stop,
    an exclamation mark or a question mark; the pieces between them are
    not empty, have no blank at either end, and give the text back when
    joined by blanks. *)
Lemma split_loop_tidy rs : ∀ cur sn,
  single_spaced rs = true →
  fits [is_space] (rev rs) = false →
  (cur = [] → rs ≠ [] ∧ fits [is_space] rs = false) →
  (cur ≠ [] → head sn = head cur ∧ fits [is_space] (rev cur) = false) →
  (rs = [] → fits [is_space] cur = false) →
  let pieces := split_loop re_sentence_end 0 cur sn rs in
  join (str " ") pieces = rev cur ++ rs
  ∧ Forall (λ p, p ≠ [] ∧ fits [is_space] p = false
                 ∧ fits [is_space] (rev p) = false) pieces.
Proof.
  induction rs as [|c rs IH]; intros cur sn Hss Hlast Hstart Hcur Hend pieces.
  - subst pieces. simpl. rewrite app_nil_r.
    assert (Hne : cur ≠ []) by (intros ->; by destruct Hstart).
    destruct (Hcur Hne) as [_ Hfirst].
    split; [done|]. apply Forall_singleton. split_and!; [|done|].
    + intros Hrev. apply (f_equal (@rev N)) in Hrev.
      by rewrite rev_involutive in Hrev.
    + rewrite rev_involutive. by apply Hend.
  - cbn [single_spaced] in Hss. apply andb_prop in Hss as [Hc Hss].
    assert (Hlast' : fits [is_space] (rev rs) = false).
    { destruct rs as [|c' rs']; [done|]. by rewrite fits_rev_cons in Hlast. }
    assert (Hend' : rs = [] → is_space c = false).
    { intros ->. simpl in Hlast. by rewrite andb_true_r in Hlast. }
    assert (Hgrow : is_space c = false ∨ cur ≠ [] →
              fits [is_space] (rev (c :: cur)) = false).
    { intros Hor. destruct cur as [|c1 cur].
      - destruct Hor as [Hsp|?]; [|done]. simpl. by rewrite Hsp.
      - rewrite fits_rev_cons by done. by apply Hcur. }
    assert (Hmiss : is_space c = false ∨ cur ≠ [] →
              exec re_sentence_end sn (c :: rs) = None →
              join (str " ") pieces = rev cur ++ c :: rs
              ∧ Forall (λ p, p ≠ [] ∧ fits [is_space] p = false
                             ∧ fits [is_space] (rev p) = false) pieces).
    { intros Hor Hex. subst pieces. cbn [split_loop]. rewrite Hex.
      destruct (IH (c :: cur) (c :: sn)) as [Hjoin Hall]; try done.
      - intros _. split; [done|]. by apply Hgrow.
      - intros ->. simpl. rewrite andb_true_r. by apply Hend'.
      - split; [|done]. rewrite Hjoin. simpl. by rewrite <- app_assoc. }
    rewrite exec_sentence_end in Hmiss.
    destruct (is_space c) eqn:Hsp.
    + (* a blank: a separator when it follows a sentence end *)
      apply andb_prop in Hc as [Hc32%N.eqb_eq Hnext%negb_true_iff].
      assert (Hne : cur ≠ []).
      { intros ->. destruct Hstart as [_ Hhd]; [done|]. simpl in Hhd.
        by rewrite Hsp in Hhd. }
      destruct (Hcur Hne) as [Hhead Hfirst].
      destruct cur as [|c0 cur]; [done|]. destruct sn as [|c0' sn]; [done|].
      injection Hhead as ->.
      destruct (oneof ".!?" c0) eqn:Hpunct; [|by apply Hmiss; [right|]].
      clear Hmiss. subst pieces. cbn [split_loop].
      rewrite exec_sentence_end, Hpunct, exec_run. cbn [code N_sym].
      rewrite Hsp, span_stop by done.
      assert (Hm : matched (c :: rs) (MState (c :: c0 :: sn) rs []) = 1%nat).
      { unfold matched. simpl. lia. }
      rewrite Hm.
      destruct (IH [] (c :: c0 :: sn)) as [Hjoin Hall]; try done.
      * intros _. split; [|done]. intros ->. specialize (Hend' eq_refl). done.
      * split.
        -- rewrite join_cons by apply split_loop_nonempty.
           rewrite Hjoin, Hc32. cbn [rev app]. by rewrite <- !app_assoc.
        -- apply Forall_cons. split; [|done]. split_and!; [|done|].
           ++ simpl. by destruct (rev cur).
           ++ rewrite rev_involutive. simpl. rewrite andb_true_r.
              destruct (is_space c0) eqn:Hsp0; [|done].
              exfalso. revert Hpunct Hsp0. clear.
              unfold oneof. simpl. intros Hp Hs.
              repeat (apply orb_prop in Hp as [Hp|Hp]);
                try (apply N.eqb_eq in Hp; subst c0; vm_compute in Hs; done).
              done.
    + apply Hmiss; [by left|].
      destruct sn as [|c0 sn]; [done|]. destruct (oneof ".!?" c0); [|done].
      rewrite exec_run. cbn [code N_sym]. by rewrite Hsp.
Qed.

Lemma split_tidy s :
  tidy s = true → s ≠ [] →
  let pieces := split re_sentence_end s in
  join (str " ") pieces = s
  ∧ Forall (λ p, p ≠ [] ∧ fits [is_space] p = false
                 ∧ fits [is_space] (rev p) = false) pieces.
Proof.
  intros [[Hss Hhd%negb_true_iff]%andb_prop Hlast%negb_true_iff]%andb_prop Hne.
  unfold split. destruct s as [|c s]; [done|].
  by apply (split_loop_tidy (c :: s) [] []).
Qed.

(** Trimming the pieces and dropping the empty ones changes nothing. *)
Lemma sentences_of_tidy s :
  tidy s = true → s ≠ [] →
  sentences_of s = split re_sentence_end s
  ∧ join (str " ") (sentences_of s) = s
  ∧ Forall (λ p, p ≠ []) (sentences_of s).
Proof.
  intros Ht Hne. destruct (split_tidy s Ht Hne) as [Hjoin Hall].
  assert (Heq : sentences_of s = split re_sentence_end s).
  { clear Hjoin. unfold sentences_of. induction Hall as [|p l (Hp & Hhd & Hlast) _ IH]; [done|].
    simpl. rewrite trim_id by done. destruct p; [done|]. simpl. by rewrite IH. }
  rewrite Heq. split_and!; [done..|].
  eapply Forall_impl; [exact Hall|]. by intros p (? & _).
Qed.

Lemma join_take_prefix (sep : jsstring) n l :
  ∃ rest, join sep l = join sep (take n l) ++ rest.
Proof.
  revert n. induction l as [|x l IH]; intros [|n]; simpl; try by eexists.
  destruct (IH n) as [rest Hrest].
  destruct l as [|y l]; [exists []; destruct n; simpl; by rewrite app_nil_r|].
  destruct n as [|n]; [exists (sep ++ join sep (y :: l)); done|].
  exists rest. cbn [take] in *. rewrite Hrest. by rewrite <- !app_assoc.
Qed.

(** C4: when the cleaned text is not empty, [handleGenerateSummary] stores
    under the message id the first three sentences of the cleaned text (all
    of them when there are fewer) joined by single blanks. The sentences
    are the pieces of the split, none of them empty, and joined by single
    blanks in their order they are the cleaned text itself: the summary
    is the beginning of the cleaned text, verbatim. *)
Theorem summary_first_sentences (content messageId : jsstring) (st : state) :
  cleaned_of content ≠ [] →
  let cleaned := cleaned_of content in
  let sentences := sentences_of cleaned in
  summaryByMessage (handleGenerateSummary content messageId st) !! messageId
    = Some (join (str " ") (take 3 sentences))
  ∧ sentences = split re_sentence_end cleaned
  ∧ join (str " ") sentences = cleaned
  ∧ Forall (λ p, p ≠ []) sentences
  ∧ ∃ rest, cleaned = join (str " ") (take 3 sentences) ++ rest.
Proof.
  intros Hne cleaned sentences.
  destruct (sentences_of_tidy cleaned (cleaned_of_tidy content) Hne)
    as (Hsplit & Hjoin & Hall).
  split_and!; [|done..|].
  - unfold handleGenerateSummary. cbv zeta. fold cleaned. fold sentences.
    destruct cleaned; [done|]. simpl. apply lookup_insert_eq.
  - destruct (join_take_prefix (str " ") 3 sentences) as [rest Hrest].
    exists rest. by rewrite <- Hrest.
Qed.

(** With an empty cleaned text nothing is stored. *)
Lemma summary_nothing (content messageId : jsstring) (st : state) :
  cleaned_of content = [] → handleGenerateSummary content messageId st = st.
Proof. unfold handleGenerateSummary. cbv zeta. by intros ->. Qed.

Lemma summary_first_sentences_witness :
  let content := str "# Plan" ++ LF ++ str "Ship it.  Then rest! Why? Because." in
  cleaned_of content ≠ []
  ∧ summaryByMessage (handleGenerateSummary content (str "m1") empty_state)
      !! str "m1" = Some (str "Plan Ship it. Then rest! Why?").
Proof.
  intros content.
  assert (Hne : cleaned_of content ≠ []) by (vm_compute; discriminate).
  split; [exact Hne|].
  exact (proj1 (summary_first_sentences content (str "m1") empty_state Hne)).
Defined.

(** *** The stable sort *)

Lemma sort_insert_perm {T} (cmp : T → T → Z) x l : sort_insert cmp x l ≡ₚ x :: l.
Proof.
  induction l as [|y l IH]; simpl; [done|].
  destruct (cmp x y <=? 0)%Z; [done|]. rewrite IH. apply Permutation_swap.
Qed.

Lemma sort_perm {T} (cmp : T → T → Z) l : sort cmp l ≡ₚ l.
Proof.
  induction l as [|x l IH]; simpl; [done|].
  unfold sort in *. simpl. by rewrite sort_insert_perm, IH.
Qed.

(** Sorting by a score, larger first. *)
Lemma sort_insert_sorted {T} (f : T → Z) x l :
  StronglySorted (λ a b, f b ≤ f a)%Z l →
  StronglySorted (λ a b, f b ≤ f a)%Z (sort_insert (λ a b, f b - f a)%Z x l).
Proof.
  induction 1 as [|y l Hs IH Hy]; simpl.
  - by repeat constructor.
  - destruct (Z.leb_spec (f y - f x) 0).
    + constructor; [by constructor|].
      constructor; [lia|]. eapply Forall_impl; [exact Hy|]. simpl. intros; lia.
    + constructor; [done|].
      rewrite sort_insert_perm. constructor; [lia|done].
Qed.

Lemma sort_sorted {T} (f : T → Z) l :
  StronglySorted (λ a b, f b ≤ f a)%Z (sort (λ a b, f b - f a)%Z l).
Proof.
  induction l as [|x l IH]; [constructor|]. by apply sort_insert_sorted.
Qed.


Lemma highlights_nothing (content messageId : jsstring) (st : state) :
  cleaned_of content = [] → handleGenerateHighlights content messageId st = st.
Proof. unfold handleGenerateHighlights. cbv zeta. by intros ->. Qed.


Example highlights_example :
  highlightsByMessage
    (handleGenerateHighlights
       (str "One. Two is longer! Three? Four four. Five. Six is the longest.")
       (str "m1") empty_state) !! str "m1"
  = Some [str "Six is the longest."; str "Two is longer!"; str "Four four.";
          str "Three?"; str "Five."].
Proof. vm_compute. reflexivity. Qed.

(** *** The order of the highlights *)

(** The sort is stable: what has one score keeps its order. *)
Lemma sort_insert_stable {T} (f : T → Z) (k : Z) x l :
  filter (λ y, f y = k) (sort_insert (λ a b, f b - f a)%Z x l)
  = filter (λ y, f y = k) (x :: l).
Proof.
  induction l as [|y l IH]; simpl; [done|].
  destruct (Z.leb_spec (f y - f x) 0); [done|].
  destruct (decide (f y = k)) as [Hy|Hy].
  - rewrite filter_cons_True by done. rewrite IH.
    rewrite (filter_cons_False _ x) by lia.
    rewrite (filter_cons_False _ x) by lia.
    by rewrite filter_cons_True by done.
  - rewrite filter_cons_False by done. rewrite IH.
    destruct (decide (f x = k)) as [Hx|Hx].
    + rewrite !(filter_cons_True _ x) by done. by rewrite filter_cons_False by done.
    + rewrite !(filter_cons_False _ x) by done. by rewrite filter_cons_False by done.
Qed.

Lemma sort_stable {T} (f : T → Z) (k : Z) l :
  filter (λ y, f y = k) (sort (λ a b, f b - f a)%Z l) = filter (λ y, f y = k) l.
Proof.
  induction l as [|x l IH]; [done|].
  unfold sort in *. cbn [foldr]. rewrite sort_insert_stable.
  destruct (decide (f x = k)).
  - rewrite !(filter_cons_True _ x) by done. by rewrite IH.
  - rewrite !(filter_cons_False _ x) by done. by rewrite IH.
Qed.

Lemma filter_take_prefix {T} (P : T → Prop) `{∀ x, Decision (P x)} n (l : list T) :
  filter P (take n l) `prefix_of` filter P l.
Proof.
  rewrite <- (take_drop n l) at 2. rewrite filter_app. by apply prefix_app_r.
Qed.

Lemma filter_map_text (k : Z) (l : list scored_sentence) :
  Forall (λ x, score x = capped_length (text x)) l →
  filter (λ s, capped_length s = k) (List.map text l)
  = List.map text (filter (λ x, score x = k) l).
Proof.
  induction 1 as [|x l Hx _ IH]; [done|]. cbn [List.map].
  destruct (decide (score x = k)) as [Hk|Hk].
  - rewrite !filter_cons_True by congruence. cbn [List.map]. by rewrite IH.
  - rewrite !filter_cons_False by congruence. done.
Qed.

Lemma sorted_map_text (l : list scored_sentence) :
  Forall (λ x, score x = capped_length (text x)) l →
  StronglySorted (λ a b, score b ≤ score a)%Z l →
  StronglySorted (λ a b, capped_length b ≤ capped_length a)%Z (List.map text l).
Proof.
  intros Hall. induction 1 as [|x l Hs IH Hx]; [constructor|].
  apply Forall_cons in Hall as [Hsx Hall]. cbn [List.map].
  constructor; [by apply IH|].
  apply Forall_forall. intros e He.
  apply list_elem_of_In, in_map_iff in He as (y & <- & Hy%list_elem_of_In).
  rewrite <- Hsx, <- (proj1 (Forall_forall _ _) Hall y Hy).
  by apply (proj1 (Forall_forall _ _) Hx).
Qed.

Lemma StronglySorted_take {T} (R : T → T → Prop) n (l : list T) :
  StronglySorted R l → StronglySorted R (take n l).
Proof.
  intros Hs. revert n. induction Hs as [|x l Hs IH Hx]; intros [|n]; simpl;
    try constructor; [apply IH|].
  apply Forall_forall. intros y Hy%subseteq_take.
  by apply (proj1 (Forall_forall _ _) Hx).
Qed.

(** X5: The highlights are listed from the highest score (length capped at
    300) down, and sentences of one score stand in the order they have in
    the text: the highlights of a score are the first sentences of that
    score. So among sentences of 300 code units or more the earlier ones
    win, whatever their lengths. *)
Theorem highlights_ranked (content messageId : jsstring) (st : state) :
  cleaned_of content ≠ [] →
  ∃ top,
    highlightsByMessage (handleGenerateHighlights content messageId st) !! messageId
      = Some top
    ∧ StronglySorted (λ a b, capped_length b ≤ capped_length a)%Z top
    ∧ ∀ k, filter (λ s, capped_length s = k) top
           `prefix_of` filter (λ s, capped_length s = k) (sentences_of (cleaned_of content)).
Proof.
  intros Hne. set (sentences := sentences_of (cleaned_of content)).
  set (scored := List.map (λ s, Scored s (Z.min (Z.of_nat (length s)) 300)) sentences).
  set (sorted := sort (λ a b, score b - score a)%Z scored).
  assert (Hscored : Forall (λ x, score x = capped_length (text x)) scored).
  { apply Forall_forall. intros x Hx. unfold scored in Hx.
    by apply list_elem_of_In, in_map_iff in Hx as (s & <- & _). }
  assert (Hsorted : Forall (λ x, score x = capped_length (text x)) sorted).
  { unfold sorted. by rewrite sort_perm. }
  assert (Htext : List.map text scored = sentences).
  { unfold scored. rewrite List.map_map. simpl. apply List.map_id. }
  exists (List.map text (take 5 sorted)). split_and!.
  - unfold handleGenerateHighlights. cbv zeta. fold sentences. fold scored. fold sorted.
    destruct (cleaned_of content); [done|]. simpl. apply lookup_insert_eq.
  - apply sorted_map_text.
    + apply Forall_forall. intros x Hx%subseteq_take.
      by apply (proj1 (Forall_forall _ _) Hsorted).
    + apply StronglySorted_take, sort_sorted.
  - intros k. rewrite <- Htext.
    rewrite !filter_map_text; [|done|].
    + rewrite <- (sort_stable score k scored). fold sorted.
      destruct (filter_take_prefix (λ x, score x = k) 5 sorted) as [tl Htl].
      rewrite Htl, List.map_app. by eexists.
    + apply Forall_forall. intros x Hx%subseteq_take.
      by apply (proj1 (Forall_forall _ _) Hsorted).
Qed.

Lemma highlights_ranked_witness :
  let content := str "Bb. A. Cc. D." in
  cleaned_of content ≠ []
  ∧ ∃ top,
      highlightsByMessage (handleGenerateHighlights content (str "m1") empty_state)
        !! str "m1" = Some top
      ∧ StronglySorted (λ a b, capped_length b ≤ capped_length a)%Z top
      ∧ ∀ k, filter (λ s, capped_length s = k) top
             `prefix_of` filter (λ s, capped_length s = k) (sentences_of (cleaned_of content)).
Proof.
  intros content.
  assert (Hne : cleaned_of content ≠ []) by (vm_compute; discriminate).
  split; [exact Hne|].
  exact (highlights_ranked content (str "m1") empty_state Hne).
Defined.

(** X6: A text of at most three sentences is summarised by all of its cleaned
    text: the summary leaves nothing out. *)
Theorem summary_of_short_text (content messageId : jsstring) (st : state) :
  cleaned_of content ≠ [] →
  (length (sentences_of (cleaned_of content)) ≤ 3)%nat →
  summaryByMessage (handleGenerateSummary content messageId st) !! messageId
  = Some (cleaned_of content).
Proof.
  intros Hne Hlen.
  destruct (sentences_of_tidy _ (cleaned_of_tidy content) Hne) as (_ & Hjoin & _).
  unfold handleGenerateSummary. cbv zeta.
  rewrite take_ge by done. rewrite Hjoin.
  destruct (cleaned_of content); [done|]. simpl. apply lookup_insert_eq.
Qed.

Lemma summary_of_short_text_witness :
  let content := str "**Done.**  It   works!" in
  cleaned_of content ≠ []
  ∧ (length (sentences_of (cleaned_of content)) ≤ 3)%nat
  ∧ summaryByMessage (handleGenerateSummary content (str "m1") empty_state) !! str "m1"
    = Some (cleaned_of content).
Proof.
  intros content.
  assert (Hne : cleaned_of content ≠ []) by (vm_compute; discriminate).
  assert (Hlen : (length (sentences_of (cleaned_of content)) ≤ 3)%nat).
  { vm_compute. lia. }
  split; [exact Hne|]. split; [exact Hlen|].
  exact (summary_of_short_text content (str "m1") empty_state Hne Hlen).
Defined.

End Insights.

(** ** Export chains *)

Module Chains.
Import JS Regex RegexFacts ChatMessagesView.

(** A class of the pattern is refuted on a code unit by running through
    the code units it accepts. *)
Ltac refute_class E :=
  repeat match type of E with
    | (_ || _) = true => apply orb_prop in E as [E|E]
    | (_ && _) = true => let E' := fresh in apply andb_prop in E as [E' E];
                         try (vm_compute in E'; discriminate E')
    end;
  try (apply N.eqb_eq in E; subst);
  repeat match goal with
    | H : _ = true |- _ => vm_compute in H; discriminate H
    | H : _ = false |- _ => vm_compute in H; discriminate H
    end.

Ltac class_fails :=
  match goal with
  | |- ?b = false =>
      let E := fresh "E" in
      destruct b eqn:E;
      [exfalso; cbv beta in E; cbn [code N_sym] in E; solve [refute_class E]
      |reflexivity]
  end.

Ltac nth_fails i :=
  eapply (fits_nth_false _ _ i);
  [reflexivity|reflexivity|first [by vm_compute|class_fails]].

Ltac close_tag_fails :=
  repeat (apply tails_cons; [by vm_compute|]); apply tails_nil; by vm_compute.

(** *** Fenced code in the plain-text copy *)

Section Fences.
Implicit Types (s t b : jsstring) (d : fenced) (x y : list traced).

Local Abbreviation F3 := [backtick; backtick; backtick].
Local Abbreviation strip x := (replace_loop false re_fence [] 0 false x).

Lemma untrace_trace_from k s : untrace (trace_from k s) = s.
Proof. revert k. induction s as [|c s IH]; intros k; simpl; [done|]. by rewrite IH. Qed.

Lemma length_trace_from k s : length (trace_from k s) = length s.
Proof. revert k. induction s as [|c s IH]; intros k; simpl; [done|]. by rewrite IH. Qed.

Lemma trace_from_app k s1 s2 :
  trace_from k (s1 ++ s2) = trace_from k s1 ++ trace_from (k + length s1) s2.
Proof.
  revert k. induction s1 as [|c s1 IH]; intros k; simpl.
  - by rewrite Nat.add_0_r.
  - rewrite IH. do 3 f_equal. lia.
Qed.

Lemma trace_from_origin k s (e : traced) :
  e ∈ trace_from k s → ∃ i, e.2 = Some i ∧ (k ≤ i < k + length s)%nat.
Proof.
  revert k. induction s as [|c s IH]; intros k; simpl.
  - by intros ?%elem_of_nil.
  - intros [->|Hin]%elem_of_cons.
    + exists k. simpl. split; [done|lia].
    + apply IH in Hin as (i & Hi & Hle). exists i. split; [done|lia].
Qed.

Lemma fits_traced ps x : fits ps x = fits ps (untrace x).
Proof. symmetry. by apply (fits_map fst). Qed.

(** What [re_fence] matches at a position: three backticks, and all up
    to the next three. *)
Lemma exec_fence {A} `{Sym A} (sn rs : list A) :
  exec re_fence sn rs =
    if fits F3 rs
    then (λ '(sn', rs'), MState sn' rs' [])
           <$> find_fit F3 (rev (take 3 rs) ++ sn) (drop 3 rs)
    else None.
Proof.
  unfold exec, re_fence. cbn [matches]. rewrite matches_Lit. cbn [rest seen caps].
  change (N.eqb <$> str "```") with F3.
  destruct (fits F3 rs); [|done].
  cbn [flat_map rep_min]. rewrite app_nil_r.
  apply (lazy_then_lits (str "```")).
Qed.

Lemma has_fence_tail l1 l2 : has_fence (l1 ++ l2) = false → fits F3 l2 = false.
Proof.
  induction l1 as [|c l1 IH]; simpl.
  - destruct l2; simpl; [done|]. by intros [? _]%orb_false_elim.
  - by intros [_ ?%IH]%orb_false_elim.
Qed.

Lemma quiet_last l z : quiet (l ++ [z]) = true → backtick z = false.
Proof.
  unfold quiet. rewrite rev_app_distr. simpl.
  intros [_ Hz]%andb_prop. rewrite andb_true_r in Hz. by apply negb_true_iff.
Qed.

(** No fence starts inside a quiet stretch, whatever follows it. *)
Lemma quiet_no_fence s l1 l2 rs :
  quiet s = true → s = l1 ++ l2 → l2 ≠ [] → fits F3 (l2 ++ rs) = false.
Proof.
  intros Hq -> Hne.
  assert (Hin : fits F3 l2 = false).
  { apply andb_prop in Hq as [Hq _]. apply negb_true_iff in Hq.
    by apply has_fence_tail in Hq. }
  destruct l2 as [|a [|b [|c l2]]]; [done|..].
  - apply (quiet_last l1) in Hq. simpl. by rewrite Hq.
  - replace (l1 ++ [a; b]) with ((l1 ++ [a]) ++ [b]) in Hq
      by by rewrite <- app_assoc.
    apply quiet_last in Hq.
    simpl. rewrite Hq. apply andb_false_r.
  - simpl in *. destruct (backtick a), (backtick b), (backtick c); done.
Qed.

Lemma quiet_no_fence_traced s k l1 l2 y :
  quiet s = true → trace_from k s = l1 ++ l2 → l2 ≠ [] → fits F3 (l2 ++ y) = false.
Proof.
  intros Hq Hs Hne. rewrite fits_traced. unfold untrace. rewrite List.map_app.
  apply (quiet_no_fence s (untrace l1)); [done| |by destruct l2].
  rewrite <- (untrace_trace_from k s), Hs. unfold untrace. by rewrite List.map_app.
Qed.

(** Quiet text before a block is copied. *)
Lemma strip_text t k sn y :
  quiet t = true →
  strip sn (trace_from k t ++ y) = trace_from k t ++ strip (rev (trace_from k t) ++ sn) y.
Proof.
  intros Hq. apply replace_loop_pass. intros l1 l2 Hs Hne.
  rewrite exec_fence. by rewrite (quiet_no_fence_traced t k l1 l2 y).
Qed.

(** A block is matched from its first delimiter to its second and
    dropped. *)
Lemma strip_block b k sn y :
  quiet b = true →
  ∃ sn', strip sn (trace_from k (fence ++ b ++ fence) ++ y) = strip sn' y.
Proof.
  intros Hq.
  set (B := trace_from k (fence ++ b ++ fence)).
  assert (HB : B = trace_from k fence ++ trace_from (k + 3) b
                   ++ trace_from (k + 3 + length b) fence).
  { unfold B. by rewrite !trace_from_app. }
  assert (Hfit : ∀ j z, fits F3 (trace_from j fence ++ z) = true) by done.
  assert (Hdrop : ∀ j z, drop 3 (trace_from j fence ++ z) = z) by done.
  assert (Hex : ∃ st, exec re_fence sn (B ++ y) = Some st ∧ rest st = y).
  { rewrite exec_fence, HB, <- !app_assoc, Hfit, Hdrop.
    rewrite find_fit_skip by (intros l1 l2; by apply quiet_no_fence_traced).
    rewrite find_fit_here by apply Hfit.
    eexists. split; [reflexivity|]. apply Hdrop. }
  destruct Hex as (st & Hex & Hrest).
  exists (seen st). rewrite (replace_loop_hit _ _ _ _ _ st) by
    (try done; destruct (exec_rest _ _ _ _ Hex) as (l & Hl & _ & ->);
     rewrite Hrest in Hl; intros Hz; apply nil_length_inv in Hz; subst l;
     apply (f_equal length) in Hl; rewrite length_app in Hl; unfold B in Hl;
     rewrite length_trace_from, !length_app in Hl; simpl in Hl; lia).
  by rewrite Hrest.
Qed.

Lemma in_delimiter_block d i : in_block d i = false → in_delimiter d i = false.
Proof.
  revert i. induction d as [|[t b] d IH]; intros i; simpl; [done|].
  repeat case_match; try done; try apply IH.
  all: repeat match goal with
         | H : (_ <? _)%nat = true |- _ => apply Nat.ltb_lt in H
         | H : (_ <? _)%nat = false |- _ => apply Nat.ltb_ge in H
         end; lia.
Qed.

(** After the first replacement nothing is left of the blocks. *)
Lemma strip_blocks d last k sn (e : traced) i :
  well_fenced d = true →
  e ∈ strip sn (trace_from k (render d last)) → e.2 = Some i →
  (k ≤ i)%nat ∧ in_block d (i - k) = false.
Proof.
  revert k sn. induction d as [|[t b] d IH]; intros k sn Hwf Hin Hi.
  - simpl in *. split; [|done].
    apply replace_loop_from in Hin as [Hin|(c & _ & ->)]; [|done].
    apply trace_from_origin in Hin as (j & Hj & Hle). rewrite Hi in Hj.
    injection Hj as <-. lia.
  - simpl in Hwf. apply andb_prop in Hwf as [[Ht Hb]%andb_prop Hwf].
    cbn [render] in Hin.
    rewrite trace_from_app, strip_text in Hin by done.
    rewrite (app_assoc fence), (app_assoc (fence ++ b)), <- (app_assoc fence) in Hin.
    rewrite trace_from_app in Hin.
    destruct (strip_block b (k + length t) (rev (trace_from k t) ++ sn)
                (trace_from (k + length t + length (fence ++ b ++ fence)) (render d last)) Hb)
      as [sn' Heq].
    rewrite Heq in Hin. clear Heq.
    rewrite !length_app in Hin. change (length fence) with 3%nat in Hin.
    apply elem_of_app in Hin as [Hin|Hin].
    + apply trace_from_origin in Hin as (j & Hj & Hle). rewrite Hi in Hj.
      injection Hj as <-. split; [lia|]. simpl.
      destruct (Nat.ltb_spec (i - k) (length t)); [done|lia].
    + apply IH in Hin as [Hle Hblock]; [|done..]. split; [lia|]. simpl.
      destruct (Nat.ltb_spec (i - k) (length t)); [lia|].
      destruct (Nat.ltb_spec (i - k) (length t + 3 + length b + 3)); [lia|].
      rewrite <- Hblock. f_equal. lia.
Qed.

Lemma trace_from_code k s (e : traced) : e ∈ trace_from k s → e.1 ∈ s.
Proof.
  revert k. induction s as [|c s IH]; intros k; simpl.
  - by intros ?%elem_of_nil.
  - intros [->|Hin]%elem_of_cons; [left|right; by eapply IH].
Qed.

(** What is left is text from outside the blocks. *)
Lemma strip_blocks_outside d last k sn (e : traced) :
  well_fenced d = true →
  e ∈ strip sn (trace_from k (render d last)) → e.1 ∈ outside d last.
Proof.
  revert k sn. induction d as [|[t b] d IH]; intros k sn Hwf Hin.
  - apply replace_loop_from in Hin as [Hin|(c & []%elem_of_nil & _)].
    by apply trace_from_code in Hin.
  - simpl in Hwf. apply andb_prop in Hwf as [[Ht Hb]%andb_prop Hwf].
    cbn [render] in Hin.
    rewrite trace_from_app, strip_text in Hin by done.
    rewrite (app_assoc fence), (app_assoc (fence ++ b)), <- (app_assoc fence) in Hin.
    rewrite trace_from_app in Hin.
    destruct (strip_block b (k + length t) (rev (trace_from k t) ++ sn)
                (trace_from (k + length t + length (fence ++ b ++ fence)) (render d last)) Hb)
      as [sn' Heq].
    rewrite Heq in Hin. clear Heq.
    unfold outside. cbn [flat_map fst]. rewrite <- app_assoc.
    apply elem_of_app in Hin as [Hin|Hin]; apply elem_of_app.
    + left. by apply trace_from_code in Hin.
    + right. by apply IH in Hin.
Qed.

(** Every later step only keeps or drops code units, or writes text of
    its own. *)
Lemma copy_plain_from {A} `{Sym A} (s : list A) (e : A) :
  e ∈ handleCopyPlainText_text s →
  e ∈ replace_loop false re_fence [] 0 false [] s ∨ e = lit 10.
Proof.
  unfold handleCopyPlainText_text. cbv zeta.
  intros He%trim_from.
  apply replace_all_u_from in He as [He|(c & []%elem_of_nil & _)].
  apply replace_all_from in He as [He|(c & Hc & ->)].
  2:{ right. by repeat (apply elem_of_cons in Hc as [->|Hc]);
        [..|apply elem_of_nil in Hc]. }
  do 3 (apply replace_all_from in He as [He|(c & []%elem_of_nil & _)]).
  apply replace_all_from in He as [He|(c & []%elem_of_nil & _)].
  by left.
Qed.

(** The run on symbols that carry their origin is the run on the bare
    code units. *)
Lemma copy_plain_untrace x :
  untrace (handleCopyPlainText_text x) = handleCopyPlainText_text (untrace x).
Proof.
  unfold handleCopyPlainText_text, untrace. cbv zeta.
  by rewrite <- trim_map, <- replace_all_u_map, <- !replace_all_map.
Qed.

(** Every code unit of the output is one of the text outside the blocks,
    or a line feed the chain wrote. *)
Lemma copy_plain_outside (d : fenced) (last : jsstring) c :
  well_fenced d = true →
  c ∈ handleCopyPlainText_text (render d last) → c ∈ outside d last ∨ c = 10.
Proof.
  intros Hwf Hc.
  rewrite <- (untrace_trace_from 0 (render d last)), <- copy_plain_untrace in Hc.
  apply list_elem_of_In, in_map_iff in Hc as (e & <- & He%list_elem_of_In).
  apply copy_plain_from in He as [He| ->]; [left|by right].
  by apply (strip_blocks_outside d last 0 []).
Qed.

(** In particular, when the text around the blocks has no backtick the
    output has none. *)
Corollary copy_plain_no_backtick (d : fenced) (last : jsstring) :
  well_fenced d = true →
  Forall (λ c, backtick c = false) (outside d last) →
  Forall (λ c, backtick c = false) (handleCopyPlainText_text (render d last)).
Proof.
  intros Hwf Hall. apply Forall_forall. intros c Hc.
  destruct (copy_plain_outside d last c Hwf Hc) as [Hin| ->]; [|done].
  by apply (proj1 (Forall_forall _ _) Hall).
Qed.

(** X28: in markdown with well-delimited fenced blocks, no code unit of
    the output of the plain-text copy comes from a block of the input:
    neither from one of its two triple-backtick delimiters nor from its
    body. The output is followed back to the input by running the chain on
    code units that carry their index; read without the indices, every
    code unit of the output is one of the text outside the blocks, or a
    line feed the chain wrote. *)
Theorem fences_stripped (d : fenced) (last : jsstring) :
  well_fenced d = true →
  let out := handleCopyPlainText_text (trace (render d last)) in
  untrace out = handleCopyPlainText_text (render d last)
  ∧ (∀ i, i ∈ origins out → in_delimiter d i = false ∧ in_block d i = false)
  ∧ (∀ c, c ∈ handleCopyPlainText_text (render d last) →
          c ∈ outside d last ∨ c = 10).
Proof.
  intros Hwf out.
  assert (Hout : untrace out = handleCopyPlainText_text (render d last)).
  { unfold out. by rewrite copy_plain_untrace, (untrace_trace_from 0). }
  split_and!; [done| |].
  - intros i Hi.
    assert (Hblock : in_block d i = false); [|by split; [apply in_delimiter_block|]].
    unfold origins in Hi. apply list_elem_of_omap in Hi as (e & He & Hsnd).
    apply copy_plain_from in He as [He| ->]; [|done].
    destruct (strip_blocks d last 0 [] e i Hwf He Hsnd) as [_ Hb].
    by rewrite Nat.sub_0_r in Hb.
  - intros c. by apply copy_plain_outside.
Qed.
End Fences.

Lemma fences_stripped_witness :
  let d : fenced := [(str "Run ", str "sh" ++ LF ++ str "ls" ++ LF); (str " or ", LF)] in
  well_fenced d = true
  ∧ ∀ i, i ∈ origins (handleCopyPlainText_text (trace (render d (str " then `quit`."))))
         → in_delimiter d i = false ∧ in_block d i = false.
Proof.
  intros d. split; [reflexivity|].
  exact (proj1 (proj2 (fences_stripped d (str " then `quit`.") eq_refl))).
Defined.

(** C9: a fenced block stays in the copy when three backticks of the text
    before it are taken for a delimiter. In [Use ```` to fence.] followed
    by a block of [js] code, the pattern pairs the first three of the four
    backticks with the opening delimiter of the block and removes what is
    between them; the body of the block and its closing delimiter, the
    code units 22 to 32 of the input, are copied. The comment above the
    pattern says that it removes code fences. *)
Theorem fence_left_behind :
  let d : fenced :=
    [(str "Use ```` to fence." ++ LF, str "js" ++ LF ++ str "code" ++ LF)] in
  let out := handleCopyPlainText_text (trace (render d [])) in
  render d []
  = str "Use ```` to fence." ++ LF ++ str "```js" ++ LF ++ str "code" ++ LF ++ str "```"
  ∧ handleCopyPlainText_text (render d [])
    = str "Use js" ++ LF ++ str "code" ++ LF ++ str "```"
  ∧ untrace out = handleCopyPlainText_text (render d [])
  ∧ origins out = seq 0 4 ++ seq 22 11
  ∧ forallb (in_block d) (seq 22 11) = true
  ∧ forallb (in_delimiter d) (seq 30 3) = true.
Proof. split_and!; vm_compute; reflexivity. Qed.

(** Three backticks in a row may still be in the output, put together
    from backticks that were apart in the input. *)
Example fence_from_elsewhere :
  well_fenced [([], [])] = true
  ∧ handleCopyPlainText_text (render [([], [])] (str "[``]`([)``")) = str "```".
Proof. split; vm_compute; reflexivity. Qed.

(** *** Two inputs run through the chains *)

(** C2: on ["**bold** and [a link](http://x.com)"] the chain of
    [handleCopyPlainText] gives ["**bold** and a link"], not
    ["bold and a link"]: the link is turned into its text, and the
    emphasis marks stay, since no pattern of the chain removes them. The
    comment above the function says that it strips basic markdown to
    produce clean plain text, and [cleanText], the clean-up of the PDF
    export, does take the marks off the same words. *)
Theorem copy_plain_scenario :
  handleCopyPlainText_text (str "**bold** and [a link](http://x.com)")
  = str "**bold** and a link"
  ∧ handleCopyPlainText_text (str "**bold** and [a link](http://x.com)")
    ≠ str "bold and a link"
  ∧ cleanText (str "**bold** and") = str "bold and".
Proof. split_and!; vm_compute; (reflexivity || discriminate). Qed.

(** C1: [cleanText] deletes a citation link whole, text included: the
    replacement is the empty string, where the comment above the pattern
    says it keeps the text. *)
Theorem cleanText_drops_citation :
  cleanText (str "See [source](http://x.com) now") = str "See now"
  ∧ cleanText (str "See [source](http://x.com) now") ≠ str "See source now".
Proof. split; vm_compute; [reflexivity|discriminate]. Qed.

End Chains.

(** ** The chat input, the attached files and the last answer *)

Module Forms.
Import JS Regex RegexFacts ChatMessagesView Insights.

(** [trim] leaves no white space at either end. *)
Lemma trim_ends (s : jsstring) :
  fits [is_space] (trim s) = false ∧ fits [is_space] (rev (trim s)) = false.
Proof.
  unfold trim, trimEnd.
  destruct (trimStart_suffix (rev (trimStart s))) as [l2 H2].
  set (x := trimStart s) in *. set (y := trimStart (rev x)) in *.
  assert (Hx : x = rev y ++ rev l2).
  { rewrite <- rev_app_distr, <- H2. by rewrite rev_involutive. }
  split.
  - destruct (rev y) as [|c l] eqn:Hy; [done|].
    pose proof (trimStart_head s) as Hhd. fold x in Hhd.
    rewrite Hx in Hhd. by rewrite fits_head_app in Hhd.
  - rewrite rev_involutive. apply trimStart_head.
Qed.

Section Input.
Context {F : Type}.
Implicit Types (s : jsstring * chat_state F) (e : bool * chat_event F).

Lemma form_onSubmit_proper (query : jsstring) (st : chat_state F) :
  query = trim query → query ≠ [] →
  Forall proper_call st.2 → Forall proper_call (form_onSubmit query st).2.
Proof.
  intros Htrim Hne Hall. unfold form_onSubmit. cbn [snd].
  apply Forall_app. split; [done|]. apply Forall_singleton.
  destruct (trim_ends query) as [Hhd Hlast]. rewrite <- Htrim in Hhd, Hlast.
  split_and!; [done..|]. cbn [snd]. by destruct st.1.
Qed.

Lemma trim_trim (v : jsstring) : trim v = trim (trim v).
Proof. destruct (trim_ends v) as [Hhd Hlast]. by rewrite (trim_id (trim v)). Qed.

Lemma handleSubmit_proper isLoading (box : jsstring) (st : chat_state F) :
  Forall proper_call st.2 →
  Forall proper_call
    (InputForm.parent (InputForm.handleSubmit form_onSubmit isLoading box st)).2.
Proof.
  intros Hall. unfold InputForm.handleSubmit.
  destruct (trim box) as [|c v] eqn:Hbox; [done|].
  destruct isLoading; [done|]. cbn [negb InputForm.parent].
  apply form_onSubmit_proper; [|done..].
  rewrite <- Hbox. apply trim_trim.
Qed.

Lemma chat_step_proper s e :
  Forall proper_call s.2.2 → Forall proper_call (chat_step s e).2.2.
Proof.
  destruct s as [box st], e as [isLoading ev]. cbn [snd]. intros Hall.
  destruct ev as [v|key shift| |files|index|]; cbn [chat_step snd]; try done.
  - unfold InputForm.handleKeyDown.
    destruct (bool_decide (key = str "Enter") && negb shift); [|done].
    by apply handleSubmit_proper.
  - by apply handleSubmit_proper.
Qed.

(** X7: Whatever the user does at the chat input, in whatever order, the
    parent is only ever called with a query that is not empty and has no
    white space at either end, and with a list of files only when there
    is at least one. *)
Theorem chat_input_calls (events : list (bool * chat_event F)) s :
  Forall proper_call s.2.2 →
  Forall proper_call (chat_session events s).2.2.
Proof.
  unfold chat_session. revert s.
  induction events as [|e events IH]; intros s Hall; [done|].
  cbn [foldl]. by apply IH, chat_step_proper.
Qed.

(** X8: While the form is loading nothing is sent: an event that comes with
    [isLoading] leaves the calls of the parent, and the text of the box
    unless the event is typing, as they are. And an event that does send
    sends the trimmed text of the box, empties the box and empties the
    selection of files. *)
Theorem chat_input_step s e :
  let s' := chat_step s e in
  (e.1 = true → s'.2.2 = s.2.2)
  ∧ (s'.2.2 = s.2.2
     ∨ s'.2.2 = s.2.2 ++ [(trim s.1, match s.2.1 with [] => None | fs => Some fs end)]
       ∧ s'.1 = [] ∧ s'.2.1 = [] ∧ e.1 = false).
Proof.
  destruct s as [box st], e as [isLoading ev]. cbn [fst snd].
  assert (Hsub : ∀ h, h = InputForm.handleSubmit form_onSubmit isLoading box st →
    (isLoading = true → (InputForm.parent h).2 = st.2)
    ∧ ((InputForm.parent h).2 = st.2
       ∨ (InputForm.parent h).2
         = st.2 ++ [(trim box, match st.1 with [] => None | fs => Some fs end)]
         ∧ InputForm.inputValue h = [] ∧ (InputForm.parent h).1 = []
         ∧ isLoading = false)).
  { intros h ->. unfold InputForm.handleSubmit.
    destruct (trim box) as [|c v] eqn:Hbox; [by split; [|left]|].
    destruct isLoading; [by split; [|left]|]. split; [done|]. right.
    cbn [negb InputForm.parent InputForm.inputValue form_onSubmit fst snd].
    split_and!; try done. by destruct st.1. }
  destruct ev as [v|key shift| |files|index|]; cbn [chat_step fst snd];
    try (split; [done|by left]).
  - unfold InputForm.handleKeyDown.
    destruct (bool_decide (key = str "Enter") && negb shift);
      [by apply Hsub|split; [done|by left]].
  - by apply Hsub.
Qed.
End Input.

Lemma chat_input_calls_witness :
  let events : list (bool * chat_event nat) :=
    [(false, Typed (str "  hello "));
     (false, FilesSelected (Some [1%nat; 2%nat]));
     (false, FileRemoved 0);
     (false, KeyDown (str "Enter") false);
     (false, Submitted)] in
  Forall proper_call (chat_session events ([], ([], []))).2.2
  ∧ (chat_session events ([], ([], []))).2.2 = [(str "hello", Some [2%nat])].
Proof.
  intros events. split; [|vm_compute; reflexivity].
  apply (chat_input_calls events ([], ([], []))). constructor.
Defined.

Section Selection.
Context {F : Type}.

Lemma filter_from_delete (index : Z) (i : nat) (l : list F) :
  filter_from (λ _ j, negb (Z.of_nat j =? index)%Z) i l
  = if (Z.of_nat i <=? index)%Z then delete (Z.to_nat index - i)%nat l else l.
Proof.
  revert i. induction l as [|x l IH]; intros i; cbn [filter_from].
  - by destruct (Z.of_nat i <=? index)%Z.
  - rewrite IH. destruct (Z.eqb_spec (Z.of_nat i) index) as [Heq|Hne]; cbn [negb].
    + rewrite (proj2 (Z.leb_gt _ _)) by lia. rewrite (proj2 (Z.leb_le _ _)) by lia.
      by replace (Z.to_nat index - i)%nat with 0%nat by lia.
    + destruct (Z.leb_spec (Z.of_nat i) index).
      * rewrite (proj2 (Z.leb_le _ _)) by lia.
        replace (Z.to_nat index - i)%nat with (S (Z.to_nat index - S i)) by lia. done.
      * by rewrite (proj2 (Z.leb_gt _ _)) by lia.
Qed.

(** X9: [handleRemoveFile] takes out the file at the index and no other, and
    with an index that is negative or past the end it leaves the
    selection as it is. *)
Theorem remove_file_at (index : Z) (prev : list F) :
  handleRemoveFile index prev
  = (if (0 <=? index)%Z then delete (Z.to_nat index) prev else prev)
  ∧ (length (handleRemoveFile index prev)
     = if bool_decide (0 ≤ index < Z.of_nat (length prev))%Z
       then pred (length prev) else length prev)
  ∧ ∀ j : nat, handleRemoveFile index prev !! j
               = prev !! (if bool_decide (0 ≤ index ≤ Z.of_nat j)%Z then S j else j).
Proof.
  assert (Heq : handleRemoveFile index prev
    = if (0 <=? index)%Z then delete (Z.to_nat index) prev else prev).
  { unfold handleRemoveFile, filter_indexed. rewrite filter_from_delete.
    change (Z.of_nat 0) with 0%Z. by rewrite Nat.sub_0_r. }
  rewrite Heq. split_and!; [done| |].
  - destruct (Z.leb_spec 0 index).
    + case_bool_decide.
      * rewrite length_delete; [lia|]. apply lookup_lt_is_Some. lia.
      * rewrite delete_take_drop, drop_ge, app_nil_r, take_ge by lia. done.
    + by rewrite bool_decide_eq_false_2 by lia.
  - intros j. destruct (Z.leb_spec 0 index).
    + case_bool_decide.
      * rewrite list_lookup_delete_ge by lia. done.
      * rewrite list_lookup_delete_lt by lia. done.
    + by rewrite bool_decide_eq_false_2 by lia.
Qed.
End Selection.

(** *** The names of the downloaded files *)

Lemma shortId_length (messageId : jsstring) :
  (1 ≤ length (shortId messageId) ≤ 8)%nat.
Proof.
  unfold shortId. rewrite length_take.
  destruct messageId; [vm_compute; lia|cbn [length]; lia].
Qed.

(** X10: The downloads of two messages get one name exactly when the ids agree
    on their first eight code units: the name holds no more of the id, so
    a later download of a message whose id starts like that of another
    takes the name of the earlier file. *)
Theorem download_name_same (extension : string) (a b : jsstring) :
  a ≠ [] → b ≠ [] →
  (download_name extension a = download_name extension b ↔ take 8 a = take 8 b)
  ∧ (length (download_name extension a) ≤ 13 + 8 + 1 + String.length extension)%nat.
Proof.
  intros Ha Hb. unfold download_name. split.
  - assert (Hsa : shortId a = take 8 a) by (by destruct a).
    assert (Hsb : shortId b = take 8 b) by (by destruct b).
    rewrite Hsa, Hsb. split; [|by intros ->].
    intros Heq%app_inv_head%app_inv_tail. done.
  - pose proof (shortId_length a). rewrite !length_app.
    assert (Hstr : ∀ x, length (str x) = String.length x).
    { intros x. unfold str. rewrite length_map. induction x; simpl; congruence. }
    rewrite !Hstr. simpl. lia.
Qed.

Lemma download_name_same_witness :
  let a := str "run-0001-a" in
  let b := str "run-0001-b" in
  a ≠ [] ∧ b ≠ [] ∧ a ≠ b
  ∧ download_name "pdf" a = download_name "pdf" b.
Proof.
  intros a b.
  assert (Ha : a ≠ []) by discriminate.
  assert (Hb : b ≠ []) by discriminate.
  split_and!; [done..|discriminate|].
  apply (proj1 (download_name_same "pdf" a b Ha Hb)). reflexivity.
Defined.

(** *** The last answer *)

Lemma find_rev_last {T} (p : T → bool) (l : list T) :
  match List.find p (rev l) with
  | Some m => ∃ l1 l2, l = l1 ++ m :: l2 ∧ p m = true ∧ Forall (λ x, p x = false) l2
  | None => Forall (λ x, p x = false) l
  end.
Proof.
  induction l as [|x l IH] using rev_ind; [simpl; constructor|].
  rewrite rev_app_distr. cbn [rev app List.find].
  destruct (p x) eqn:Hx.
  - exists l, []. done.
  - destruct (List.find p (rev l)) as [m|].
    + destruct IH as (l1 & l2 & -> & Hm & Hl2). exists l1, (l2 ++ [x]).
      split_and!; [by rewrite <- app_assoc|done|].
      apply Forall_app. split; [done|]. by apply Forall_singleton.
    + apply Forall_app. split; [done|]. by apply Forall_singleton.
Qed.

(** X11: [lastAiMessage] is the AI message after which there is no other AI
    message, and there is none only when no message is an AI message. *)
Theorem lastAiMessage_last (messages : list message) :
  match lastAiMessage messages with
  | Some m => ∃ before after,
      messages = before ++ m :: after ∧ is_ai m = true
      ∧ Forall (λ x, is_ai x = false) after
  | None => Forall (λ x, is_ai x = false) messages
  end.
Proof. apply find_rev_last. Qed.

(** X12: When the ids of the messages are pairwise distinct, the test the
    component makes for every message it shows holds for the last AI
    message and for no other message. *)
Theorem last_ai_message_only (messages : list message) (m : message) :
  NoDup (msg_id <$> messages) → m ∈ messages →
  isCurrentMessageTheLastAiMessage messages m = true ↔ lastAiMessage messages = Some m.
Proof.
  intros Hnd Hin. unfold isCurrentMessageTheLastAiMessage, lastAiMessageId.
  pose proof (find_rev_last is_ai messages) as Hlast. fold (lastAiMessage messages) in Hlast.
  destruct (lastAiMessage messages) as [m'|]; cbn [fmap option_fmap option_map].
  - destruct Hlast as (l1 & l2 & Hm & Hai & _).
    assert (Hin' : m' ∈ messages).
    { rewrite Hm. apply elem_of_app. right. left. }
    split.
    + intros [_ Hid%bool_decide_eq_true]%andb_prop. injection Hid as Hid.
      f_equal. symmetry.
      apply list_elem_of_lookup in Hin as [i Hi].
      apply list_elem_of_lookup in Hin' as [j Hj].
      assert (i = j) as ->.
      { eapply NoDup_lookup; [exact Hnd| |].
        - rewrite list_lookup_fmap, Hi. done.
        - rewrite list_lookup_fmap, Hj. simpl. by rewrite Hid. }
      congruence.
    + intros [= ->]. rewrite Hai. by rewrite bool_decide_eq_true_2.
  - split; [|done]. intros [_ Hid%bool_decide_eq_true]%andb_prop. done.
Qed.

Lemma last_ai_message_only_witness :
  let q := Message (str "1") human (str "Hi") None in
  let a1 := Message (str "2") ai (str "Hello.") None in
  let a2 := Message (str "3") ai (str "More.") None in
  isCurrentMessageTheLastAiMessage [q; a1; a2] a2 = true
  ↔ lastAiMessage [q; a1; a2] = Some a2.
Proof.
  intros q a1 a2. apply last_ai_message_only.
  - apply (bool_decide_unpack _). vm_compute. exact I.
  - repeat constructor.
Defined.

(** X19: Whenever the first of the two indicators is shown the second is
    shown, too: with no AI message in a list that has a human message the
    last message is a human message. The second alone is shown when an
    AI message came before the last human message. *)
Theorem thinking_twice (isLoading : bool) (messages : list message) :
  (thinking_first isLoading messages = true → thinking_second isLoading messages = true)
  ∧ (thinking_second isLoading messages = true →
     thinking_first isLoading messages = false ↔ lastAiMessage messages ≠ None).
Proof.
  unfold thinking_first, thinking_second.
  pose proof (find_rev_last is_ai messages) as Hlast.
  fold (lastAiMessage messages) in Hlast. split.
  - intros [[-> Hnone]%andb_prop Hsome]%andb_prop.
    destruct (lastAiMessage messages); [done|].
    destruct messages as [|m0 messages] using rev_ind; [done|].
    rewrite length_app. cbn [length]. clear IHmessages.
    replace (length messages + 1 - 1)%nat with (length messages) by lia.
    rewrite list_lookup_middle by done.
    apply Forall_app in Hlast as [_ Hm0]. apply Forall_inv in Hm0.
    rewrite Hm0. cbn [negb andb]. rewrite andb_true_r.
    apply Nat.ltb_lt. lia.
  - intros [[-> Hlen]%andb_prop Hhuman]%andb_prop. cbn [andb].
    destruct (lastAiMessage messages) as [m|]; [done|].
    split; [|done]. intros Hf. exfalso.
    destruct messages as [|m0 messages] using rev_ind; [done|].
    rewrite length_app in Hhuman. cbn [length] in Hhuman.
    replace (length messages + 1 - 1)%nat with (length messages) in Hhuman by lia.
    rewrite list_lookup_middle in Hhuman by done.
    cbn [andb] in Hf. rewrite existsb_app in Hf. cbn [existsb] in Hf.
    rewrite Hhuman in Hf. by rewrite orb_true_r in Hf.
Qed.

(** *** The summary panel *)


Lemma snippet_length (content : jsstring) :
  (length (snippet content) ≤ 153)%nat
  ∧ ((length content ≤ 150)%nat → snippet content = content)
  ∧ take 150 (snippet content) = take 150 content.
Proof.
  unfold snippet. destruct (Nat.ltb_spec 150 (length content)).
  - split_and!.
    + rewrite length_app, length_take. cbn [length str List.map list_ascii_of_string].
      lia.
    + lia.
    + rewrite take_app_le by (rewrite length_take; lia).
      rewrite take_take. by rewrite Nat.min_id.
  - rewrite app_nil_r. split_and!.
    + rewrite length_take. lia.
    + intros _. by apply take_ge.
    + rewrite take_take. by rewrite Nat.min_id.
Qed.



(** *** The chat box of the welcome screen *)

Lemma welcome_step_calls s e :
  Forall (λ query, trim query ≠ []) s.2 →
  Forall (λ query, trim query ≠ []) (WelcomeScreen.step s e).2.
Proof.
  destruct s as [message w], e as [isLoading ev]. cbn [snd]. intros Hall.
  assert (Hsub : Forall (λ query, trim query ≠ [])
    (WelcomeScreen.handleChatSubmit (λ query w, w ++ [query]) message w).2).
  { unfold WelcomeScreen.handleChatSubmit.
    destruct (trim message) as [|c v] eqn:Hm; [done|]. cbn [snd].
    apply Forall_app. split; [done|]. apply Forall_singleton. by rewrite Hm. }
  destruct ev as [v|key shift|]; cbn [WelcomeScreen.step]; [done| |].
  - unfold WelcomeScreen.onKeyPress.
    by destruct (bool_decide (key = str "Enter") && negb shift).
  - unfold WelcomeScreen.onClick.
    by destruct (WelcomeScreen.disabled isLoading message).
Qed.

(** X21: The welcome screen never sends a blank query, but it sends the text
    as it was typed, white space at the ends included, and the Enter key
    sends also while the screen is loading: only the button looks at
    [isLoading]. *)
Theorem welcome_screen_calls (events : list (bool * WelcomeScreen.event))
    (s : jsstring * list jsstring) (message : jsstring) (w : list jsstring)
    (isLoading : bool) :
  Forall (λ query, trim query ≠ []) s.2 →
  trim message ≠ [] →
  Forall (λ query, trim query ≠ []) (WelcomeScreen.session events s).2
  ∧ WelcomeScreen.step (message, w) (isLoading, WelcomeScreen.KeyPress (str "Enter") false)
    = ([], w ++ [message])
  ∧ WelcomeScreen.step (message, w) (true, WelcomeScreen.Click) = (message, w).
Proof.
  intros Hall Hmessage. split_and!.
  - unfold WelcomeScreen.session. revert s Hall.
    induction events as [|e events IH]; intros s Hall; [done|].
    cbn [foldl]. by apply IH, welcome_step_calls.
  - cbn [WelcomeScreen.step]. unfold WelcomeScreen.onKeyPress.
    rewrite bool_decide_eq_true_2 by done. cbn [negb andb].
    unfold WelcomeScreen.handleChatSubmit. by destruct (trim message).
  - done.
Qed.

Lemma welcome_screen_calls_witness :
  let events :=
    [(false, WelcomeScreen.Typed (str " hi "));
     (true, WelcomeScreen.Click);
     (true, WelcomeScreen.KeyPress (str "Enter") false)] in
  WelcomeScreen.session events ([], []) = ([], [str " hi "])
  ∧ Forall (λ query, trim query ≠ []) (WelcomeScreen.session events ([], [])).2.
Proof.
  intros events. split; [vm_compute; reflexivity|].
  refine (proj1 (welcome_screen_calls events ([], []) (str "x") [] true _ _)).
  - constructor.
  - vm_compute. discriminate.
Defined.

End Forms.

(** ** What the exports keep *)

Module Exports.
Import JS Regex RegexFacts ChatMessagesView Insights Forms.

(** X13: [cleanText] gives tidy text whatever it is given: every white space
    of the result is one blank between two other code units, so a line of
    the PDF has no blank at either end, no two blanks in a row, and no
    tab or line break. *)
Theorem cleanText_tidy (text : jsstring) : tidy (cleanText text) = true.
Proof.
  unfold cleanText. cbv zeta. apply trim_tidy.
  by apply (collapse_single_spaced _ [] _ (le_n _)).
Qed.

(** Under the [u] flag, too, a subject in which the pattern matches
    nowhere comes back unchanged. *)
Lemma replace_loop_u_id r t k (sn rs : jsstring) :
  (∀ l1 l2, rs = l1 ++ l2 → exec r (rev l1 ++ sn) l2 = None) →
  replace_loop true r t k true sn rs = rs.
Proof.
  revert k sn. induction rs as [|c rs IH]; intros k sn Hnone.
  - pose proof (Hnone [] [] eq_refl) as Hex. simpl in *. rewrite Hex. by destruct k.
  - assert (Hrs : ∀ l1 l2, rs = l1 ++ l2 → exec r (rev l1 ++ c :: sn) l2 = None).
    { intros l1 l2 ->. specialize (Hnone (c :: l1) l2 eq_refl). simpl in Hnone.
      by rewrite <- app_assoc in Hnone. }
    destruct k as [|k]; cbn [replace_loop].
    + pose proof (Hnone [] (c :: rs) eq_refl) as Hex. simpl in Hex. rewrite Hex.
      f_equal. by apply IH.
    + cbn [app]. f_equal. by apply IH.
Qed.

Lemma replace_all_u_id r t (s : jsstring) :
  (∀ l1 l2, s = l1 ++ l2 → exec r (rev l1) l2 = None) →
  replace_all_u r t s = s.
Proof.
  intros Hnone. unfold replace_all_u.
  rewrite (replace_loop_keep true r t false true).
  apply replace_loop_u_id. intros l1 l2 Hs. rewrite app_nil_r. by apply Hnone.
Qed.

(** One of the leading classes of the pattern is of code units the
    subject lacks. *)
Lemma no_fit_class_nth ps i p (s : jsstring) :
  ps !! i = Some p →
  Forall (λ c, p c = false) s →
  ∀ l1 l2, s = l1 ++ l2 → fits ps l2 = false.
Proof.
  intros Hp Hall l1 l2 ->. apply Forall_app in Hall as [_ Hall].
  destruct (l2 !! i) as [c|] eqn:Hc.
  - eapply fits_nth_false; [exact Hp|exact Hc|].
    apply (proj1 (Forall_forall _ _) Hall). by eapply list_elem_of_lookup_2.
  - apply fits_short. apply lookup_ge_None in Hc.
    apply lookup_lt_Some in Hp. lia.
Qed.

Lemma copy_chars (s : jsstring) :
  forallb copy_char s = true → Forall (λ c, copy_char c = true) s.
Proof.
  intros Hall. apply Forall_forall. intros c Hc.
  apply (proj1 (forallb_forall _ _) Hall). by apply list_elem_of_In.
Qed.

(** The steps of the chain on a subject they find nothing in. *)
Lemma step_without r t i p (s : jsstring) :
  (lead r).1 !! i = Some p →
  Forall (λ c, p c = false) s →
  replace_all r t s = s.
Proof.
  intros Hlead Hp. apply replace_all_no_fit. by apply (no_fit_class_nth _ i p).
Qed.

Lemma copy_step r t i p (s : jsstring) :
  (lead r).1 !! i = Some p →
  (∀ c, copy_char c = true → p c = false) →
  Forall (λ c, copy_char c = true) s →
  replace_all r t s = s.
Proof.
  intros Hlead Hp Hs. apply (step_without _ _ i p); [done|].
  eapply Forall_impl; [exact Hs|]. done.
Qed.

Lemma line_starts_tail at_start (x : jsstring) :
  line_starts_free at_start x = true →
  ∀ l1 l2 sn, x = l1 ++ l2 →
    (match sn with [] => true | c :: _ => is_line_terminator c end) = at_start →
    exec re_marker (rev l1 ++ sn) l2 = None.
Proof.
  revert at_start. induction x as [|c x IH]; intros at_start Hx l1 l2 sn Hsplit Hsn.
  - destruct l1, l2; try done. by apply exec_no_fit.
  - cbn [line_starts_free] in Hx. apply andb_prop in Hx as [Hc Hx].
    destruct l1 as [|c1 l1]; simpl in Hsplit.
    + subst l2. simpl. destruct at_start.
      * apply exec_no_fit. simpl. rewrite andb_true_r.
        simpl in Hc. by apply negb_true_iff in Hc.
      * unfold exec, re_marker. cbn [matches seen]. destruct sn as [|c0 sn]; [done|].
        cbn [code N_sym]. by rewrite Hsn.
    + injection Hsplit as <- ->. cbn [rev]. rewrite <- app_assoc. cbn [app].
      by apply (IH _ Hx).
Qed.

Lemma marker_step (s : jsstring) :
  line_starts_free true s = true → replace_all re_marker [] s = s.
Proof.
  intros Hlines. apply replace_loop_id. intros l1 l2 Hs. rewrite app_nil_r.
  pose proof (line_starts_tail true s Hlines l1 l2 [] Hs eq_refl) as Hex.
  by rewrite app_nil_r in Hex.
Qed.

Lemma blank_lines_tail (x : jsstring) :
  has_blank_lines x = false →
  ∀ l1 l2, x = l1 ++ l2 → fits [N.eqb 10; N.eqb 10; N.eqb 10] l2 = false.
Proof.
  induction x as [|c x IH]; intros Hx.
  - by apply tails_nil.
  - cbn [has_blank_lines] in Hx. apply orb_false_elim in Hx as [Hhd Hx].
    apply tails_cons; [done|]. by apply IH.
Qed.

Lemma blank_step (s : jsstring) :
  has_blank_lines s = false → replace_all re_blank_lines [TLit (LF ++ LF)] s = s.
Proof. intros Hb. apply replace_all_no_fit. by apply blank_lines_tail. Qed.

Lemma emoji_step (s : jsstring) :
  Forall (λ c, copy_char c = true) s → replace_all_u re_emoji [] s = s.
Proof.
  intros Hs. apply replace_all_u_id. intros l1 l2 ->.
  apply Forall_app in Hs as [_ Hall].
  unfold exec, re_emoji. cbn [matches rest].
  destruct Hall as [|c l2 Hc Hall]; [done|].
  assert (Hbmp : is_high_surrogate c = false
    ∧ (range 0x1F300 0x1FAFF c || range 0x2600 0x26FF c || range 0x2700 0x27BF c) = false).
  { unfold copy_char in Hc. apply andb_prop in Hc as [_ Hc].
    unfold is_high_surrogate, range in *.
    rewrite !orb_true_iff, !andb_true_iff, N.ltb_lt, !N.leb_le in Hc.
    rewrite !orb_false_iff, !andb_false_iff, !N.leb_gt. lia. }
  destruct Hbmp as [Hhi Hno].
  assert (Hcp : code_point (c :: l2) = Some (c, 1%nat)).
  { unfold code_point. cbn [code N_sym]. destruct l2; [done|]. by rewrite Hhi. }
  rewrite Hcp. by rewrite Hno.
Qed.

Lemma copy_free_unchanged (s : jsstring) :
  copy_free s = true → handleCopyPlainText_text s = trim s.
Proof.
  intros [[Hchars%copy_chars Hlines]%andb_prop Hblank%negb_true_iff]%andb_prop.
  unfold handleCopyPlainText_text. cbv zeta.
  rewrite (copy_step re_fence _ 0 _ _ eq_refl) by (done || intros c Hc; Chains.class_fails).
  rewrite (copy_step re_inline_code _ 0 _ _ eq_refl)
    by (done || intros c Hc; Chains.class_fails).
  rewrite marker_step by done.
  rewrite (copy_step re_link _ 0 _ _ eq_refl) by (done || intros c Hc; Chains.class_fails).
  rewrite (copy_step re_image _ 1 _ _ eq_refl) by (done || intros c Hc; Chains.class_fails).
  rewrite blank_step by done.
  by rewrite emoji_step.
Qed.

(** X14: The plain-text copy of text without markdown is the text itself,
    trimmed: when the content has no backtick, no opening bracket and no
    emoji, no line of it starts with a heading, quote or list mark, and it
    has no three line feeds in a row, every code unit between the first
    and the last that is not white space is copied as it is. *)
Theorem copy_plain_unchanged (content : jsstring) :
  copy_free content = true → handleCopyPlainText_text content = trim content.
Proof. apply copy_free_unchanged. Qed.

Lemma copy_plain_unchanged_witness :
  let content := str " Total (2024): 3 * 4 = 12" ++ LF ++ LF ++ str "a - b_c " in
  copy_free content = true
  ∧ handleCopyPlainText_text content
    = str "Total (2024): 3 * 4 = 12" ++ LF ++ LF ++ str "a - b_c".
Proof.
  intros content. split; [reflexivity|].
  exact (copy_plain_unchanged content eq_refl).
Defined.

(** X15: Whatever the content, the plain-text copy has no white space at
    either end, and it is made of code units of the content: the chain
    writes nothing of its own but line feeds. *)
Theorem copy_plain_made_of_content (content : jsstring) :
  let text := handleCopyPlainText_text content in
  fits [is_space] text = false
  ∧ fits [is_space] (rev text) = false
  ∧ ∀ c, c ∈ text → c ∈ content ∨ c = 10.
Proof.
  intros text. subst text. split_and!.
  - unfold handleCopyPlainText_text. cbv zeta. apply trim_ends.
  - unfold handleCopyPlainText_text. cbv zeta. apply trim_ends.
  - intros c [Hc| ->]%Chains.copy_plain_from; [|by right].
    apply replace_all_from in Hc as [Hc|(x & []%elem_of_nil & _)]. by left.
Qed.

(** *** One link in text without links *)

Lemma head_flat_map {T U} (f : T → list U) (l : list T) x y :
  head l = Some x → head (f x) = Some y → head (flat_map f l) = Some y.
Proof.
  destruct l as [|x' l]; [done|]. intros [= ->] Hy. simpl.
  destruct (f x); [done|]. by injection Hy as ->.
Qed.

(** The first match of a sequence is the first match of its second part
    after the first match of its first part, when there is one. *)
Lemma first_cat r1 r2 (st st1 st2 : mstate N) :
  head (matches r1 st) = Some st1 → head (matches r2 st1) = Some st2 →
  head (matches (r1 ⋅ r2) st) = Some st2.
Proof. intros. cbn [matches]. by eapply head_flat_map. Qed.

Lemma first_grp n r (st st1 : mstate N) :
  head (matches r st) = Some st1 →
  head (matches (Grp n r) st)
  = Some (MState (seen st1) (rest st1)
            ((n, take (length (rest st) - length (rest st1)) (rest st)) :: caps st1)).
Proof. cbn [matches]. destruct (matches r st); [done|]. by intros [= ->]. Qed.

Lemma fits_eqb_app (l rs : jsstring) : fits (N.eqb <$> l) (l ++ rs) = true.
Proof.
  induction l as [|c l IH]; [done|]. cbn [fmap list_fmap app fits code N_sym].
  by rewrite N.eqb_refl, IH.
Qed.

Lemma first_lit a sn rs cs :
  head (matches (Lit a) (MState sn (str a ++ rs) cs))
  = Some (MState (rev (str a) ++ sn) rs cs).
Proof.
  rewrite matches_Lit. cbn [rest seen caps]. rewrite fits_eqb_app.
  by rewrite take_app_length, drop_app_length.
Qed.

Lemma first_opt_take p c sn rs cs :
  p c = true →
  head (matches (Opt p) (MState sn (c :: rs) cs)) = Some (MState (c :: sn) rs cs).
Proof. intros Hc. cbn [matches rest seen caps code N_sym]. by rewrite Hc. Qed.

Lemma first_opt_skip p sn (rs : jsstring) cs :
  fits [p] rs = false →
  head (matches (Opt p) (MState sn rs cs)) = Some (MState sn rs cs).
Proof.
  intros Hc. cbn [matches rest seen caps code N_sym].
  destruct rs as [|c rs]; [done|]. simpl in Hc. rewrite andb_true_r in Hc.
  by rewrite Hc.
Qed.

Lemma span_run p sn (t rs : jsstring) :
  Forall (λ c, p c = true) t → fits [p] rs = false →
  span p sn (t ++ rs) = (rev t ++ sn, rs).
Proof.
  intros Hall Hstop. revert sn. induction Hall as [|c t Hc _ IH]; intros sn.
  - by apply span_stop.
  - cbn [app span code N_sym]. rewrite Hc, IH. cbn [rev]. by rewrite <- app_assoc.
Qed.

Lemma rep_min_run p lo sn (t rs : jsstring) :
  Forall (λ c, p c = true) t → (lo ≤ length t)%nat →
  rep_min p lo sn (t ++ rs) = Some (rev (take lo t) ++ sn, drop lo t ++ rs).
Proof.
  intros Hall. revert lo sn. induction Hall as [|c t Hc _ IH]; intros [|lo] sn Hlo;
    simpl in Hlo; try lia; try done.
  cbn [app rep_min code N_sym take drop rev]. rewrite Hc, IH by lia.
  by rewrite <- app_assoc.
Qed.

(** A greedy run of a class over a stretch of the class that ends where
    the class ends: all of the stretch first. *)
Lemma first_run p lo sn (t rs : jsstring) cs :
  Forall (λ c, p c = true) t → (lo ≤ length t)%nat → fits [p] rs = false →
  head (matches (Rep p lo true) (MState sn (t ++ rs) cs))
  = Some (MState (rev t ++ sn) rs cs).
Proof.
  intros Hall Hlo Hstop. cbn [matches seen rest caps].
  rewrite rep_min_run by done.
  pose proof (rep_more_greedy p (rev (take lo t) ++ sn) (drop lo t ++ rs)) as Hhd.
  rewrite span_run in Hhd; [|by apply Forall_drop|done].
  destruct (rep_more p true _ _) as [|x l]; [done|]. injection Hhd as ->.
  cbn [List.map head]. f_equal. f_equal.
  rewrite app_assoc, <- rev_app_distr. by rewrite take_drop.
Qed.

(** One match in a subject that has the first code unit of the pattern
    nowhere else: what is before and after stays, the match is replaced. *)
Lemma replace_all_once r t p ps (a m b : jsstring) st :
  (lead r).1 = p :: ps →
  Forall (λ c, p c = false) a → Forall (λ c, p c = false) b →
  m ≠ [] →
  exec r (rev a) (m ++ b) = Some st → seen st = rev m ++ rev a → rest st = b →
  replace_all r t (a ++ m ++ b) = a ++ expand t st ++ b.
Proof.
  intros Hlead Ha Hb Hm Hex Hseen Hrest. unfold replace_all.
  rewrite replace_loop_pass.
  - f_equal. rewrite app_nil_r.
    rewrite (replace_loop_hit _ _ _ _ _ st Hex).
    + f_equal. rewrite Hseen, Hrest. apply replace_loop_id.
      intros l1 l2 Hsplit. apply exec_no_fit. rewrite Hlead.
      eapply (no_fit_class (A:=N) p ps b); [exact Hb|exact Hsplit].
    + unfold matched. rewrite Hrest, length_app. destruct m; [done|]. simpl. lia.
  - intros l1 l2 -> Hne. apply exec_no_fit. rewrite Hlead.
    apply Forall_app in Ha as [_ Ha]. destruct Ha as [|c l2 Hc _]; [done|].
    simpl. by rewrite Hc.
Qed.

Section Link.
Variables a t u b : jsstring.
Hypothesis Ha : forallb (λ c, negb (c =? 91)) a = true.
Hypothesis Hb : forallb (λ c, negb (c =? 91)) b = true.
Hypothesis Ht : forallb (noneof "]") t = true.
Hypothesis Hu : forallb (noneof ")") u = true.
Hypothesis Htne : t ≠ [].
Hypothesis Hune : u ≠ [].

Lemma forallb_class (p q : N → bool) (l : jsstring) :
  forallb p l = true → (∀ c, p c = true → q c) → Forall (λ c, q c) l.
Proof.
  intros Hall Hpq. apply Forall_forall. intros c Hc. apply Hpq.
  apply (proj1 (forallb_forall _ _) Hall). by apply list_elem_of_In.
Qed.

Lemma no_bracket (l : jsstring) :
  forallb (λ c, negb (c =? 91)) l = true → Forall (λ c, (91 =? c) = false) l.
Proof.
  intros Hl. apply Forall_forall. intros c Hc%list_elem_of_In.
  apply (proj1 (forallb_forall _ _) Hl), negb_true_iff in Hc.
  by rewrite N.eqb_sym.
Qed.

Lemma run_of (p : N → bool) (l : jsstring) :
  forallb p l = true → Forall (λ c, p c = true) l.
Proof.
  intros Hl. apply Forall_forall. intros c Hc.
  apply (proj1 (forallb_forall _ _) Hl). by apply list_elem_of_In.
Qed.

Lemma length_pos (l : jsstring) : l ≠ [] → (1 ≤ length l)%nat.
Proof. destruct l; [done|]. simpl. lia. Qed.

(** The citation pattern of [cleanText] on a link to an http or https
    address. *)
Lemma exec_citation (secure : bool) sn :
  exec re_citation sn
    (str "[" ++ t ++ str "](http" ++ (if secure then str "s" else []) ++ str "://"
     ++ u ++ str ")" ++ b)
  = Some (MState
            (rev (str "[" ++ t ++ str "](http" ++ (if secure then str "s" else [])
                  ++ str "://" ++ u ++ str ")") ++ sn)
            b [(1%nat, t)]).
Proof.
  unfold exec, re_citation.
  eapply first_cat; [apply first_lit|].
  eapply first_cat.
  { apply first_grp. apply first_run; [by apply run_of|by apply length_pos|done]. }
  cbn [seen rest caps]. rewrite length_app, Nat.add_sub, take_app_length.
  eapply first_cat; [apply first_lit|].
  destruct secure.
  - eapply first_cat; [by apply (first_opt_take _ 115)|].
    eapply first_cat; [apply first_lit|].
    eapply first_cat; [apply first_run; [by apply run_of|by apply length_pos|done]|].
    etrans; [apply first_lit|].
    f_equal. f_equal. rewrite !rev_app_distr, <- !app_assoc. done.
  - eapply first_cat; [by apply first_opt_skip|].
    eapply first_cat; [apply (first_lit "://")|].
    eapply first_cat; [apply first_run; [by apply run_of|by apply length_pos|done]|].
    etrans; [apply first_lit|].
    f_equal. f_equal. rewrite !rev_app_distr, <- !app_assoc. done.
Qed.

Lemma replace_citation (secure : bool) :
  replace_all re_citation []
    (a ++ str "[" ++ t ++ str "](http" ++ (if secure then str "s" else []) ++ str "://"
     ++ u ++ str ")" ++ b)
  = a ++ b.
Proof.
  set (m := str "[" ++ t ++ str "](http" ++ (if secure then str "s" else [])
            ++ str "://" ++ u ++ str ")").
  assert (Hm : m ++ b = str "[" ++ t ++ str "](http" ++ (if secure then str "s" else [])
                        ++ str "://" ++ u ++ str ")" ++ b).
  { unfold m. by rewrite <- !app_assoc. }
  rewrite <- Hm.
  rewrite (replace_all_once re_citation [] (N.eqb 91) _ a m b
             (MState (rev m ++ rev a) b [(1%nat, t)]) eq_refl
             (no_bracket a Ha) (no_bracket b Hb)); [done|done| |done|done].
  rewrite Hm. apply exec_citation.
Qed.

(** The link pattern of the plain-text copy. *)
Lemma exec_link sn :
  exec re_link sn (str "[" ++ t ++ str "](" ++ u ++ str ")" ++ b)
  = Some (MState (rev (str "[" ++ t ++ str "](" ++ u ++ str ")") ++ sn) b
            [(2%nat, u); (1%nat, t)]).
Proof.
  unfold exec, re_link.
  eapply first_cat; [apply first_lit|].
  eapply first_cat.
  { apply first_grp. apply first_run; [by apply run_of|by apply length_pos|done]. }
  cbn [seen rest caps]. rewrite length_app, Nat.add_sub, take_app_length.
  eapply first_cat; [apply first_lit|].
  eapply first_cat.
  { apply first_grp. apply first_run; [by apply run_of|by apply length_pos|done]. }
  cbn [seen rest caps]. rewrite length_app, Nat.add_sub, take_app_length.
  etrans; [apply first_lit|].
  f_equal. f_equal. rewrite !rev_app_distr, <- !app_assoc. done.
Qed.

Lemma replace_link :
  replace_all re_link [TCap 1] (a ++ str "[" ++ t ++ str "](" ++ u ++ str ")" ++ b)
  = a ++ t ++ b.
Proof.
  set (m := str "[" ++ t ++ str "](" ++ u ++ str ")").
  assert (Hm : m ++ b = str "[" ++ t ++ str "](" ++ u ++ str ")" ++ b).
  { unfold m. by rewrite <- !app_assoc. }
  rewrite <- Hm.
  rewrite (replace_all_once re_link [TCap 1] (N.eqb 91) _ a m b
             (MState (rev m ++ rev a) b [(2%nat, u); (1%nat, t)]) eq_refl
             (no_bracket a Ha) (no_bracket b Hb)); [|done| |done|done].
  - cbn. by rewrite app_nil_r.
  - rewrite Hm. apply exec_link.
Qed.
End Link.

(** X22: [cleanText] deletes a link to an http or https address with its
    text: wherever the link stands in text that has no other opening
    bracket, the result is that of the text without the link, as if the
    link had never been there. *)
Theorem cleanText_link_vanishes (a t u b : jsstring) (secure : bool) :
  forallb (λ c, negb (c =? 91)) (a ++ b) = true →
  forallb (noneof "]") t = true → t ≠ [] →
  forallb (noneof ")") u = true → u ≠ [] →
  cleanText (a ++ str "[" ++ t ++ str "](http" ++ (if secure then str "s" else [])
             ++ str "://" ++ u ++ str ")" ++ b)
  = cleanText (a ++ b).
Proof.
  intros Hab Ht Htne Hu Hune. pose proof Hab as Hab'.
  rewrite forallb_app in Hab'. apply andb_prop in Hab' as [Ha Hb].
  unfold cleanText. cbv zeta.
  rewrite (replace_citation a t u b Ha Hb Ht Hu Htne Hune secure).
  by rewrite (step_without re_citation [] 0 (N.eqb 91) (a ++ b) eq_refl (no_bracket _ Hab)).
Qed.

Lemma cleanText_link_vanishes_witness :
  cleanText (str "See [source](http://x.com) now") = cleanText (str "See  now").
Proof.
  exact (cleanText_link_vanishes (str "See ") (str "source") (str "x.com") (str " now")
           false eq_refl eq_refl ltac:(discriminate) eq_refl ltac:(discriminate)).
Defined.

(** X23: The plain-text copy puts the text of a link in the place of the
    link: in text without markdown, a link [[t](u)] is copied as [t]. *)
Theorem copy_plain_link (a t u b : jsstring) :
  forallb copy_char (a ++ t ++ b) = true →
  forallb (noneof "]") t = true → t ≠ [] →
  forallb (noneof "`)") u = true → u ≠ [] →
  line_starts_free true (a ++ str "[" ++ t ++ str "](" ++ u ++ str ")" ++ b) = true →
  has_blank_lines (a ++ t ++ b) = false →
  handleCopyPlainText_text (a ++ str "[" ++ t ++ str "](" ++ u ++ str ")" ++ b)
  = trim (a ++ t ++ b).
Proof.
  intros Hatb Ht Htne Hu Hune Hlines Hblank.
  apply copy_chars in Hatb. pose proof Hatb as Hatb'.
  apply Forall_app in Hatb' as [Ha [Ht' Hb]%Forall_app].
  assert (Hopen : ∀ l : jsstring, Forall (λ c, copy_char c = true) l →
            forallb (λ c, negb (c =? 91)) l = true).
  { intros l Hl. apply forallb_forall. intros c Hc%list_elem_of_In.
    apply (proj1 (Forall_forall _ _) Hl) in Hc. apply negb_true_iff.
    destruct (N.eqb_spec c 91) as [->|]; [|done]. by vm_compute in Hc. }
  assert (Hu' : forallb (noneof ")") u = true).
  { apply forallb_forall. intros c Hc.
    apply (proj1 (forallb_forall _ _) Hu) in Hc. unfold noneof, oneof in *. simpl in *.
    apply negb_true_iff in Hc. apply negb_true_iff.
    apply orb_false_elim in Hc as [_ Hc]. done. }
  assert (Htick : Forall (λ c, (96 =? c) = false)
            (a ++ str "[" ++ t ++ str "](" ++ u ++ str ")" ++ b)).
  { assert (Hc : ∀ l : jsstring, Forall (λ c, copy_char c = true) l →
              Forall (λ c, (96 =? c) = false) l).
    { intros l Hl. eapply Forall_impl; [exact Hl|]. intros c Hc. simpl in Hc.
      destruct (N.eqb_spec 96 c) as [<-|]; [|done]. by vm_compute in Hc. }
    repeat (apply Forall_app; split); try (by apply Hc); try (by repeat constructor).
    apply Forall_forall. intros c Hc'%list_elem_of_In.
    apply (proj1 (forallb_forall _ _) Hu) in Hc'. unfold noneof, oneof in Hc'.
    simpl in Hc'. apply negb_true_iff in Hc'. apply orb_false_elim in Hc' as [Hc' _].
    by rewrite N.eqb_sym. }
  unfold handleCopyPlainText_text. cbv zeta.
  rewrite (step_without re_fence [] 0 (N.eqb 96) _ eq_refl Htick).
  rewrite (step_without re_inline_code _ 0 (N.eqb 96) _ eq_refl Htick).
  rewrite marker_step by done.
  rewrite (replace_link a t u b (Hopen a Ha) (Hopen b Hb) Ht Hu' Htne Hune).
  rewrite (copy_step re_image _ 1 _ _ eq_refl) by (done || intros c Hc; Chains.class_fails).
  rewrite blank_step by done.
  by rewrite emoji_step.
Qed.

Lemma copy_plain_link_witness :
  handleCopyPlainText_text (str "Read *this* and [a link](http://x.com)")
  = trim (str "Read *this* and a link").
Proof.
  exact (copy_plain_link (str "Read *this* and ") (str "a link") (str "http://x.com") []
           eq_refl eq_refl ltac:(discriminate) eq_refl ltac:(discriminate)
           eq_refl eq_refl).
Defined.

(** *** A heading *)

Lemma first_run_end p lo sn (t : jsstring) cs :
  Forall (λ c, p c = true) t → (lo ≤ length t)%nat →
  head (matches (Rep p lo true) (MState sn t cs)) = Some (MState (rev t ++ sn) [] cs).
Proof.
  intros Hall Hlo. pose proof (first_run p lo sn t [] cs Hall Hlo eq_refl) as Hrun.
  by rewrite app_nil_r in Hrun.
Qed.

Lemma first_chr p c sn rs cs :
  p c = true →
  head (matches (Chr p) (MState sn (c :: rs) cs)) = Some (MState (c :: sn) rs cs).
Proof. intros Hc. cbn [matches rest seen caps code N_sym]. by rewrite Hc. Qed.

Lemma first_litI a sn rs cs :
  head (matches (LitI a) (MState sn (str a ++ rs) cs))
  = Some (MState (rev (str a) ++ sn) rs cs).
Proof.
  unfold LitI. revert sn. induction (str a) as [|c l IH]; intros sn; [done|].
  cbn [foldr app]. eapply first_cat.
  - apply first_chr. by rewrite N.eqb_refl.
  - rewrite IH. cbn [rev]. by rewrite <- app_assoc.
Qed.

(** One match, with nothing that could start a match before or after
    it. *)
Lemma replace_all_one r t (a m b : jsstring) st :
  (∀ l1 l2, a = l1 ++ l2 → l2 ≠ [] → fits (lead r).1 (l2 ++ m ++ b) = false) →
  (∀ l1 l2, b = l1 ++ l2 → fits (lead r).1 l2 = false) →
  m ≠ [] →
  exec r (rev a) (m ++ b) = Some st → seen st = rev m ++ rev a → rest st = b →
  replace_all r t (a ++ m ++ b) = a ++ expand t st ++ b.
Proof.
  intros Ha Hb Hm Hex Hseen Hrest. unfold replace_all.
  rewrite replace_loop_pass.
  - f_equal. rewrite app_nil_r.
    rewrite (replace_loop_hit _ _ _ _ _ st Hex).
    + f_equal. rewrite Hseen, Hrest. apply replace_loop_id.
      intros l1 l2 Hsplit. apply exec_no_fit. exact (Hb l1 l2 Hsplit).
    + unfold matched. rewrite Hrest, length_app. destruct m; [done|]. simpl. lia.
  - intros l1 l2 Hsplit Hne. apply exec_no_fit. exact (Ha l1 l2 Hsplit Hne).
Qed.

Lemma tails_before_nil ps (rs : jsstring) :
  ∀ l1 l2 : jsstring, [] = l1 ++ l2 → l2 ≠ [] → fits ps (l2 ++ rs) = false.
Proof. intros [|x l1] [|y l2]; done. Qed.

Lemma tails_before_cons ps c (a rs : jsstring) :
  fits ps (c :: a ++ rs) = false →
  (∀ l1 l2, a = l1 ++ l2 → l2 ≠ [] → fits ps (l2 ++ rs) = false) →
  ∀ l1 l2, c :: a = l1 ++ l2 → l2 ≠ [] → fits ps (l2 ++ rs) = false.
Proof.
  intros Hc Ha [|x l1] l2; simpl.
  - by intros <-.
  - intros [= <- ->]. by apply (Ha l1 l2).
Qed.

Lemma tails_before_class p ps (a rs : jsstring) :
  Forall (λ c, p c = false) a →
  ∀ l1 l2, a = l1 ++ l2 → l2 ≠ [] → fits (p :: ps) (l2 ++ rs) = false.
Proof.
  intros Hall l1 l2 -> Hne. apply Forall_app in Hall as [_ Hall].
  destruct Hall as [|c l2 Hc _]; [done|]. simpl. by rewrite Hc.
Qed.

Lemma tails_before_app ps (x y rs : jsstring) :
  (∀ l1 l2, x = l1 ++ l2 → l2 ≠ [] → fits ps (l2 ++ y ++ rs) = false) →
  (∀ l1 l2, y = l1 ++ l2 → l2 ≠ [] → fits ps (l2 ++ rs) = false) →
  ∀ l1 l2, x ++ y = l1 ++ l2 → l2 ≠ [] → fits ps (l2 ++ rs) = false.
Proof.
  intros Hx Hy. induction x as [|c x IH]; cbn [app]; [done|].
  apply tails_before_cons.
  - specialize (Hx [] (c :: x) eq_refl). cbn [app] in Hx.
    rewrite <- app_assoc. by apply Hx.
  - apply IH. intros l1 l2 -> Hne. by apply (Hx (c :: l1) l2).
Qed.

Lemma map_lit (l : jsstring) : List.map lit l = l.
Proof. exact (List.map_id l). Qed.

Lemma expand_wrap tag sn rs cs (v : jsstring) :
  expand (wrap tag) (MState sn rs ((1%nat, v) :: cs))
  = str "<" ++ str tag ++ str ">" ++ v ++ str "</" ++ str tag ++ str ">".
Proof.
  unfold expand, wrap. cbn [flat_map caps]. rewrite !map_lit, app_nil_r.
  unfold capture. cbn [List.find fst snd Nat.eqb].
  by rewrite <- !app_assoc.
Qed.

Section Heading.
Variable t : jsstring.
Hypothesis Hplain : forallb plain_char t = true.

Lemma plain_chars : Forall (λ c, plain_char c = true) t.
Proof.
  apply Forall_forall. intros c Hc.
  apply (proj1 (forallb_forall _ _) Hplain). by apply list_elem_of_In.
Qed.

Lemma plain_dots : Forall (λ c, dot c = true) t.
Proof.
  eapply Forall_impl; [apply plain_chars|]. intros c Hc. simpl.
  unfold plain_char in Hc. by apply andb_prop in Hc as [_ Hc].
Qed.

Lemma plain_line : Forall (λ c, is_line_terminator (code c) = false) t.
Proof.
  eapply Forall_impl; [apply plain_dots|]. intros c Hc. simpl in *.
  by apply negb_true_iff.
Qed.

(** The pattern of a heading on a line that starts with its mark. *)
Lemma exec_heading mark :
  exec (re_line mark) [] (str mark ++ t)
  = Some (MState (rev (str mark ++ t)) [] [(1%nat, t)]).
Proof.
  unfold exec, re_line.
  eapply first_cat; [reflexivity|].
  eapply first_cat; [apply first_lit|].
  etrans.
  { apply first_grp. eapply first_cat.
    - apply first_run_end; [apply plain_dots|lia].
    - reflexivity. }
  cbn [seen rest caps length]. rewrite Nat.sub_0_r, take_ge by done.
  by rewrite rev_app_distr, app_nil_r.
Qed.

Lemma replace_heading (h : heading) :
  replace_all (re_line (heading_mark h)) (wrap (heading_tag h)) (str (heading_mark h) ++ t)
  = str "<" ++ str (heading_tag h) ++ str ">" ++ t
    ++ str "</" ++ str (heading_tag h) ++ str ">".
Proof.
  pose proof (replace_all_one (re_line (heading_mark h)) (wrap (heading_tag h)) []
    (str (heading_mark h) ++ t) []
    (MState (rev (str (heading_mark h) ++ t)) [] [(1%nat, t)])) as Hone.
  cbn [app rev] in Hone. rewrite !app_nil_r in Hone. rewrite Hone.
  - apply expand_wrap.
  - apply tails_before_nil.
  - apply tails_nil. by destruct h.
  - by destruct h.
  - apply exec_heading.
  - done.
  - done.
Qed.

(** A stretch of the text inside concrete tags: nothing fits at a code
    unit of plain text when the first class of the pattern rejects it. *)
Lemma plain_tails ps (post : jsstring) :
  (∀ c l, plain_char c = true → fits ps (c :: l) = false) →
  (∀ l1 l2, post = l1 ++ l2 → fits ps l2 = false) →
  ∀ l1 l2, t ++ post = l1 ++ l2 → fits ps l2 = false.
Proof.
  intros Hc Hpost. apply tails_app; [|done].
  intros c l Hin. apply Hc. by apply (proj1 (Forall_forall _ _) plain_chars).
Qed.

Lemma plain_tails_before ps (rs : jsstring) :
  (∀ c l, plain_char c = true → fits ps (c :: l) = false) →
  ∀ l1 l2, t = l1 ++ l2 → l2 ≠ [] → fits ps (l2 ++ rs) = false.
Proof.
  intros Hc l1 l2 Ht Hne. destruct l2 as [|c l2]; [done|]. cbn [app]. apply Hc.
  apply (proj1 (Forall_forall _ _) plain_chars). rewrite Ht. set_solver.
Qed.
End Heading.

Ltac spell :=
  repeat match goal with
  | |- context [str ?s] =>
      let x := eval vm_compute in (str s) in change (str s) with x
  end;
  cbn [app].

Ltac tail_fails :=
  first [Chains.nth_fails 0%nat | Chains.nth_fails 1%nat | Chains.nth_fails 2%nat
        | Chains.nth_fails 3%nat | Chains.nth_fails 4%nat].

(** Nothing fits at any tail of [pre ++ t ++ post], for spelled-out
    [pre] and [post] and plain [t]. *)
Ltac framed_tails Hplain :=
  repeat (apply tails_cons; [tail_fails|]);
  apply (plain_tails _ Hplain);
  [ intros c l Hc; Chains.nth_fails 0%nat
  | Chains.close_tag_fails ].

Ltac framed_line Hplain :=
  repeat (apply Forall_cons; split; [reflexivity|]);
  apply Forall_app; split; [apply (plain_line _ Hplain)|];
  repeat (apply Forall_cons; split; [reflexivity|]); apply Forall_nil_2.

(** A step of the chain that finds nothing in the framed text. *)
Ltac framed_step Hplain r :=
  lazymatch goal with
  | |- context [replace_all r ?tm ?s] =>
      let H := fresh "Hstep" in
      assert (H : replace_all r tm s = s);
      [ first
          [ apply replace_all_bol; [by vm_compute|framed_line Hplain]
          | apply replace_all_no_fit; framed_tails Hplain ]
      | rewrite H; clear H ]
  | |- context [replace_first r ?tm ?s] =>
      let H := fresh "Hstep" in
      assert (H : replace_first r tm s = s);
      [ apply replace_first_no_fit; framed_tails Hplain
      | rewrite H; clear H ]
  end.

(** A heading pattern of another level on the line of a heading. *)
Ltac other_level Hplain r :=
  lazymatch goal with
  | |- context [replace_all r ?tm ?s] =>
      let H := fresh "Hstep" in
      assert (H : replace_all r tm s = s);
      [ apply replace_all_bol;
        [ by vm_compute
        | apply Forall_app; split;
          [repeat (apply Forall_cons; split; [reflexivity|]); apply Forall_nil_2
          |apply (plain_line _ Hplain)] ]
      | rewrite H; clear H ]
  end.

Lemma body_heading (t : jsstring) (h : heading) :
  forallb plain_char t = true →
  markdownToHtml_body (str (heading_mark h) ++ t)
  = str "<p>" ++ str "<" ++ str (heading_tag h) ++ str ">" ++ t
    ++ str "</" ++ str (heading_tag h) ++ str ">" ++ str "</p>".
Proof.
  intros Hplain. unfold markdownToHtml_body. cbv zeta.
  pose proof (replace_heading t Hplain h) as Hhit.
  destruct h; cbn [heading_mark heading_tag] in *.
  - other_level Hplain (re_line "### ").
    other_level Hplain (re_line "## ").
    rewrite Hhit. spell.
    framed_step Hplain (re_emph "**").
    framed_step Hplain (re_emph "__").
    framed_step Hplain (re_emph "*").
    framed_step Hplain (re_emph "_").
    framed_step Hplain re_link.
    framed_step Hplain re_code_block.
    framed_step Hplain re_inline_code.
    framed_step Hplain (re_line "* ").
    framed_step Hplain (re_line "- ").
    framed_step Hplain re_list_items.
    framed_step Hplain (re_line "> ").
    framed_step Hplain re_rule.
    framed_step Hplain re_par_break.
    rewrite !map_lit. cbn [app]. by rewrite <- app_assoc.
  - other_level Hplain (re_line "### ").
    rewrite Hhit. spell.
    framed_step Hplain (re_line "# ").
    framed_step Hplain (re_emph "**").
    framed_step Hplain (re_emph "__").
    framed_step Hplain (re_emph "*").
    framed_step Hplain (re_emph "_").
    framed_step Hplain re_link.
    framed_step Hplain re_code_block.
    framed_step Hplain re_inline_code.
    framed_step Hplain (re_line "* ").
    framed_step Hplain (re_line "- ").
    framed_step Hplain re_list_items.
    framed_step Hplain (re_line "> ").
    framed_step Hplain re_rule.
    framed_step Hplain re_par_break.
    rewrite !map_lit. cbn [app]. by rewrite <- app_assoc.
  - rewrite Hhit. spell.
    framed_step Hplain (re_line "## ").
    framed_step Hplain (re_line "# ").
    framed_step Hplain (re_emph "**").
    framed_step Hplain (re_emph "__").
    framed_step Hplain (re_emph "*").
    framed_step Hplain (re_emph "_").
    framed_step Hplain re_link.
    framed_step Hplain re_code_block.
    framed_step Hplain re_inline_code.
    framed_step Hplain (re_line "* ").
    framed_step Hplain (re_line "- ").
    framed_step Hplain re_list_items.
    framed_step Hplain (re_line "> ").
    framed_step Hplain re_rule.
    framed_step Hplain re_par_break.
    rewrite !map_lit. cbn [app]. by rewrite <- app_assoc.
Qed.

(** The two patterns of the second copy that lift a heading out of its
    paragraph. *)
Lemma exec_open_h (d : N) (b sn : jsstring) :
  range 49 54 d = true →
  exec re_open_h sn (str "<p>" ++ str "<h" ++ d :: str ">" ++ b)
  = Some (MState (rev (str "<p>" ++ str "<h" ++ d :: str ">") ++ sn) b
            [(1%nat, str "<h" ++ d :: str ">")]).
Proof.
  intros Hd. unfold exec, re_open_h.
  eapply first_cat; [apply first_litI|].
  etrans.
  { apply first_grp. eapply first_cat; [apply first_litI|].
    eapply first_cat; [by apply first_chr|]. apply first_litI. }
  cbn [seen rest caps]. f_equal. f_equal.
  f_equal. f_equal.
  replace (length (str "<h" ++ d :: str ">" ++ b) - length b)%nat with 4%nat
    by (rewrite length_app; cbn [length app str List.map list_ascii_of_string]; lia).
  reflexivity.
Qed.

Lemma exec_close_h (d : N) (b sn : jsstring) :
  range 49 54 d = true →
  exec re_close_h sn (str "</h" ++ d :: str ">" ++ str "</p>" ++ b)
  = Some (MState (rev (str "</h" ++ d :: str ">" ++ str "</p>") ++ sn) b
            [(1%nat, str "</h" ++ d :: str ">")]).
Proof.
  intros Hd. unfold exec, re_close_h.
  eapply first_cat.
  { apply first_grp. eapply first_cat; [apply first_litI|].
    eapply first_cat; [by apply first_chr|]. apply first_litI. }
  cbn [seen rest caps]. etrans; [apply first_litI|].
  f_equal. f_equal.
  replace (length (str "</h" ++ d :: str ">" ++ str "</p>" ++ b)
           - length (str "</p>" ++ b))%nat with 5%nat
    by (rewrite !length_app; cbn [length app str List.map list_ascii_of_string]; lia).
  reflexivity.
Qed.

(** X24: A heading of one of the three levels, with plain text after its
    mark: [markdownToHtml] puts the text between the tags of the
    heading, inside a paragraph in the first copy of the component and
    without it in the second. *)
Theorem markdownToHtml_heading (h : heading) (t : jsstring) :
  forallb plain_char t = true →
  markdownToHtml (str (heading_mark h) ++ t)
  = str "<p>" ++ str "<" ++ str (heading_tag h) ++ str ">" ++ t
    ++ str "</" ++ str (heading_tag h) ++ str ">" ++ str "</p>"
  ∧ markdownToHtml_lifted (str (heading_mark h) ++ t)
    = str "<" ++ str (heading_tag h) ++ str ">" ++ t
      ++ str "</" ++ str (heading_tag h) ++ str ">".
Proof.
  intros Hplain.
  assert (Hhtml : markdownToHtml (str (heading_mark h) ++ t)
    = str "<p>" ++ str "<" ++ str (heading_tag h) ++ str ">" ++ t
      ++ str "</" ++ str (heading_tag h) ++ str ">" ++ str "</p>").
  { unfold markdownToHtml. rewrite body_heading by done.
    destruct h; cbn [heading_tag]; spell; framed_step Hplain re_empty_par; done. }
  split; [done|].
  unfold markdownToHtml_lifted. cbv zeta. rewrite Hhtml. clear Hhtml.
  destruct h; cbn [heading_tag]; spell.
  - change (60 :: 112 :: 62 :: 60 :: 104 :: 49 :: 62 :: t
            ++ [60; 47; 104; 49; 62; 60; 47; 112; 62])
      with ([] ++ [60; 112; 62; 60; 104; 49; 62]
            ++ t ++ [60; 47; 104; 49; 62; 60; 47; 112; 62]).
    rewrite (replace_all_one re_open_h [TCap 1] [] [60; 112; 62; 60; 104; 49; 62]
               (t ++ [60; 47; 104; 49; 62; 60; 47; 112; 62])
               (MState (rev [60; 112; 62; 60; 104; 49; 62])
                  (t ++ [60; 47; 104; 49; 62; 60; 47; 112; 62])
                  [(1%nat, [60; 104; 49; 62])]));
      [ | apply tails_before_nil
        | apply (plain_tails _ Hplain);
          [intros c l Hc; Chains.nth_fails 0%nat|Chains.close_tag_fails]
        | done | exact (exec_open_h 49 _ [] eq_refl) | done | done ].
    cbn [expand flat_map capture caps List.find fst snd Nat.eqb app].
    change (60 :: 104 :: 49 :: 62 :: t ++ [60; 47; 104; 49; 62; 60; 47; 112; 62])
      with ((60 :: 104 :: 49 :: 62 :: t) ++ [60; 47; 104; 49; 62; 60; 47; 112; 62] ++ []).
    rewrite (replace_all_one re_close_h [TCap 1] (60 :: 104 :: 49 :: 62 :: t)
               [60; 47; 104; 49; 62; 60; 47; 112; 62] []
               (MState (rev [60; 47; 104; 49; 62; 60; 47; 112; 62]
                        ++ rev (60 :: 104 :: 49 :: 62 :: t)) []
                  [(1%nat, [60; 47; 104; 49; 62])]));
      [ | repeat (apply tails_before_cons; [tail_fails|]);
          apply (plain_tails_before _ Hplain); intros c l Hc; Chains.nth_fails 0%nat
        | apply tails_nil; by vm_compute
        | done | exact (exec_close_h 49 [] _ eq_refl) | done | done ].
    cbn [expand flat_map capture caps List.find fst snd Nat.eqb app].
    framed_step Hplain (re_open "ul").
    framed_step Hplain (re_close "ul").
    framed_step Hplain (re_open "pre").
    framed_step Hplain (re_close "pre").
    reflexivity.
  - change (60 :: 112 :: 62 :: 60 :: 104 :: 50 :: 62 :: t
            ++ [60; 47; 104; 50; 62; 60; 47; 112; 62])
      with ([] ++ [60; 112; 62; 60; 104; 50; 62]
            ++ t ++ [60; 47; 104; 50; 62; 60; 47; 112; 62]).
    rewrite (replace_all_one re_open_h [TCap 1] [] [60; 112; 62; 60; 104; 50; 62]
               (t ++ [60; 47; 104; 50; 62; 60; 47; 112; 62])
               (MState (rev [60; 112; 62; 60; 104; 50; 62])
                  (t ++ [60; 47; 104; 50; 62; 60; 47; 112; 62])
                  [(1%nat, [60; 104; 50; 62])]));
      [ | apply tails_before_nil
        | apply (plain_tails _ Hplain);
          [intros c l Hc; Chains.nth_fails 0%nat|Chains.close_tag_fails]
        | done | exact (exec_open_h 50 _ [] eq_refl) | done | done ].
    cbn [expand flat_map capture caps List.find fst snd Nat.eqb app].
    change (60 :: 104 :: 50 :: 62 :: t ++ [60; 47; 104; 50; 62; 60; 47; 112; 62])
      with ((60 :: 104 :: 50 :: 62 :: t) ++ [60; 47; 104; 50; 62; 60; 47; 112; 62] ++ []).
    rewrite (replace_all_one re_close_h [TCap 1] (60 :: 104 :: 50 :: 62 :: t)
               [60; 47; 104; 50; 62; 60; 47; 112; 62] []
               (MState (rev [60; 47; 104; 50; 62; 60; 47; 112; 62]
                        ++ rev (60 :: 104 :: 50 :: 62 :: t)) []
                  [(1%nat, [60; 47; 104; 50; 62])]));
      [ | repeat (apply tails_before_cons; [tail_fails|]);
          apply (plain_tails_before _ Hplain); intros c l Hc; Chains.nth_fails 0%nat
        | apply tails_nil; by vm_compute
        | done | exact (exec_close_h 50 [] _ eq_refl) | done | done ].
    cbn [expand flat_map capture caps List.find fst snd Nat.eqb app].
    framed_step Hplain (re_open "ul").
    framed_step Hplain (re_close "ul").
    framed_step Hplain (re_open "pre").
    framed_step Hplain (re_close "pre").
    reflexivity.
  - change (60 :: 112 :: 62 :: 60 :: 104 :: 51 :: 62 :: t
            ++ [60; 47; 104; 51; 62; 60; 47; 112; 62])
      with ([] ++ [60; 112; 62; 60; 104; 51; 62]
            ++ t ++ [60; 47; 104; 51; 62; 60; 47; 112; 62]).
    rewrite (replace_all_one re_open_h [TCap 1] [] [60; 112; 62; 60; 104; 51; 62]
               (t ++ [60; 47; 104; 51; 62; 60; 47; 112; 62])
               (MState (rev [60; 112; 62; 60; 104; 51; 62])
                  (t ++ [60; 47; 104; 51; 62; 60; 47; 112; 62])
                  [(1%nat, [60; 104; 51; 62])]));
      [ | apply tails_before_nil
        | apply (plain_tails _ Hplain);
          [intros c l Hc; Chains.nth_fails 0%nat|Chains.close_tag_fails]
        | done | exact (exec_open_h 51 _ [] eq_refl) | done | done ].
    cbn [expand flat_map capture caps List.find fst snd Nat.eqb app].
    change (60 :: 104 :: 51 :: 62 :: t ++ [60; 47; 104; 51; 62; 60; 47; 112; 62])
      with ((60 :: 104 :: 51 :: 62 :: t) ++ [60; 47; 104; 51; 62; 60; 47; 112; 62] ++ []).
    rewrite (replace_all_one re_close_h [TCap 1] (60 :: 104 :: 51 :: 62 :: t)
               [60; 47; 104; 51; 62; 60; 47; 112; 62] []
               (MState (rev [60; 47; 104; 51; 62; 60; 47; 112; 62]
                        ++ rev (60 :: 104 :: 51 :: 62 :: t)) []
                  [(1%nat, [60; 47; 104; 51; 62])]));
      [ | repeat (apply tails_before_cons; [tail_fails|]);
          apply (plain_tails_before _ Hplain); intros c l Hc; Chains.nth_fails 0%nat
        | apply tails_nil; by vm_compute
        | done | exact (exec_close_h 51 [] _ eq_refl) | done | done ].
    cbn [expand flat_map capture caps List.find fst snd Nat.eqb app].
    framed_step Hplain (re_open "ul").
    framed_step Hplain (re_close "ul").
    framed_step Hplain (re_open "pre").
    framed_step Hplain (re_close "pre").
    reflexivity.
Qed.

Lemma markdownToHtml_heading_witness :
  forallb plain_char (str "Plan for 2025") = true
  ∧ markdownToHtml (str "## Plan for 2025") = str "<p><h2>Plan for 2025</h2></p>"
  ∧ markdownToHtml_lifted (str "## Plan for 2025") = str "<h2>Plan for 2025</h2>".
Proof.
  split; [reflexivity|].
  exact (markdownToHtml_heading Heading2 (str "Plan for 2025") eq_refl).
Defined.

(** *** Tags in the message *)

Lemma tags_pass_tail (l1 l2 : jsstring) :
  tags_pass (l1 ++ l2) = true → tags_pass l2 = true.
Proof.
  induction l1 as [|c l1 IH]; [done|]. cbn [app tags_pass].
  intros [_ H]%andb_prop. by apply IH.
Qed.

(** A pattern that starts with [<] and goes on with [l] or [p] fits
    nowhere in such text, whatever comes after the text, as long as that
    does not start with [l] or [p] itself. *)
Lemma tags_tails ps p0 p1 (s rs : jsstring) :
  tags_pass s = true →
  ps !! 0%nat = Some p0 → ps !! 1%nat = Some p1 →
  (∀ c, p0 c = true → c = 60) →
  (∀ x, oneof "lpP" x = false → p1 x = false) →
  fits [p1] rs = false →
  ∀ l1 l2, s = l1 ++ l2 → l2 ≠ [] → fits ps (l2 ++ rs) = false.
Proof.
  intros Hs Hp0 Hp1 H0 H1 Hrs l1 l2 -> Hne.
  apply tags_pass_tail in Hs. destruct l2 as [|c l2]; [done|].
  cbn [tags_pass] in Hs. apply andb_prop in Hs as [Hc _].
  apply negb_true_iff in Hc. cbn [app].
  destruct (p0 c) eqn:Hpc.
  - apply H0 in Hpc as ->. rewrite N.eqb_refl in Hc. cbn [andb] in Hc.
    destruct l2 as [|x l2]; cbn [app].
    + destruct rs as [|x rs].
      * apply fits_short. apply lookup_lt_Some in Hp1. simpl. lia.
      * eapply (fits_nth_false _ _ 1%nat); [exact Hp1|reflexivity|].
        simpl in Hrs. by rewrite andb_true_r in Hrs.
    + eapply (fits_nth_false _ _ 1%nat); [exact Hp1|reflexivity|].
      apply H1. simpl in Hc. by rewrite andb_true_r in Hc.
  - by eapply (fits_nth_false _ _ 0%nat); [exact Hp0|reflexivity|].
Qed.

Section Markup.
Variable s : jsstring.
Hypothesis Hfree : markup_free s = true.

Lemma markup_chars : Forall (λ c, markup_char c = true) s.
Proof.
  apply andb_prop in Hfree as [[[Hall _]%andb_prop _]%andb_prop _].
  apply Forall_forall. intros c Hc.
  apply (proj1 (forallb_forall _ _) Hall). by apply list_elem_of_In.
Qed.

Lemma markup_line : Forall (λ c, is_line_terminator (code c) = false) s.
Proof.
  eapply Forall_impl; [apply markup_chars|]. intros c Hc. simpl.
  unfold markup_char in Hc. apply andb_prop in Hc as [_ Hc].
  by apply negb_true_iff.
Qed.

Lemma markup_tags : tags_pass s = true.
Proof. by apply andb_prop in Hfree as [[_ Ht]%andb_prop _]. Qed.

Lemma markup_step r t p ps :
  (lead r).1 = p :: ps →
  (∀ c, markup_char c = true → p c = false) →
  replace_all r t s = s.
Proof.
  intros Hlead Hp. apply replace_all_no_fit. rewrite Hlead.
  apply no_fit_class. eapply Forall_impl; [apply markup_chars|]. done.
Qed.

Lemma markup_bol r r' t p ps :
  r = Bol ⋅ r' →
  (lead r').1 = p :: ps →
  (∀ c, markup_char c = true → oneof "#->" c = false → p c = false) →
  replace_all r t s = s.
Proof.
  intros -> Hlead Hp. apply replace_all_bol; [|apply markup_line].
  rewrite Hlead. pose proof markup_chars as Hall. pose proof Hfree as Hf.
  destruct s as [|c l]; [done|].
  apply Forall_cons in Hall as [Hc _].
  apply andb_prop in Hf as [[[_ Hhd]%andb_prop _]%andb_prop _].
  simpl in Hhd. rewrite andb_true_r in Hhd. apply negb_true_iff in Hhd.
  simpl. by rewrite Hp.
Qed.

Lemma markup_body : markdownToHtml_body s = str "<p>" ++ s ++ str "</p>".
Proof.
  unfold markdownToHtml_body. cbv zeta.
  rewrite (markup_bol (re_line "### ") _ _ _ _ eq_refl eq_refl)
    by (intros c Hc Hh; Chains.class_fails).
  rewrite (markup_bol (re_line "## ") _ _ _ _ eq_refl eq_refl)
    by (intros c Hc Hh; Chains.class_fails).
  rewrite (markup_bol (re_line "# ") _ _ _ _ eq_refl eq_refl)
    by (intros c Hc Hh; Chains.class_fails).
  rewrite (markup_step (re_emph "**") _ _ _ eq_refl) by (intros c Hc; Chains.class_fails).
  rewrite (markup_step (re_emph "__") _ _ _ eq_refl) by (intros c Hc; Chains.class_fails).
  rewrite (markup_step (re_emph "*") _ _ _ eq_refl) by (intros c Hc; Chains.class_fails).
  rewrite (markup_step (re_emph "_") _ _ _ eq_refl) by (intros c Hc; Chains.class_fails).
  rewrite (markup_step re_link _ _ _ eq_refl) by (intros c Hc; Chains.class_fails).
  rewrite (markup_step re_code_block _ _ _ eq_refl) by (intros c Hc; Chains.class_fails).
  rewrite (markup_step re_inline_code _ _ _ eq_refl) by (intros c Hc; Chains.class_fails).
  rewrite (markup_bol (re_line "* ") _ _ _ _ eq_refl eq_refl)
    by (intros c Hc Hh; Chains.class_fails).
  rewrite (markup_bol (re_line "- ") _ _ _ _ eq_refl eq_refl)
    by (intros c Hc Hh; Chains.class_fails).
  assert (Hitems : replace_first re_list_items (wrap "ul") s = s).
  { apply replace_first_no_fit. intros l1 l2 Hs.
    destruct l2 as [|c l2]; [done|].
    pose proof (tags_tails (lead re_list_items).1 _ _ s [] markup_tags eq_refl eq_refl)
      as Htails.
    rewrite <- (app_nil_r (c :: l2)). apply (Htails) with (l1 := l1); [| |done|exact Hs|done].
    - intros x Hx. symmetry. by apply N.eqb_eq.
    - intros x Hx. unfold oneof in Hx. simpl in Hx.
      apply orb_false_elim in Hx as [Hx _]. by rewrite N.eqb_sym. }
  rewrite Hitems.
  rewrite (markup_bol (re_line "> ") _ _ _ _ eq_refl eq_refl)
    by (intros c Hc Hh; Chains.class_fails).
  rewrite (markup_bol re_rule _ _ _ _ eq_refl eq_refl)
    by (intros c Hc Hh; Chains.class_fails).
  rewrite (markup_step re_par_break _ _ _ eq_refl) by (intros c Hc; Chains.class_fails).
  reflexivity.
Qed.
End Markup.

Lemma tails_split (Q : jsstring → Prop) (x y : jsstring) :
  (∀ l1 l2, x = l1 ++ l2 → l2 ≠ [] → Q (l2 ++ y)) →
  (∀ l1 l2, y = l1 ++ l2 → Q l2) →
  ∀ l1 l2, x ++ y = l1 ++ l2 → Q l2.
Proof.
  intros Hx Hy. induction x as [|c x IH]; cbn [app]; [done|].
  apply tails_cons.
  - by apply (Hx [] (c :: x)).
  - apply IH. intros l1 l2 -> Hne. by apply (Hx (c :: l1) l2).
Qed.

(** X25: [markdownToHtml] does not escape what it is given: text without
    markdown comes out as it went in, tags and all, inside one
    paragraph. A message that holds [<img src=x onerror=...>] puts that
    tag into the file that is downloaded. *)
Theorem markdownToHtml_keeps_tags (s : jsstring) :
  markup_free s = true → s ≠ [] →
  markdownToHtml s = str "<p>" ++ s ++ str "</p>".
Proof.
  intros Hfree Hne. unfold markdownToHtml. rewrite markup_body by done.
  apply replace_all_no_fit.
  change (str "<p>" ++ s ++ str "</p>") with (60 :: 112 :: 62 :: s ++ [60; 47; 112; 62]).
  pose proof Hfree as Hf.
  apply andb_prop in Hf as [_ Hstart%negb_true_iff].
  apply tails_cons.
  { destruct s as [|c [|x s']]; [done| |].
    - destruct (N.eqb_spec c 60) as [->|Hc]; [by vm_compute|].
      eapply (fits_nth_false _ _ 3%nat); [reflexivity|reflexivity|].
      cbn. rewrite orb_false_r. by apply N.eqb_neq.
    - destruct (N.eqb_spec c 60) as [->|Hc].
      + eapply (fits_nth_false _ _ 4%nat); [reflexivity|reflexivity|].
        cbn in Hstart. rewrite andb_true_r in Hstart.
        cbn. rewrite orb_false_r. by rewrite N.eqb_sym.
      + eapply (fits_nth_false _ _ 3%nat); [reflexivity|reflexivity|].
        cbn. rewrite orb_false_r. by apply N.eqb_neq. }
  apply tails_cons; [by vm_compute|]. apply tails_cons; [by vm_compute|].
  apply tails_split; [|Chains.close_tag_fails].
  apply (tags_tails (lead re_empty_par).1 _ _ s _ (markup_tags s Hfree) eq_refl eq_refl).
  - intros c Hc. cbn in Hc. rewrite orb_false_r in Hc. by apply N.eqb_eq.
  - intros x Hx. unfold oneof in Hx. simpl in Hx.
    apply orb_false_elim in Hx as [_ Hx]. apply orb_false_elim in Hx as [Hp Hx].
    rewrite orb_false_r in Hx. apply N.eqb_neq in Hp, Hx.
    cbn. apply orb_false_intro; [by apply N.eqb_neq|].
    apply N.eqb_neq. lia.
  - by vm_compute.
Qed.

Lemma markdownToHtml_keeps_tags_witness :
  let s := str "<img src=x onerror=alert(1)> and <b>more</b>" in
  markup_free s = true ∧ markdownToHtml s = str "<p>" ++ s ++ str "</p>".
Proof.
  intros s. split; [reflexivity|].
  exact (markdownToHtml_keeps_tags s eq_refl ltac:(discriminate)).
Defined.

(** *** The clean-ups never make the text longer *)

(** A match reads at least as many code units as the pattern has leading
    classes. *)
Lemma matches_consumed r (st st' : mstate N) :
  In st' (matches r st) →
  (length (rest st') + length (lead r).1 ≤ length (rest st))%nat.
Proof.
  revert st st'. induction r as [|p|p|p lo g|p| | |p|n r IH|r1 IH1 r2 IH2];
    intros st st'; cbn [matches lead fst].
  - intros [<-|[]]. simpl. lia.
  - destruct (rest st) as [|c tl] eqn:E; [done|].
    destruct (p (code c)); [|done]. intros [<-|[]]. simpl. lia.
  - destruct (code_point (rest st)) as [[cp k]|]; [|done].
    destruct (p cp); [|done]. intros [<-|[]]. cbn [rest length].
    rewrite length_drop. lia.
  - destruct (rep_min p lo (seen st) (rest st)) as [[sn rs]|] eqn:Hmin; [|done].
    intros [[sn' rs'] [<- Hin]]%in_map_iff. cbn [rest].
    apply rep_min_Some in Hmin as (_ & l & Hl & -> & _ & _).
    apply rep_more_In in Hin as (l' & -> & _ & _).
    rewrite length_replicate, !length_app. lia.
  - destruct (rest st) as [|c tl] eqn:E; [intros [<-|[]]; rewrite E; simpl; lia|].
    destruct (p (code c)); [intros [<-|[<-|[]]]|intros [<-|[]]];
      rewrite ?E; simpl; lia.
  - destruct (seen st) as [|c ?]; [intros [<-|[]]; simpl; lia|].
    destruct (is_line_terminator (code c)); [intros [<-|[]]; simpl; lia|done].
  - destruct (rest st) as [|c ?] eqn:E; [intros [<-|[]]; rewrite E; simpl; lia|].
    destruct (is_line_terminator (code c)); [intros [<-|[]]; rewrite E; simpl; lia|done].
  - destruct (seen st) as [|c ?]; [done|].
    destruct (p (code c)); [intros [<-|[]]; simpl; lia|done].
  - intros [st1 [<- Hin]]%in_map_iff. cbn [rest]. by apply IH.
  - intros [st1 [Hin1 Hin2]]%in_flat_map.
    specialize (IH1 _ _ Hin1). specialize (IH2 _ _ Hin2).
    destruct (lead r1) as [ps full], (lead r2) as [qs full2]. cbn [fst] in *.
    destruct full; cbn [fst]; rewrite ?length_app; lia.
Qed.

(** What a group has captured is no longer than what the match has
    read. *)
Lemma matches_caps_length r (st st' : mstate N) :
  In st' (matches r st) →
  ∀ n v, In (n, v) (caps st') →
  In (n, v) (caps st) ∨ (length v ≤ length (rest st) - length (rest st'))%nat.
Proof.
  revert st st'. induction r as [|p|p|p lo g|p| | |p|n r IH|r1 IH1 r2 IH2];
    intros st st'; cbn [matches].
  - intros [<-|[]]. auto.
  - destruct (rest st) as [|c tl]; [done|].
    destruct (p (code c)); [|done]. intros [<-|[]]. auto.
  - destruct (code_point (rest st)) as [[cp k]|]; [|done].
    destruct (p cp); [|done]. intros [<-|[]]. auto.
  - destruct (rep_min p lo (seen st) (rest st)) as [[sn rs]|]; [|done].
    intros [[sn' rs'] [<- _]]%in_map_iff. auto.
  - destruct (rest st) as [|c tl]; [intros [<-|[]]; auto|].
    destruct (p (code c)); [intros [<-|[<-|[]]]|intros [<-|[]]]; auto.
  - destruct (seen st) as [|c ?]; [intros [<-|[]]; auto|].
    destruct (is_line_terminator (code c)); [intros [<-|[]]; auto|done].
  - destruct (rest st) as [|c ?]; [intros [<-|[]]; auto|].
    destruct (is_line_terminator (code c)); [intros [<-|[]]; auto|done].
  - destruct (seen st) as [|c ?]; [done|].
    destruct (p (code c)); [intros [<-|[]]; auto|done].
  - intros [st1 [<- Hin]]%in_map_iff m v. cbn [caps rest].
    intros [[= <- <-]|Hcap].
    + right. rewrite length_take. lia.
    + eapply IH; done.
  - intros [st1 [Hin1 Hin2]]%in_flat_map m v Hcap.
    pose proof (matches_consumed _ _ _ Hin1) as H1.
    pose proof (matches_consumed _ _ _ Hin2) as H2.
    destruct (IH2 _ _ Hin2 _ _ Hcap) as [Hold|Hnew].
    + destruct (IH1 _ _ Hin1 _ _ Hold) as [?|Hlen]; [by left|]. right. lia.
    + right. lia.
Qed.

Lemma expand_no_longer r t sn (rs : jsstring) st :
  no_longer r t → exec r sn rs = Some st →
  (length (expand t st) ≤ matched rs st)%nat
  ∧ (length (rest st) ≤ length rs)%nat.
Proof.
  intros Ht Hex.
  assert (Hin : In st (matches r (MState sn rs []))).
  { unfold exec in Hex. destruct (matches r (MState sn rs [])) as [|x l]; [done|].
    injection Hex as ->. by left. }
  pose proof (matches_consumed _ _ _ Hin) as Hread. cbn [rest] in Hread.
  split; [|lia]. unfold matched.
  destruct Ht as [->|[[n ->]|(x & -> & Hx)]].
  - simpl. lia.
  - unfold expand. cbn [flat_map]. rewrite app_nil_r. unfold capture.
    destruct (List.find _ (caps st)) as [[m v]|] eqn:Hfind; [|simpl; lia].
    apply find_some in Hfind as [Hcap _]. cbn [snd].
    destruct (matches_caps_length _ _ _ Hin _ _ Hcap) as [[]|Hlen]. exact Hlen.
  - unfold expand. cbn [flat_map]. rewrite app_nil_r, length_map. lia.
Qed.

Lemma replace_loop_length u r t skip keep sn (rs : jsstring) :
  no_longer r t →
  (length (replace_loop u r t skip keep sn rs)
   + (if keep then 0 else skip `min` length rs) ≤ length rs)%nat.
Proof.
  intros Ht. revert skip keep sn.
  induction rs as [|c rs IH]; intros skip keep sn; cbn [replace_loop].
  - destruct skip as [|k].
    + destruct (exec r sn []) as [st|] eqn:Hex; [|destruct keep; cbn [length]; lia].
      destruct (expand_no_longer _ _ _ _ _ Ht Hex) as [Hlen _].
      unfold matched in Hlen. cbn [length] in *. destruct keep; lia.
    + destruct keep; cbn [length]; lia.
  - destruct skip as [|k].
    + destruct (exec r sn (c :: rs)) as [st|] eqn:Hex.
      * destruct (expand_no_longer _ _ _ _ _ Ht Hex) as [Hlen Hrest].
        rewrite length_app.
        destruct (matched (c :: rs) st) as [|k] eqn:Hm.
        -- specialize (IH (advance u (c :: rs) - 1)%nat true (c :: sn)).
           cbn [length] in *. destruct keep; lia.
        -- specialize (IH k false (c :: sn)).
           unfold matched in Hm. cbn [length] in *. destruct keep; lia.
      * specialize (IH (advance u (c :: rs) - 1)%nat true (c :: sn)).
        cbn [length] in *. destruct keep; lia.
    + specialize (IH k keep (c :: sn)). rewrite length_app.
      destruct keep; cbn [length] in *; lia.
Qed.

Lemma replace_all_length r t (s : jsstring) :
  no_longer r t → (length (replace_all r t s) ≤ length s)%nat.
Proof.
  intros Ht. unfold replace_all.
  pose proof (replace_loop_length false r t 0 false [] s Ht). simpl in *. lia.
Qed.

Lemma replace_all_u_length r t (s : jsstring) :
  no_longer r t → (length (replace_all_u r t s) ≤ length s)%nat.
Proof.
  intros Ht. unfold replace_all_u.
  pose proof (replace_loop_length true r t 0 false [] s Ht). simpl in *. lia.
Qed.

Lemma trimStart_length (s : jsstring) : (length (trimStart s) ≤ length s)%nat.
Proof.
  destruct (trimStart_suffix s) as [l Hl]. rewrite Hl at 2. rewrite length_app. lia.
Qed.

Lemma trim_length (s : jsstring) : (length (trim s) ≤ length s)%nat.
Proof.
  unfold trim, trimEnd. rewrite length_rev.
  etrans; [apply trimStart_length|]. rewrite length_rev. apply trimStart_length.
Qed.

Ltac shorter :=
  repeat first
    [ apply Nat.le_refl
    | (etrans; [apply trim_length|])
    | (etrans; [apply replace_all_u_length; by left|])
    | (etrans; [apply replace_all_length;
                first [by left
                      |right; left; by eexists
                      |right; right; eexists; split; [reflexivity|vm_compute; lia]]|]) ].

(** X26: None of the three clean-ups makes a text longer: what [cleanText],
    the plain-text copy and the clean-up of the highlights and the
    summary return has at most as many code units as what they are
    given. Every one of their replacements writes nothing, one group of
    the match, or a text that is shorter than any match of its pattern. *)
Theorem cleanups_never_lengthen (s : jsstring) :
  (length (cleanText s) ≤ length s)%nat
  ∧ (length (handleCopyPlainText_text s) ≤ length s)%nat
  ∧ (length (cleaned_of s) ≤ length s)%nat.
Proof.
  split_and!.
  - unfold cleanText. cbv zeta. shorter.
  - unfold handleCopyPlainText_text. cbv zeta. shorter.
  - unfold cleaned_of. cbv zeta. shorter.
Qed.

(** *** Text [cleanText] leaves alone *)

Lemma occurs_tails ps (s : jsstring) :
  ps ≠ [] → occurs ps s = false → ∀ l1 l2, s = l1 ++ l2 → fits ps l2 = false.
Proof.
  intros Hps. induction s as [|c s IH]; intros Hs.
  - apply tails_nil. by destruct ps.
  - cbn [occurs] in Hs. apply orb_false_elim in Hs as [Hhd Hs].
    apply tails_cons; [done|]. by apply IH.
Qed.

(** [replace(/\s+/g, " ")] on text whose white space is single blanks. *)
Lemma collapse_id (s sn : jsstring) :
  single_spaced s = true →
  replace_loop false re_spaces [TLit (str " ")] 0 false sn s = s.
Proof.
  revert sn. induction s as [|c s IH]; intros sn Hss; [done|].
  cbn [single_spaced] in Hss. apply andb_prop in Hss as [Hc Hss].
  pose proof (exec_run is_space sn (c :: s)) as Hex. cbn [code N_sym] in Hex.
  destruct (is_space c) eqn:Hsp.
  - apply andb_prop in Hc as [->%N.eqb_eq Hnext%negb_true_iff].
    rewrite span_stop in Hex by done.
    unfold re_spaces. rewrite (replace_loop_hit _ _ _ _ _ _ Hex).
    + cbn [seen rest]. rewrite IH by done. reflexivity.
    + unfold matched. cbn [rest length]. lia.
  - unfold re_spaces in *. rewrite replace_loop_miss by done.
    by rewrite IH.
Qed.

(** X27: [cleanText] leaves tidy text without markdown as it is: text with
    single blanks for white space and none at its ends, no bracket,
    asterisk, underscore or backtick, no [http] and no [()] goes into the
    PDF unchanged. *)
Theorem cleanText_unchanged (s : jsstring) :
  clean s = true → cleanText s = s.
Proof.
  intros [[[Hchars Hhttp%negb_true_iff]%andb_prop Hpair%negb_true_iff]%andb_prop
          Htidy]%andb_prop.
  assert (Hall : Forall (λ c, oneof "[*_`" c = false) s).
  { apply Forall_forall. intros c Hc%list_elem_of_In.
    apply (proj1 (forallb_forall _ _) Hchars) in Hc. by apply negb_true_iff. }
  assert (Hstep : ∀ r t p ps, (lead r).1 = p :: ps →
            (∀ c, oneof "[*_`" c = false → p c = false) → replace_all r t s = s).
  { intros r t p ps Hlead Hp. apply (step_without r t 0 p); [by rewrite Hlead|].
    eapply Forall_impl; [exact Hall|]. done. }
  assert (Hnot : ∀ c x, oneof "[*_`" c = false → oneof "[*_`" x = true → (x =? c) = false).
  { intros c x Hc Hx. apply N.eqb_neq. intros ->. congruence. }
  unfold cleanText. cbv zeta.
  rewrite (Hstep re_citation _ _ _ eq_refl) by (intros c Hc; by apply Hnot).
  rewrite (replace_all_no_fit re_url) by (by apply occurs_tails).
  rewrite (Hstep (re_emph "**") _ _ _ eq_refl) by (intros c Hc; by apply Hnot).
  rewrite (Hstep (re_emph "__") _ _ _ eq_refl) by (intros c Hc; by apply Hnot).
  rewrite (Hstep (re_emph "*") _ _ _ eq_refl) by (intros c Hc; by apply Hnot).
  rewrite (Hstep (re_emph "_") _ _ _ eq_refl) by (intros c Hc; by apply Hnot).
  rewrite (Hstep re_inline_code _ _ _ eq_refl) by (intros c Hc; by apply Hnot).
  rewrite (Hstep (Lit "[]") _ _ _ eq_refl) by (intros c Hc; by apply Hnot).
  rewrite (replace_all_no_fit (Lit "()")) by (by apply occurs_tails).
  apply andb_prop in Htidy as [[Hss Hhd%negb_true_iff]%andb_prop Hlast%negb_true_iff].
  unfold replace_all. rewrite collapse_id by done. by apply trim_id.
Qed.

Lemma cleanText_unchanged_witness :
  let s := str "Revenue grew 12% (year over year) - see page 3." in
  clean s = true ∧ cleanText s = s.
Proof.
  intros s. split; [reflexivity|]. exact (cleanText_unchanged s eq_refl).
Defined.

(** *** [markdownToHtml] on text without markdown *)

(** A pattern finds nothing where one of its parts finds nothing after
    whatever the parts before it have read. *)
Lemma exec_none r (sn rs : jsstring) :
  matches r (MState sn rs []) = [] → exec r sn rs = None.
Proof. unfold exec. by intros ->. Qed.

Lemma matches_cat_none r1 r2 (st : mstate N) :
  (∀ st', In st' (matches r1 st) → matches r2 st' = []) →
  matches (r1 ⋅ r2) st = [].
Proof.
  intros Hall. cbn [matches].
  induction (matches r1 st) as [|x l IH]; [done|].
  cbn [flat_map]. rewrite Hall by (by left).
  apply IH. intros st' Hin. apply Hall. by right.
Qed.

Lemma matches_grp_none n r (st : mstate N) :
  matches r st = [] → matches (Grp n r) st = [].
Proof. cbn [matches]. by intros ->. Qed.

Lemma matches_grp_rest n r (st st' : mstate N) :
  In st' (matches (Grp n r) st) → ∃ st0, In st0 (matches r st) ∧ rest st' = rest st0.
Proof. cbn [matches]. intros (st0 & <- & Hin)%in_map_iff. by exists st0. Qed.

Lemma matches_rep_rest p lo g (st st' : mstate N) :
  In st' (matches (Rep p lo g) st) →
  ∃ l, rest st = l ++ rest st'.
Proof. intros Hin. by destruct (matches_lead _ _ _ Hin) as [(l & Hl & _) _]; exists l. Qed.

Lemma matches_Lit_rest a (st st' : mstate N) :
  In st' (matches (Lit a) st) →
  fits (N.eqb <$> str a) (rest st) = true
  ∧ rest st' = drop (length (str a)) (rest st).
Proof.
  rewrite matches_Lit. destruct (fits _ _); [|done]. by intros [<-|[]].
Qed.

Lemma fits_longer ps qs (rs : jsstring) : fits ps rs = false → fits (ps ++ qs) rs = false.
Proof. intros Hps. by rewrite fits_app, Hps. Qed.

Lemma matches_rep_run p lo g (st st' : mstate N) :
  In st' (matches (Rep p lo g) st) →
  ∃ l, rest st = l ++ rest st' ∧ Forall (λ c, p c = true) l ∧ (lo ≤ length l)%nat.
Proof.
  cbn [matches]. destruct (rep_min p lo (seen st) (rest st)) as [[sn rs]|] eqn:Hmin; [|done].
  intros ([sn' rs'] & <- & Hin)%in_map_iff. cbn [rest].
  apply rep_min_Some in Hmin as (_ & l & Hlo & Hl & _ & Hall).
  apply rep_more_In in Hin as (l' & Hl' & _ & Hall').
  exists (l ++ l'). split_and!.
  - by rewrite <- app_assoc, <- Hl'.
  - apply Forall_app. by split.
  - rewrite length_app. lia.
Qed.

Lemma matches_grp_run n p lo g (st st' : mstate N) :
  In st' (matches (Grp n (Rep p lo g)) st) →
  ∃ l, rest st = l ++ rest st' ∧ Forall (λ c, p c = true) l ∧ (lo ≤ length l)%nat.
Proof.
  intros (st0 & Hst0 & ->)%matches_grp_rest. exact (matches_rep_run _ _ _ _ _ Hst0).
Qed.

Lemma matches_Chr_rest p (st st' : mstate N) :
  In st' (matches (Chr p) st) → ∃ c, rest st = c :: rest st' ∧ p c = true.
Proof.
  cbn [matches]. destruct (rest st) as [|c tl]; [done|]. cbn [code N_sym].
  destruct (p c) eqn:Hc; [|done]. intros [<-|[]]. by exists c.
Qed.

Lemma after_run p (l rs : jsstring) :
  Forall (λ c, p c = true) l → fits [p] rs = false → after p (l ++ rs) = rs.
Proof. intros Hall Hstop. unfold after. by rewrite span_run. Qed.

Lemma fits_head p (l rs : jsstring) :
  Forall (λ c, p c = true) l → (1 ≤ length l)%nat → fits [p] (l ++ rs) = true.
Proof.
  intros Hall Hlen. destruct Hall as [|c l Hc _]; [simpl in Hlen; lia|].
  cbn [app fits code N_sym]. by rewrite Hc.
Qed.

(** What the conditions of [markdown_free] say at a place in the text. *)
Lemma lines_unmarked_tail b (l1 l2 : jsstring) :
  lines_unmarked b (l1 ++ l2) = true →
  match rev l1 with [] => b | c :: _ => is_line_terminator c end = true →
  marked l2 = false.
Proof.
  revert b. induction l1 as [|c l1 IH]; intros b Hl Hb.
  - cbn [rev app] in *. subst b.
    destruct l2; cbn [lines_unmarked] in Hl;
      apply andb_prop in Hl as [Hm%negb_true_iff _]; exact Hm.
  - cbn [app lines_unmarked] in Hl. apply andb_prop in Hl as [_ Hl].
    apply (IH _ Hl). cbn [rev] in Hb.
    destruct (rev l1) as [|x r]; [exact Hb|exact Hb].
Qed.

Lemma marked_mark (s : jsstring) mark :
  marked s = false → In mark line_marks → fits (N.eqb <$> str mark) s = false.
Proof.
  intros [Hm _]%orb_false_elim Hin.
  destruct (fits (N.eqb <$> str mark) s) eqn:Hfit; [|done].
  rewrite <- Hm. symmetry. apply existsb_exists. by exists mark.
Qed.

Lemma later_on_line_stop p (l rs : jsstring) :
  later_on_line p (l ++ rs) = false →
  Forall (λ c, dot c = true) l →
  fits [p] rs = false.
Proof.
  induction l as [|x l IH]; cbn [app]; intros Hl Hdots.
  - destruct rs as [|c rs]; [done|]. cbn [later_on_line] in Hl.
    apply orb_false_elim in Hl as [Hc _]. cbn [fits code N_sym]. by rewrite Hc.
  - apply Forall_cons in Hdots as [Hx Hdots]. cbn [later_on_line] in Hl.
    apply orb_false_elim in Hl as [_ Hl]. unfold dot in Hx. rewrite Hx in Hl.
    by apply IH.
Qed.

Lemma once_a_line_tail p (l1 : jsstring) c (l2 : jsstring) :
  once_a_line p (l1 ++ c :: l2) = true → p c = true → later_on_line p l2 = false.
Proof.
  induction l1 as [|x l1 IH]; cbn [app once_a_line];
    intros [Hc Hl]%andb_prop Hp; [|by apply IH].
  apply negb_true_iff in Hc. by rewrite Hp in Hc.
Qed.

Lemma code_span_tail (l1 : jsstring) c (l2 : jsstring) :
  code_span (l1 ++ c :: l2) = false → backtick c = true →
  fits [λ x, negb (backtick x)] l2 = true → existsb backtick l2 = false.
Proof.
  induction l1 as [|x l1 IH]; cbn [app code_span];
    intros [Hc Hl]%orb_false_elim Hb Hnext; [|by apply IH].
  by rewrite Hb, Hnext in Hc.
Qed.

Lemma has_link_tail (l1 l2 : jsstring) :
  has_link (l1 ++ l2) = false → link_here l2 = false.
Proof.
  induction l1 as [|x l1 IH]; cbn [app]; intros Hl.
  - destruct l2; cbn [has_link] in Hl; by apply orb_false_elim in Hl as [Hl _].
  - cbn [has_link] in Hl. apply orb_false_elim in Hl as [_ Hl]. by apply IH.
Qed.

Lemma existsb_stop p (l rs : jsstring) :
  existsb p (l ++ rs) = false → fits [p] rs = false.
Proof.
  rewrite existsb_app. intros [_ Hrs]%orb_false_elim.
  destruct rs as [|c rs]; [done|]. cbn [existsb] in Hrs.
  apply orb_false_elim in Hrs as [Hc _]. cbn [fits code N_sym]. by rewrite Hc.
Qed.

Lemma list_item_tail (l1 l2 : jsstring) :
  list_item (l1 ++ l2) = false →
  fits (N.eqb <$> str "<li>") l2 = true →
  occurs (N.eqb <$> str "</li>") (drop 4 l2) = false.
Proof.
  induction l1 as [|x l1 IH]; cbn [app]; intros Hl Hfit.
  - destruct l2 as [|c l2]; [done|]. cbn [list_item] in Hl.
    apply orb_false_elim in Hl as [Hl _]. by rewrite Hfit in Hl.
  - cbn [list_item] in Hl. apply orb_false_elim in Hl as [_ Hl]. by apply IH.
Qed.

(** The replaces of [markdownToHtml], one condition each. *)
Lemma lines_step r t (s : jsstring) :
  lines_unmarked true s = true →
  (∀ sn rs, marked rs = false → exec (Bol ⋅ r) sn rs = None) →
  replace_all (Bol ⋅ r) t s = s.
Proof.
  intros Hlines Hr. unfold replace_all. apply replace_loop_id. intros l1 l2 Hs.
  rewrite app_nil_r. rewrite Hs in Hlines.
  pose proof (lines_unmarked_tail true l1 l2 Hlines) as Hm.
  destruct (rev l1) as [|c sn]; [by apply Hr, Hm|].
  destruct (is_line_terminator c) eqn:Hc; [by apply Hr, Hm|].
  by apply exec_bol_inside.
Qed.

Lemma line_step mark t (s : jsstring) :
  In mark line_marks →
  (lead (re_line mark)).1 = N.eqb <$> str mark →
  lines_unmarked true s = true →
  replace_all (re_line mark) t s = s.
Proof.
  intros Hin Hlead Hlines. apply lines_step; [done|].
  intros sn rs Hm. apply exec_no_fit.
  change (Bol ⋅ _) with (re_line mark). rewrite Hlead. by apply marked_mark.
Qed.

Lemma rule_step t (s : jsstring) :
  lines_unmarked true s = true → replace_all re_rule t s = s.
Proof.
  intros Hlines. apply lines_step; [done|].
  intros sn rs [_ Hrule]%orb_false_elim. apply exec_none.
  apply matches_cat_none. intros st Hst.
  assert (rest st = rs) as Hrest.
  { cbn [matches seen] in Hst. destruct sn as [|c sn].
    - by destruct Hst as [<-|[]].
    - destruct (is_line_terminator (code c)); [by destruct Hst as [<-|[]]|done]. }
  apply matches_cat_none. intros st' [Hfit Hst']%matches_Lit_rest.
  rewrite Hrest in Hfit, Hst'. unfold rule_line in Hrule. rewrite Hfit in Hrule.
  cbn [matches]. rewrite Hst'. change (length (str "---")) with 3%nat.
  destruct (drop 3 rs) as [|c rs']; [done|]. cbn [andb code N_sym] in *. by rewrite Hrule.
Qed.

Lemma strong_step k mark t (s : jsstring) :
  str mark = [k; k] →
  once_a_line (N.eqb k) s = true →
  replace_all (re_emph mark) t s = s.
Proof.
  intros Hmark Honce. apply replace_all_no_fit. intros l1 l2 Hs.
  unfold re_emph, Lit. rewrite Hmark. cbn [foldr lead fst app replicate].
  destruct l2 as [|a [|b l2]]; [done|by cbn; rewrite andb_false_r|].
  cbn [fits code N_sym]. rewrite andb_true_r.
  destruct (k =? a) eqn:Ha; [|done]. cbn [andb].
  rewrite Hs in Honce. apply once_a_line_tail in Honce; [|done].
  cbn [later_on_line] in Honce. by apply orb_false_elim in Honce as [-> _].
Qed.

Lemma emph_step k mark t (s : jsstring) :
  str mark = [k] →
  once_a_line (N.eqb k) s = true →
  replace_all (re_emph mark) t s = s.
Proof.
  intros Hmark Honce. unfold replace_all. apply replace_loop_id. intros l1 l2 Hs.
  apply exec_none. unfold re_emph.
  apply matches_cat_none. intros st1 [Hfit Hst1]%matches_Lit_rest.
  rewrite Hmark in Hfit, Hst1. cbn [rest length] in Hfit, Hst1.
  destruct l2 as [|c l2]; [done|].
  cbn [fmap list_fmap fits code N_sym] in Hfit. rewrite andb_true_r in Hfit.
  cbn [drop] in Hst1. rewrite Hs in Honce. apply once_a_line_tail in Honce; [|done].
  apply matches_cat_none. intros st2 (l & Hl & Hdots & _)%matches_grp_run.
  apply matches_no_fit. unfold Lit. rewrite Hmark. cbn [foldr lead fst app].
  apply (later_on_line_stop _ l); [|done].
  by rewrite <- Hl, Hst1.
Qed.

(** A match of the link pattern is a link as [link_here] describes it:
    the greedy runs go as far as the closing bracket and the closing
    parenthesis, since nothing else can follow them. *)
Lemma link_step t (s : jsstring) :
  has_link s = false → replace_all re_link t s = s.
Proof.
  intros Hlink. unfold replace_all. apply replace_loop_id. intros l1 l2 Hs.
  rewrite Hs in Hlink. apply has_link_tail in Hlink.
  apply exec_none. unfold re_link.
  apply matches_cat_none. intros st1 [Hopen Hst1]%matches_Lit_rest.
  cbn [rest] in Hopen, Hst1. change (length (str "[")) with 1%nat in Hst1.
  apply matches_cat_none. intros st2 (text & Htext & Hnone & Hlen)%matches_grp_run.
  apply matches_cat_none. intros st3 [Hmid Hst3]%matches_Lit_rest.
  change (length (str "](")) with 2%nat in Hst3.
  apply matches_cat_none. intros st4 (target & Htarget & Hnone' & Hlen')%matches_grp_run.
  rewrite matches_Lit. destruct (fits _ (rest st4)) eqn:Hclose; [exfalso|done].
  rewrite Hst1 in Htext. rewrite Hst3 in Htarget.
  assert (link_here l2 = true) as Hhere; [|congruence].
  unfold link_here. cbv zeta.
  assert (after (noneof "]") (drop 1 l2) = rest st2) as ->.
  { rewrite Htext. apply after_run; [done|].
    destruct (rest st2) as [|c r]; [done|].
    change (fits _ _) with ((93 =? c) && fits [N.eqb 40] r) in Hmid.
    apply andb_prop in Hmid as [<-%N.eqb_eq _]. reflexivity. }
  assert (after (noneof ")") (drop 2 (rest st2)) = rest st4) as ->.
  { rewrite Htarget. apply after_run; [done|].
    destruct (rest st4) as [|c r]; [done|].
    change (fits _ _) with ((41 =? c) && true) in Hclose.
    apply andb_prop in Hclose as [<-%N.eqb_eq _]. reflexivity. }
  apply andb_true_intro. split; [|apply andb_true_intro; split; [|done]].
  - destruct l2 as [|c l2]; [done|]. change (drop 1 (c :: l2)) with l2 in Htext.
    change (fits _ (c :: l2)) with ((91 =? c) && fits [noneof "]"] l2).
    change (fits _ _) with ((91 =? c) && true) in Hopen. rewrite andb_true_r in Hopen.
    rewrite Hopen, Htext. by apply fits_head.
  - change [N.eqb 93; N.eqb 40; noneof ")"] with ((N.eqb <$> str "](") ++ [noneof ")"]).
    rewrite fits_app, Hmid. change (length _) with 2%nat. rewrite Htarget.
    by apply fits_head.
Qed.

(** A code block needs a line feed or a letter after its opening
    backticks and backticks further on: inline code, to the pattern after
    it. *)
Lemma code_block_step t (s : jsstring) :
  code_span s = false → replace_all re_code_block t s = s.
Proof.
  intros Hspan. unfold replace_all. apply replace_loop_id. intros l1 l2 Hs.
  apply exec_none. unfold re_code_block.
  apply matches_cat_none. intros st1 [Hopen Hst1]%matches_Lit_rest.
  cbn [rest] in Hopen, Hst1. change (length (str "```")) with 3%nat in Hst1.
  destruct l2 as [|a [|b [|c r3]]];
    try (rewrite fits_short in Hopen by (vm_compute; lia); discriminate Hopen).
  change (drop 3 (a :: b :: c :: r3)) with r3 in Hst1.
  apply matches_cat_none. intros st2 (lang & Hlang & Hletters & _)%matches_grp_run.
  apply matches_cat_none. intros st3 (x & Hx & <-%N.eqb_eq)%matches_Chr_rest.
  apply matches_cat_none. intros st4 (body & Hbody & _)%matches_grp_run.
  apply matches_no_fit. change (lead _).1 with ([backtick] ++ [backtick; backtick]).
  apply fits_longer. apply (existsb_stop _ (lang ++ 10 :: body)).
  rewrite <- app_assoc. cbn [app]. rewrite <- Hbody, <- Hx, <- Hlang, Hst1.
  apply (code_span_tail (l1 ++ [a; b]) c).
  - rewrite <- app_assoc. cbn [app]. by rewrite <- Hs.
  - change (fits _ _) with (backtick a && (backtick b && (backtick c && true))) in Hopen.
    by apply andb_prop in Hopen as [_ [_ [Hc _]%andb_prop]%andb_prop].
  - rewrite <- Hst1, Hlang. destruct Hletters as [|y lang Hy _].
    + cbn [app]. by rewrite Hx.
    + cbn [app fits code N_sym]. rewrite andb_true_r. apply negb_true_iff.
      unfold backtick. apply N.eqb_neq. intros <-. by vm_compute in Hy.
Qed.

Lemma inline_code_step t (s : jsstring) :
  code_span s = false → replace_all re_inline_code t s = s.
Proof.
  intros Hspan. unfold replace_all. apply replace_loop_id. intros l1 l2 Hs.
  apply exec_none. unfold re_inline_code.
  apply matches_cat_none. intros st1 [Hopen Hst1]%matches_Lit_rest.
  cbn [rest] in Hopen, Hst1. change (length (str "`")) with 1%nat in Hst1.
  destruct l2 as [|c l2]; [done|].
  change (fits _ _) with (backtick c && true) in Hopen. rewrite andb_true_r in Hopen.
  change (drop 1 (c :: l2)) with l2 in Hst1.
  apply matches_cat_none. intros st2 (code & Hcode & Hnone & Hlen)%matches_grp_run.
  apply matches_no_fit. change (lead _).1 with [backtick].
  apply (existsb_stop _ code). rewrite <- Hcode, Hst1.
  apply (code_span_tail l1 c); [by rewrite <- Hs|done|].
  rewrite <- Hst1, Hcode. apply fits_head; [|done].
  eapply Forall_impl; [exact Hnone|]. intros x Hx. cbn beta in Hx.
  apply negb_true_iff. unfold backtick. apply N.eqb_neq. intros <-. by vm_compute in Hx.
Qed.

Lemma list_items_step t (s : jsstring) :
  list_item s = false → replace_first re_list_items t s = s.
Proof.
  intros Hitem. unfold replace_first. apply replace_first_loop_id. intros l1 l2 Hs.
  apply exec_none. unfold re_list_items. apply matches_grp_none.
  apply matches_cat_none. intros st1 [Hfit Hst1]%matches_Lit_rest.
  cbn [rest] in Hfit, Hst1. change (length (str "<li>")) with 4%nat in Hst1.
  rewrite Hs in Hitem. apply list_item_tail in Hitem; [|done].
  apply matches_cat_none. intros st2 Hst2.
  apply matches_rep_rest in Hst2 as (l & Hl).
  apply matches_no_fit. change (lead _).1 with (N.eqb <$> str "</li>").
  apply (occurs_tails _ (drop 4 l2)) with (l1 := l); [done|done|].
  by rewrite <- Hl, Hst1.
Qed.

Lemma literal_step r t ps (s : jsstring) :
  (lead r).1 = ps → ps ≠ [] → occurs ps s = false → replace_all r t s = s.
Proof.
  intros <- Hps Hocc. apply replace_all_no_fit. by apply occurs_tails.
Qed.

Lemma markdownToHtml_body_free (s : jsstring) :
  markdown_free s = true → list_item s = false →
  markdownToHtml_body s = paragraph s.
Proof.
  intros [[[[[Hlines Hstars]%andb_prop Hunders]%andb_prop Hspan%negb_true_iff]%andb_prop
           Hlink%negb_true_iff]%andb_prop Hbreak%negb_true_iff]%andb_prop Hitem.
  unfold markdownToHtml_body. cbv zeta.
  rewrite (line_step "### ") by (done || (cbn; tauto)).
  rewrite (line_step "## ") by (done || (cbn; tauto)).
  rewrite (line_step "# ") by (done || (cbn; tauto)).
  rewrite (strong_step 42 "**") by done.
  rewrite (strong_step 95 "__") by done.
  rewrite (emph_step 42 "*") by done.
  rewrite (emph_step 95 "_") by done.
  rewrite link_step by done.
  rewrite code_block_step by done.
  rewrite inline_code_step by done.
  rewrite (line_step "* ") by (done || (cbn; tauto)).
  rewrite (line_step "- ") by (done || (cbn; tauto)).
  rewrite list_items_step by done.
  rewrite (line_step "> ") by (done || (cbn; tauto)).
  rewrite rule_step by done.
  rewrite (literal_step re_par_break _ [N.eqb 10; N.eqb 10]) by done.
  reflexivity.
Qed.

Lemma lifted_tag_none (s : jsstring) ps :
  lifted_tag s = false → In ps lifted_tags → occurs ps (paragraph s) = false.
Proof.
  intros Hl Hin. destruct (occurs ps (paragraph s)) eqn:Hocc; [|done].
  rewrite <- Hl. symmetry. apply existsb_exists. by exists ps.
Qed.

(** C3 (as amended): text without markdown whose paragraph holds no empty
    paragraph, and which holds no list item of its own, comes out of
    [markdownToHtml] inside one paragraph tag, [<p>] text [</p>], and
    nothing else; so it does out of the second copy of the component,
    when no tag of the text is one that this copy lifts out of a
    paragraph. The text may have several lines. *)
Theorem markdownToHtml_plain (s : jsstring) :
  markdown_free s = true → list_item s = false → empty_paragraph s = false →
  markdownToHtml s = str "<p>" ++ s ++ str "</p>"
  ∧ (lifted_tag s = false → markdownToHtml_lifted s = str "<p>" ++ s ++ str "</p>").
Proof.
  intros Hfree Hitem Hempty.
  assert (Hhtml : markdownToHtml s = paragraph s).
  { unfold markdownToHtml. rewrite markdownToHtml_body_free by done.
    by apply (literal_step re_empty_par _ (insensitive "<p></p>")). }
  split; [done|]. intros Hlift.
  unfold markdownToHtml_lifted. cbv zeta. rewrite Hhtml.
  rewrite (literal_step re_open_h _ _ _ eq_refl)
    by (done || (apply lifted_tag_none; [done|cbn; tauto])).
  rewrite (literal_step re_close_h _ _ _ eq_refl)
    by (done || (apply lifted_tag_none; [done|cbn; tauto])).
  rewrite (literal_step (re_open "ul") _ _ _ eq_refl)
    by (done || (apply lifted_tag_none; [done|cbn; tauto])).
  rewrite (literal_step (re_close "ul") _ _ _ eq_refl)
    by (done || (apply lifted_tag_none; [done|cbn; tauto])).
  rewrite (literal_step (re_open "pre") _ _ _ eq_refl)
    by (done || (apply lifted_tag_none; [done|cbn; tauto])).
  by rewrite (literal_step (re_close "pre") _ _ _ eq_refl)
    by (done || (apply lifted_tag_none; [done|cbn; tauto])).
Qed.

Lemma markdownToHtml_plain_witness :
  let s := str "Notes on snake_case:" ++ LF ++ str "a < b, 3 * 4 and -5 degrees"
           ++ LF ++ str "#tag [x] > done `" in
  markdown_free s = true ∧ list_item s = false ∧ empty_paragraph s = false
  ∧ lifted_tag s = false
  ∧ markdownToHtml s = str "<p>" ++ s ++ str "</p>"
  ∧ markdownToHtml_lifted s = str "<p>" ++ s ++ str "</p>".
Proof.
  intros s. split_and!; [reflexivity..| |].
  - exact (proj1 (markdownToHtml_plain s eq_refl eq_refl eq_refl)).
  - exact (proj2 (markdownToHtml_plain s eq_refl eq_refl eq_refl) eq_refl).
Defined.

(** The conditions are no more than the chain asks for: on every string
    of at most three code units among the marks of markdown, [<], a
    letter, a blank and a line feed, [markdownToHtml] gives the text
    inside one paragraph tag only where they hold. *)
Lemma markdown_free_needed (s : jsstring) (n : nat) :
  (n ≤ 3)%nat → In s (words (str "a*_`[]()#->< " ++ LF) n) →
  markdownToHtml s = str "<p>" ++ s ++ str "</p>" →
  markdown_free s = true ∧ list_item s = false ∧ empty_paragraph s = false.
Proof.
  intros Hn Hin Hs.
  assert (forallb (λ n, forallb (λ s,
            implb (bool_decide (markdownToHtml s = paragraph s))
              (markdown_free s && negb (list_item s) && negb (empty_paragraph s)))
            (words (str "a*_`[]()#->< " ++ LF) n)) (seq 0 4) = true) as Hall
    by (by vm_compute).
  rewrite forallb_forall in Hall. specialize (Hall n).
  rewrite forallb_forall in Hall. specialize (Hall ltac:(apply in_seq; lia) s Hin).
  rewrite bool_decide_eq_true_2 in Hall by done. cbn [implb] in Hall.
  apply andb_prop in Hall as [[? ?%negb_true_iff]%andb_prop ?%negb_true_iff]. done.
Qed.

(** Two asterisks or two underscores on a line are emphasis to the
    chain, wherever they stand. *)
Example markdownToHtml_loose_emphasis :
  markdownToHtml (str "3 * 4 * 5") = str "<p>3 <em> 4 </em> 5</p>"
  ∧ markdownToHtml (str "a_b_c") = str "<p>a<em>b</em>c</p>".
Proof. split; vm_compute; reflexivity. Qed.

(** The empty text has no markdown, and its paragraph is dropped: the
    output is empty, not [<p></p>]. An empty paragraph in the text goes
    the same way, a list item of the text's own is put inside [<ul>],
    and the second copy of the component takes a heading of the text's
    own out of its paragraph. *)
Lemma markdownToHtml_not_wrapped :
  (markdown_free [] = true
   ∧ markdownToHtml (A:=N) [] = []
   ∧ markdownToHtml (A:=N) [] ≠ str "<p>" ++ [] ++ str "</p>")
  ∧ (let s := str "a<p></p>" in
     markdown_free s = true
     ∧ markdownToHtml s = str "<p>a</p>"
     ∧ markdownToHtml s ≠ str "<p>" ++ s ++ str "</p>")
  ∧ (let s := str "<li>a</li>" in
     markdown_free s = true
     ∧ markdownToHtml s = str "<p><ul><li>a</li></ul></p>"
     ∧ markdownToHtml s ≠ str "<p>" ++ s ++ str "</p>")
  ∧ (let s := str "<h1>a</h1>" in
     markdown_free s = true
     ∧ markdownToHtml_lifted s = s
     ∧ markdownToHtml_lifted s ≠ str "<p>" ++ s ++ str "</p>").
Proof. cbv zeta. split_and!; vm_compute; (reflexivity || discriminate). Qed.

(** *** The pages of the PDF *)

Section Pages.
Import jsPDF.
Local Open Scope Q_scope.
Variables pageWidth pageHeight : Q.
Variable normalize : jsstring → jsstring.
Variable splitTextToSize : font_style → Z → jsstring → Q → list jsstring.
Variable toLocaleDateString : nat → jsstring.
Hypothesis Hpage : 140 <= pageHeight.

Local Abbreviation ok := (within_page pageHeight).

Lemma Qgt_bool_spec (a b : Q) :
  if Qgt_bool a b then b < a else a <= b.
Proof.
  unfold Qgt_bool. destruct (Qle_bool a b) eqn:E; simpl.
  - by apply Qle_bool_iff.
  - apply Qnot_le_lt. intros Hle%Qle_bool_iff. congruence.
Qed.

(** The loop over the pieces of one line: every piece is drawn at the
    cursor when that is not past the limit, and at the top margin of a
    new page when it is. *)
Lemma forEach_line_ok limit x step lines cursorY :
  margin <= limit → limit <= pageHeight - margin - 30 →
  ¬ x == margin + 2 → 0 <= step → margin <= cursorY →
  margin <= (forEach_line limit x step lines cursorY).1
  ∧ Forall ok (forEach_line limit x step lines cursorY).2.
Proof.
  intros Hlo Hhi Hx Hstep. revert cursorY.
  induction lines as [|l lines IH]; intros cursorY Hy; cbn [forEach_line].
  - split; [done|constructor].
  - pose proof (Qgt_bool_spec cursorY limit) as Hgt.
    destruct (Qgt_bool cursorY limit).
    + destruct (IH (margin + step)) as [Hy' Hall]; [unfold margin in *; lra|].
      destruct (forEach_line limit x step lines (margin + step)) as [y' calls].
      split; [done|]. cbn [snd app]. constructor; [done|].
      constructor; [|done]. right. unfold margin in *. lra.
    + destruct (IH (cursorY + step)) as [Hy' Hall]; [lra|].
      destruct (forEach_line limit x step lines (cursorY + step)) as [y' calls].
      split; [done|]. cbn [snd app].
      constructor; [|done]. right. lra.
Qed.

Lemma draw_line_ok raw cursorY :
  margin <= cursorY →
  margin <= (draw_line pageWidth pageHeight splitTextToSize raw cursorY).1
  ∧ Forall ok (draw_line pageWidth pageHeight splitTextToSize raw cursorY).2.
Proof.
  intros Hy. unfold draw_line. cbv zeta.
  assert (Hm : margin == 50) by reflexivity.
  assert (Hl : lineHeight == 16) by reflexivity.
  assert (Hgap : ∀ d, 0 <= d →
    margin <= (if Qgt_bool cursorY 130 then cursorY + d else cursorY)).
  { intros d Hd. destruct (Qgt_bool cursorY 130); lra. }
  assert (Hstyle : ∀ l1 l2 : list call,
    Forall ok l1 → Forall ok l2 → Forall ok (l1 ++ l2)).
  { intros l1 l2 H1 H2. by apply Forall_app. }
  destruct (trim raw) as [|c line]; [split; [cbn [fst]; lra|constructor]|].
  repeat match goal with
  | |- context [if ?b then _ else _] =>
      lazymatch b with
      | Qgt_bool _ _ => fail
      | _ => destruct b
      end
  | |- context [match match_to_end ?r ?l with _ => _ end] =>
      destruct (match_to_end r l)
  end;
  repeat match goal with
  | |- context [forEach_line ?limit ?x ?step ?ls ?y] =>
      let Hy' := fresh "Hy" in let Hall := fresh "Hall" in
      destruct (forEach_line_ok limit x step ls y) as [Hy' Hall];
      [lra|lra|lra|lra|first [apply Hgap; lra|lra]|];
      destruct (forEach_line limit x step ls y)
  end;
  cbn [fst snd] in *;
  (split; [lra|]);
  repeat first
    [ apply Forall_nil_2
    | apply Forall_app; split
    | apply Forall_cons; split; [first [exact I|by left]|]
    | assumption ].
Qed.

Lemma draw_lines_ok lines cursorY :
  margin <= cursorY →
  Forall ok (draw_lines pageWidth pageHeight splitTextToSize lines cursorY).2.
Proof.
  revert cursorY. induction lines as [|l lines IH]; intros cursorY Hy;
    cbn [draw_lines]; [constructor|].
  destruct (draw_line_ok l cursorY Hy) as [Hy' Hall].
  destruct (draw_line pageWidth pageHeight splitTextToSize l cursorY) as [y calls].
  specialize (IH y Hy').
  destruct (draw_lines pageWidth pageHeight splitTextToSize lines y) as [y' calls'].
  by apply Forall_app.
Qed.

(** X16: No line of the content is printed below the bottom margin: on a page
    at least 140 points high, every text of the PDF that is not centered
    (the two titles and the footers are) is drawn between the top margin
    and 30 points above the bottom margin, whatever the content and
    however the library breaks a long line into pieces. The one
    exception is the number of a list item, which is drawn before the
    loop over the pieces looks at the cursor. *)
Theorem pdf_text_within_page (content messageId : jsstring) :
  Forall (within_page pageHeight)
    (handleDownloadPdf pageWidth pageHeight normalize splitTextToSize
       toLocaleDateString content messageId).
Proof.
  unfold handleDownloadPdf. cbv zeta.
  apply Forall_app; split; [apply Forall_app; split|apply Forall_app; split].
  - unfold header. repeat constructor.
  - apply draw_lines_ok. unfold margin. lra.
  - unfold footer. apply Forall_forall. intros c Hc%list_elem_of_In.
    apply in_flat_map in Hc as (i & _ & Hc). simpl in Hc.
    repeat (destruct Hc as [<-|Hc]; [exact I|]). done.
  - by repeat constructor.
Qed.

Lemma texts_app (l1 l2 : list call) : texts (l1 ++ l2) = texts l1 ++ texts l2.
Proof. apply omap_app. Qed.

Lemma forEach_line_texts limit x step lines cursorY :
  texts (forEach_line limit x step lines cursorY).2 = lines.
Proof.
  revert cursorY. induction lines as [|l lines IH]; intros cursorY; [done|].
  cbn [forEach_line].
  destruct (Qgt_bool cursorY limit).
  - specialize (IH (margin + step)).
    destruct (forEach_line limit x step lines (margin + step)) as [y calls].
    cbn [snd app] in *. unfold texts in *. cbn [omap list_omap]. by rewrite IH.
  - specialize (IH (cursorY + step)).
    destruct (forEach_line limit x step lines (cursorY + step)) as [y calls].
    cbn [snd app] in *. unfold texts in *. cbn [omap list_omap]. by rewrite IH.
Qed.

Lemma draw_line_texts raw y y' :
  texts (draw_line pageWidth pageHeight splitTextToSize raw y).2
  = texts (draw_line pageWidth pageHeight splitTextToSize raw y').2.
Proof.
  unfold draw_line. cbv zeta.
  destruct (trim raw) as [|c line]; [done|].
  repeat match goal with
  | |- context [if ?b then _ else _] =>
      lazymatch b with
      | Qgt_bool _ _ => fail
      | _ => destruct b
      end
  | |- context [match match_to_end ?r ?l with _ => _ end] =>
      destruct (match_to_end r l)
  end; try done;
  repeat match goal with
  | |- context [forEach_line ?limit ?x ?step ?ls ?y] =>
      let H := fresh "H" in
      pose proof (forEach_line_texts limit x step ls y) as H;
      destruct (forEach_line limit x step ls y)
  end;
  cbn [snd] in *; rewrite !texts_app;
  repeat match goal with H : texts _ = _ |- _ => rewrite H; clear H end;
  done.
Qed.

(** X17: A page break loses nothing and repeats nothing: the texts the loop
    over the content draws, in their order, are the same wherever the
    cursor stands, and the loop over the pieces of one line draws
    exactly the pieces, in their order, whether or not a page is added
    between them. *)
Theorem pdf_texts_whatever_the_cursor lines cursorY cursorY' :
  texts (draw_lines pageWidth pageHeight splitTextToSize lines cursorY).2
  = texts (draw_lines pageWidth pageHeight splitTextToSize lines cursorY').2
  ∧ ∀ limit x step pieces,
      texts (forEach_line limit x step pieces cursorY).2 = pieces.
Proof.
  split; [|intros; apply forEach_line_texts].
  revert cursorY cursorY'. induction lines as [|l lines IH]; intros y y'; [done|].
  cbn [draw_lines].
  pose proof (draw_line_texts l y y') as Hl.
  destruct (draw_line pageWidth pageHeight splitTextToSize l y) as [y1 calls1].
  destruct (draw_line pageWidth pageHeight splitTextToSize l y') as [y1' calls1'].
  specialize (IH y1 y1').
  destruct (draw_lines pageWidth pageHeight splitTextToSize lines y1) as [y2 calls2].
  destruct (draw_lines pageWidth pageHeight splitTextToSize lines y1') as [y2' calls2'].
  cbn [snd] in *. by rewrite !texts_app, Hl, IH.
Qed.

(** A line that one of the two list patterns accepts starts with a digit,
    or with a list mark and a blank, so it is no heading. *)
Lemma test_at_start_fits r line :
  test_at_start r line = true → fits (lead r).1 line = true.
Proof.
  unfold test_at_start, exec.
  destruct (matches r (MState [] line [])) as [|st l] eqn:Hm; [done|]. intros _.
  assert (Hin : In st (matches r (MState [] line []))) by (rewrite Hm; by left).
  by apply matches_lead in Hin as (_ & Hfit & _).
Qed.

Lemma not_heading (c : N) (line : jsstring) :
  c ≠ 35%N →
  startsWith "# " (c :: line) = false
  ∧ startsWith "## " (c :: line) = false
  ∧ startsWith "### " (c :: line) = false.
Proof.
  intros Hc. unfold startsWith.
  split_and!; apply bool_decide_eq_false_2; intros [= ->]; done.
Qed.

(** X18: A list mark can be left behind: the number of a numbered item, and
    the dot of a bullet item, are drawn at the cursor before the loop
    over the pieces of the item looks at it. When the cursor is past the
    limit the mark is drawn there, on the old page, and the text of the
    item starts the next page. *)
Theorem pdf_list_mark_left_behind raw cursorY l ls :
  pageHeight - margin - 30 < cursorY →
  let line := trim raw in
  let draw := draw_line pageWidth pageHeight splitTextToSize raw cursorY in
  (test_at_start re_bullet line = true →
   splitTextToSize normal 10 (cleanText (drop 2 line)) (maxWidth pageWidth - 25)
     = l :: ls →
   ∃ calls,
     draw.2 = [setFont normal; setFontSize 10; setTextColor 55 65 81;
               setFillColor 0 212 255; circle (margin + 5) (cursorY - 3) 2.5;
               addPage; text l (margin + 20) margin false] ++ calls)
  ∧ (∀ st,
     test_at_start re_numbered line = true →
     match_to_end re_numbered_item line = Some st →
     splitTextToSize normal 10 (cleanText (capture 2 (caps st)))
       (maxWidth pageWidth - 28) = l :: ls →
     ∃ calls,
       draw.2 = [setFont normal; setFontSize 10; setTextColor 55 65 81;
                 setTextColor 0 212 255; setFont bold;
                 text (capture 1 (caps st) ++ str ".") (margin + 2) cursorY false;
                 setTextColor 55 65 81; setFont normal;
                 addPage; text l (margin + 25) margin false] ++ calls).
Proof.
  intros Hpast line draw. subst draw. unfold draw_line. cbv zeta. fold line.
  assert (Hbreak : Qgt_bool cursorY (pageHeight - margin - 30) = true).
  { pose proof (Qgt_bool_spec cursorY (pageHeight - margin - 30)) as Hgt.
    destruct (Qgt_bool cursorY (pageHeight - margin - 30)); [done|lra]. }
  split.
  - intros Htest Hsplit. pose proof (test_at_start_fits _ _ Htest) as Hfit.
    destruct line as [|c line']; [done|]. simpl in Hfit.
    apply andb_prop in Hfit as [Hc _].
    assert (Hne : c ≠ 35%N) by (intros ->; vm_compute in Hc; done).
    destruct (not_heading c line' Hne) as (-> & -> & ->).
    rewrite Htest, Hsplit. cbn [forEach_line]. rewrite Hbreak.
    destruct (forEach_line _ _ _ ls _) as [y calls]. cbn [snd app]. by eexists.
  - intros st Htest Hmatch Hsplit. pose proof (test_at_start_fits _ _ Htest) as Hfit.
    destruct line as [|c line']; [done|]. simpl in Hfit.
    apply andb_prop in Hfit as [Hc _].
    assert (Hne : c ≠ 35%N) by (intros ->; vm_compute in Hc; done).
    destruct (not_heading c line' Hne) as (-> & -> & ->).
    assert (Hbullet : test_at_start re_bullet (c :: line') = false).
    { unfold test_at_start. rewrite exec_no_fit; [done|]. simpl.
      apply andb_false_intro1. apply orb_false_intro.
      - unfold oneof. simpl. rewrite orb_false_r. apply orb_false_intro;
          apply N.eqb_neq; intros ->; vm_compute in Hc; done.
      - apply N.eqb_neq. intros ->. vm_compute in Hc. done. }
    rewrite Hbullet, Htest, Hmatch, Hsplit. cbn [forEach_line]. rewrite Hbreak.
    destruct (forEach_line _ _ _ ls _) as [y calls]. cbn [snd app]. by eexists.
Qed.
End Pages.

(** An A4 page in points, a library that never breaks a line, and text
    that is in normal form already. *)
Lemma pdf_text_within_page_witness :
  let content := str "# Plan" ++ LF ++ LF ++ str "1. Ship it." ++ LF ++ str "- Rest" in
  (140 <= 841.89)%Q
  ∧ Forall (within_page 841.89)
      (handleDownloadPdf 595.28 841.89 (λ s, s) (λ _ _ s _, [s]) (λ _, str "today")
         content (str "m1")).
Proof.
  intros content.
  assert (Hpage : (140 <= 841.89)%Q) by (unfold Qle; simpl; lia).
  split; [exact Hpage|].
  exact (pdf_text_within_page 595.28 841.89 (λ s, s) (λ _ _ s _, [s])
           (λ _, str "today") Hpage content (str "m1")).
Defined.

Lemma pdf_list_mark_left_behind_witness :
  (841.89 - margin - 30 < 770)%Q
  ∧ ∃ calls,
      (draw_line 595.28 841.89 (λ _ _ s _, [s]) (str "- Rest") 770).2
      = [jsPDF.setFont jsPDF.normal; jsPDF.setFontSize 10; jsPDF.setTextColor 55 65 81;
         jsPDF.setFillColor 0 212 255; jsPDF.circle (margin + 5) (770 - 3) 2.5;
         jsPDF.addPage; jsPDF.text (str "Rest") (margin + 20) margin false] ++ calls.
Proof.
  assert (Hpast : (841.89 - margin - 30 < 770)%Q) by (unfold Qlt; simpl; lia).
  split; [exact Hpast|].
  exact (proj1 (pdf_list_mark_left_behind 595.28 841.89 (λ _ _ s _, [s])
                  (str "- Rest") 770 (str "Rest") [] Hpast) eq_refl eq_refl).
Defined.

End Exports.
